(** * stringify-pro: a shallow embedding of [src/StringUtils.ts]

    JavaScript strings are sequences of UTF-16 code units; they are modelled
    as lists of [N].  A thrown exception is a value of [exn] carried by the
    [Throw] constructor of [result].  What the library takes from the
    platform (case mapping, random bytes, UTF-8, base64, PBKDF2, IEEE
    doubles, regular expressions) is modelled next to the code that uses
    it. *)

From Stdlib Require Import ZArith NArith List Bool Lia String Ascii Floats Uint63.
From stdpp Require Import base list.

Local Open Scope N_scope.

(** ** Strings *)

Abbreviation jsstring := (list N).

(** The code units of an ASCII literal. *)
Definition lit (s : string) : jsstring :=
  map N_of_ascii (list_ascii_of_string s).

Definition in_range (lo hi c : N) : bool := (lo <=? c) && (c <=? hi).

Definition is_upper (c : N) : bool := in_range 65 90 c.
Definition is_lower (c : N) : bool := in_range 97 122 c.
Definition is_digit (c : N) : bool := in_range 48 57 c.

(** [[a-zA-Z0-9]] *)
Definition is_alnum (c : N) : bool := is_lower c || is_upper c || is_digit c.

(** [\w] *)
Definition is_word (c : N) : bool := is_alnum c || (c =? 95).

(** [\s]: WhiteSpace and LineTerminator of ECMAScript, which is also what
    [String.prototype.trim] strips. *)
Definition is_space (c : N) : bool :=
  in_range 9 13 c || (c =? 32) || (c =? 160) || (c =? 0x1680)
  || in_range 0x2000 0x200A c || (c =? 0x2028) || (c =? 0x2029)
  || (c =? 0x202F) || (c =? 0x205F) || (c =? 0x3000) || (c =? 0xFEFF).

Definition is_ascii (c : N) : bool := c <? 128.

Definition ascii_lower (c : N) : N := if is_upper c then c + 32 else c.
Definition ascii_upper (c : N) : N := if is_lower c then c - 32 else c.

(** The platform's [toUpperCase] and [toLowerCase].  Their Unicode tables
    are not part of the repository; the code is modelled over any pair of
    them, and the facts used about them are stated as laws. *)
Class CaseMapping := {
  toUpperCase : jsstring -> jsstring;
  toLowerCase : jsstring -> jsstring
}.

(** On a string of ASCII code units lower-casing works unit by unit. *)
Definition lower_ascii_law (cm : CaseMapping) : Prop :=
  forall s, forallb is_ascii s = true -> toLowerCase s = map ascii_lower s.

(** Upper-casing one code unit gives a non-empty string whose first code
    unit is left alone by upper-casing. *)
Definition upper_head_law (cm : CaseMapping) : Prop :=
  forall c, exists u r, toUpperCase [c] = u :: r /\ toUpperCase [u] = [u].

(** [toUpperCase] on one code unit, by the Unicode Character Database
    (version 14.0, [UnicodeData.txt] and the unconditional mappings of
    [SpecialCasing.txt]).  A range [(first, last, step, target)] maps the
    units [first], [first + step], ..., [last] to [target],
    [target + step], ...; the units of [upper_special] have an upper case
    of several units; every other unit of the Basic Multilingual Plane,
    the surrogates among them, is its own upper case. *)
Definition upper_ranges : list (N * N * N * N) :=
    [(0x0061, 0x007A, 1, 0x0041); (0x00B5, 0x00B5, 1, 0x039C);
     (0x00E0, 0x00F6, 1, 0x00C0); (0x00F8, 0x00FE, 1, 0x00D8);
     (0x00FF, 0x00FF, 1, 0x0178); (0x0101, 0x012F, 2, 0x0100);
     (0x0131, 0x0131, 1, 0x0049); (0x0133, 0x0137, 2, 0x0132);
     (0x013A, 0x0148, 2, 0x0139); (0x014B, 0x0177, 2, 0x014A);
     (0x017A, 0x017E, 2, 0x0179); (0x017F, 0x017F, 1, 0x0053);
     (0x0180, 0x0180, 1, 0x0243); (0x0183, 0x0185, 2, 0x0182);
     (0x0188, 0x0188, 1, 0x0187); (0x018C, 0x018C, 1, 0x018B);
     (0x0192, 0x0192, 1, 0x0191); (0x0195, 0x0195, 1, 0x01F6);
     (0x0199, 0x0199, 1, 0x0198); (0x019A, 0x019A, 1, 0x023D);
     (0x019E, 0x019E, 1, 0x0220); (0x01A1, 0x01A5, 2, 0x01A0);
     (0x01A8, 0x01A8, 1, 0x01A7); (0x01AD, 0x01AD, 1, 0x01AC);
     (0x01B0, 0x01B0, 1, 0x01AF); (0x01B4, 0x01B6, 2, 0x01B3);
     (0x01B9, 0x01B9, 1, 0x01B8); (0x01BD, 0x01BD, 1, 0x01BC);
     (0x01BF, 0x01BF, 1, 0x01F7); (0x01C5, 0x01C5, 1, 0x01C4);
     (0x01C6, 0x01C6, 1, 0x01C4); (0x01C8, 0x01C8, 1, 0x01C7);
     (0x01C9, 0x01C9, 1, 0x01C7); (0x01CB, 0x01CB, 1, 0x01CA);
     (0x01CC, 0x01CC, 1, 0x01CA); (0x01CE, 0x01DC, 2, 0x01CD);
     (0x01DD, 0x01DD, 1, 0x018E); (0x01DF, 0x01EF, 2, 0x01DE);
     (0x01F2, 0x01F2, 1, 0x01F1); (0x01F3, 0x01F3, 1, 0x01F1);
     (0x01F5, 0x01F5, 1, 0x01F4); (0x01F9, 0x021F, 2, 0x01F8);
     (0x0223, 0x0233, 2, 0x0222); (0x023C, 0x023C, 1, 0x023B);
     (0x023F, 0x0240, 1, 0x2C7E); (0x0242, 0x0242, 1, 0x0241);
     (0x0247, 0x024F, 2, 0x0246); (0x0250, 0x0250, 1, 0x2C6F);
     (0x0251, 0x0251, 1, 0x2C6D); (0x0252, 0x0252, 1, 0x2C70);
     (0x0253, 0x0253, 1, 0x0181); (0x0254, 0x0254, 1, 0x0186);
     (0x0256, 0x0257, 1, 0x0189); (0x0259, 0x0259, 1, 0x018F);
     (0x025B, 0x025B, 1, 0x0190); (0x025C, 0x025C, 1, 0xA7AB);
     (0x0260, 0x0260, 1, 0x0193); (0x0261, 0x0261, 1, 0xA7AC);
     (0x0263, 0x0263, 1, 0x0194); (0x0265, 0x0265, 1, 0xA78D);
     (0x0266, 0x0266, 1, 0xA7AA); (0x0268, 0x0268, 1, 0x0197);
     (0x0269, 0x0269, 1, 0x0196); (0x026A, 0x026A, 1, 0xA7AE);
     (0x026B, 0x026B, 1, 0x2C62); (0x026C, 0x026C, 1, 0xA7AD);
     (0x026F, 0x026F, 1, 0x019C); (0x0271, 0x0271, 1, 0x2C6E);
     (0x0272, 0x0272, 1, 0x019D); (0x0275, 0x0275, 1, 0x019F);
     (0x027D, 0x027D, 1, 0x2C64); (0x0280, 0x0280, 1, 0x01A6);
     (0x0282, 0x0282, 1, 0xA7C5); (0x0283, 0x0283, 1, 0x01A9);
     (0x0287, 0x0287, 1, 0xA7B1); (0x0288, 0x0288, 1, 0x01AE);
     (0x0289, 0x0289, 1, 0x0244); (0x028A, 0x028B, 1, 0x01B1);
     (0x028C, 0x028C, 1, 0x0245); (0x0292, 0x0292, 1, 0x01B7);
     (0x029D, 0x029D, 1, 0xA7B2); (0x029E, 0x029E, 1, 0xA7B0);
     (0x0345, 0x0345, 1, 0x0399); (0x0371, 0x0373, 2, 0x0370);
     (0x0377, 0x0377, 1, 0x0376); (0x037B, 0x037D, 1, 0x03FD);
     (0x03AC, 0x03AC, 1, 0x0386); (0x03AD, 0x03AF, 1, 0x0388);
     (0x03B1, 0x03C1, 1, 0x0391); (0x03C2, 0x03C2, 1, 0x03A3);
     (0x03C3, 0x03CB, 1, 0x03A3); (0x03CC, 0x03CC, 1, 0x038C);
     (0x03CD, 0x03CE, 1, 0x038E); (0x03D0, 0x03D0, 1, 0x0392);
     (0x03D1, 0x03D1, 1, 0x0398); (0x03D5, 0x03D5, 1, 0x03A6);
     (0x03D6, 0x03D6, 1, 0x03A0); (0x03D7, 0x03D7, 1, 0x03CF);
     (0x03D9, 0x03EF, 2, 0x03D8); (0x03F0, 0x03F0, 1, 0x039A);
     (0x03F1, 0x03F1, 1, 0x03A1); (0x03F2, 0x03F2, 1, 0x03F9);
     (0x03F3, 0x03F3, 1, 0x037F); (0x03F5, 0x03F5, 1, 0x0395);
     (0x03F8, 0x03F8, 1, 0x03F7); (0x03FB, 0x03FB, 1, 0x03FA);
     (0x0430, 0x044F, 1, 0x0410); (0x0450, 0x045F, 1, 0x0400);
     (0x0461, 0x0481, 2, 0x0460); (0x048B, 0x04BF, 2, 0x048A);
     (0x04C2, 0x04CE, 2, 0x04C1); (0x04CF, 0x04CF, 1, 0x04C0);
     (0x04D1, 0x052F, 2, 0x04D0); (0x0561, 0x0586, 1, 0x0531);
     (0x10D0, 0x10FA, 1, 0x1C90); (0x10FD, 0x10FF, 1, 0x1CBD);
     (0x13F8, 0x13FD, 1, 0x13F0); (0x1C80, 0x1C80, 1, 0x0412);
     (0x1C81, 0x1C81, 1, 0x0414); (0x1C82, 0x1C82, 1, 0x041E);
     (0x1C83, 0x1C84, 1, 0x0421); (0x1C85, 0x1C85, 1, 0x0422);
     (0x1C86, 0x1C86, 1, 0x042A); (0x1C87, 0x1C87, 1, 0x0462);
     (0x1C88, 0x1C88, 1, 0xA64A); (0x1D79, 0x1D79, 1, 0xA77D);
     (0x1D7D, 0x1D7D, 1, 0x2C63); (0x1D8E, 0x1D8E, 1, 0xA7C6);
     (0x1E01, 0x1E95, 2, 0x1E00); (0x1E9B, 0x1E9B, 1, 0x1E60);
     (0x1EA1, 0x1EFF, 2, 0x1EA0); (0x1F00, 0x1F07, 1, 0x1F08);
     (0x1F10, 0x1F15, 1, 0x1F18); (0x1F20, 0x1F27, 1, 0x1F28);
     (0x1F30, 0x1F37, 1, 0x1F38); (0x1F40, 0x1F45, 1, 0x1F48);
     (0x1F51, 0x1F57, 2, 0x1F59); (0x1F60, 0x1F67, 1, 0x1F68);
     (0x1F70, 0x1F71, 1, 0x1FBA); (0x1F72, 0x1F75, 1, 0x1FC8);
     (0x1F76, 0x1F77, 1, 0x1FDA); (0x1F78, 0x1F79, 1, 0x1FF8);
     (0x1F7A, 0x1F7B, 1, 0x1FEA); (0x1F7C, 0x1F7D, 1, 0x1FFA);
     (0x1FB0, 0x1FB1, 1, 0x1FB8); (0x1FBE, 0x1FBE, 1, 0x0399);
     (0x1FD0, 0x1FD1, 1, 0x1FD8); (0x1FE0, 0x1FE1, 1, 0x1FE8);
     (0x1FE5, 0x1FE5, 1, 0x1FEC); (0x214E, 0x214E, 1, 0x2132);
     (0x2170, 0x217F, 1, 0x2160); (0x2184, 0x2184, 1, 0x2183);
     (0x24D0, 0x24E9, 1, 0x24B6); (0x2C30, 0x2C5F, 1, 0x2C00);
     (0x2C61, 0x2C61, 1, 0x2C60); (0x2C65, 0x2C65, 1, 0x023A);
     (0x2C66, 0x2C66, 1, 0x023E); (0x2C68, 0x2C6C, 2, 0x2C67);
     (0x2C73, 0x2C73, 1, 0x2C72); (0x2C76, 0x2C76, 1, 0x2C75);
     (0x2C81, 0x2CE3, 2, 0x2C80); (0x2CEC, 0x2CEE, 2, 0x2CEB);
     (0x2CF3, 0x2CF3, 1, 0x2CF2); (0x2D00, 0x2D25, 1, 0x10A0);
     (0x2D27, 0x2D27, 1, 0x10C7); (0x2D2D, 0x2D2D, 1, 0x10CD);
     (0xA641, 0xA66D, 2, 0xA640); (0xA681, 0xA69B, 2, 0xA680);
     (0xA723, 0xA72F, 2, 0xA722); (0xA733, 0xA76F, 2, 0xA732);
     (0xA77A, 0xA77C, 2, 0xA779); (0xA77F, 0xA787, 2, 0xA77E);
     (0xA78C, 0xA78C, 1, 0xA78B); (0xA791, 0xA793, 2, 0xA790);
     (0xA794, 0xA794, 1, 0xA7C4); (0xA797, 0xA7A9, 2, 0xA796);
     (0xA7B5, 0xA7C3, 2, 0xA7B4); (0xA7C8, 0xA7CA, 2, 0xA7C7);
     (0xA7D1, 0xA7D1, 1, 0xA7D0); (0xA7D7, 0xA7D9, 2, 0xA7D6);
     (0xA7F6, 0xA7F6, 1, 0xA7F5); (0xAB53, 0xAB53, 1, 0xA7B3);
     (0xAB70, 0xABBF, 1, 0x13A0); (0xFF41, 0xFF5A, 1, 0xFF21)].

Definition upper_special : list (N * jsstring) :=
    [(0x00DF, [0x0053; 0x0053]); (0x0149, [0x02BC; 0x004E]);
     (0x01F0, [0x004A; 0x030C]); (0x0390, [0x0399; 0x0308; 0x0301]);
     (0x03B0, [0x03A5; 0x0308; 0x0301]); (0x0587, [0x0535; 0x0552]);
     (0x1E96, [0x0048; 0x0331]); (0x1E97, [0x0054; 0x0308]);
     (0x1E98, [0x0057; 0x030A]); (0x1E99, [0x0059; 0x030A]);
     (0x1E9A, [0x0041; 0x02BE]); (0x1F50, [0x03A5; 0x0313]);
     (0x1F52, [0x03A5; 0x0313; 0x0300]); (0x1F54, [0x03A5; 0x0313; 0x0301]);
     (0x1F56, [0x03A5; 0x0313; 0x0342]); (0x1F80, [0x1F08; 0x0399]);
     (0x1F81, [0x1F09; 0x0399]); (0x1F82, [0x1F0A; 0x0399]);
     (0x1F83, [0x1F0B; 0x0399]); (0x1F84, [0x1F0C; 0x0399]);
     (0x1F85, [0x1F0D; 0x0399]); (0x1F86, [0x1F0E; 0x0399]);
     (0x1F87, [0x1F0F; 0x0399]); (0x1F88, [0x1F08; 0x0399]);
     (0x1F89, [0x1F09; 0x0399]); (0x1F8A, [0x1F0A; 0x0399]);
     (0x1F8B, [0x1F0B; 0x0399]); (0x1F8C, [0x1F0C; 0x0399]);
     (0x1F8D, [0x1F0D; 0x0399]); (0x1F8E, [0x1F0E; 0x0399]);
     (0x1F8F, [0x1F0F; 0x0399]); (0x1F90, [0x1F28; 0x0399]);
     (0x1F91, [0x1F29; 0x0399]); (0x1F92, [0x1F2A; 0x0399]);
     (0x1F93, [0x1F2B; 0x0399]); (0x1F94, [0x1F2C; 0x0399]);
     (0x1F95, [0x1F2D; 0x0399]); (0x1F96, [0x1F2E; 0x0399]);
     (0x1F97, [0x1F2F; 0x0399]); (0x1F98, [0x1F28; 0x0399]);
     (0x1F99, [0x1F29; 0x0399]); (0x1F9A, [0x1F2A; 0x0399]);
     (0x1F9B, [0x1F2B; 0x0399]); (0x1F9C, [0x1F2C; 0x0399]);
     (0x1F9D, [0x1F2D; 0x0399]); (0x1F9E, [0x1F2E; 0x0399]);
     (0x1F9F, [0x1F2F; 0x0399]); (0x1FA0, [0x1F68; 0x0399]);
     (0x1FA1, [0x1F69; 0x0399]); (0x1FA2, [0x1F6A; 0x0399]);
     (0x1FA3, [0x1F6B; 0x0399]); (0x1FA4, [0x1F6C; 0x0399]);
     (0x1FA5, [0x1F6D; 0x0399]); (0x1FA6, [0x1F6E; 0x0399]);
     (0x1FA7, [0x1F6F; 0x0399]); (0x1FA8, [0x1F68; 0x0399]);
     (0x1FA9, [0x1F69; 0x0399]); (0x1FAA, [0x1F6A; 0x0399]);
     (0x1FAB, [0x1F6B; 0x0399]); (0x1FAC, [0x1F6C; 0x0399]);
     (0x1FAD, [0x1F6D; 0x0399]); (0x1FAE, [0x1F6E; 0x0399]);
     (0x1FAF, [0x1F6F; 0x0399]); (0x1FB2, [0x1FBA; 0x0399]);
     (0x1FB3, [0x0391; 0x0399]); (0x1FB4, [0x0386; 0x0399]);
     (0x1FB6, [0x0391; 0x0342]); (0x1FB7, [0x0391; 0x0342; 0x0399]);
     (0x1FBC, [0x0391; 0x0399]); (0x1FC2, [0x1FCA; 0x0399]);
     (0x1FC3, [0x0397; 0x0399]); (0x1FC4, [0x0389; 0x0399]);
     (0x1FC6, [0x0397; 0x0342]); (0x1FC7, [0x0397; 0x0342; 0x0399]);
     (0x1FCC, [0x0397; 0x0399]); (0x1FD2, [0x0399; 0x0308; 0x0300]);
     (0x1FD3, [0x0399; 0x0308; 0x0301]); (0x1FD6, [0x0399; 0x0342]);
     (0x1FD7, [0x0399; 0x0308; 0x0342]); (0x1FE2, [0x03A5; 0x0308; 0x0300]);
     (0x1FE3, [0x03A5; 0x0308; 0x0301]); (0x1FE4, [0x03A1; 0x0313]);
     (0x1FE6, [0x03A5; 0x0342]); (0x1FE7, [0x03A5; 0x0308; 0x0342]);
     (0x1FF2, [0x1FFA; 0x0399]); (0x1FF3, [0x03A9; 0x0399]);
     (0x1FF4, [0x038F; 0x0399]); (0x1FF6, [0x03A9; 0x0342]);
     (0x1FF7, [0x03A9; 0x0342; 0x0399]); (0x1FFC, [0x03A9; 0x0399]);
     (0xFB00, [0x0046; 0x0046]); (0xFB01, [0x0046; 0x0049]);
     (0xFB02, [0x0046; 0x004C]); (0xFB03, [0x0046; 0x0046; 0x0049]);
     (0xFB04, [0x0046; 0x0046; 0x004C]); (0xFB05, [0x0053; 0x0054]);
     (0xFB06, [0x0053; 0x0054]); (0xFB13, [0x0544; 0x0546]);
     (0xFB14, [0x0544; 0x0535]); (0xFB15, [0x0544; 0x053B]);
     (0xFB16, [0x054E; 0x0546]); (0xFB17, [0x0544; 0x053D])].

Definition in_upper_range (c : N) (r : N * N * N * N) : bool :=
  let '(first, last, step, _) := r in
  (first <=? c) && (c <=? last) && ((c - first) mod step =? 0).

Definition unicode_upper (c : N) : jsstring :=
  match List.find (in_upper_range c) upper_ranges with
  | Some (first, _, _, target) => [target + (c - first)]
  | None =>
      match List.find (fun p => fst p =? c) upper_special with
      | Some (_, upper) => upper
      | None => [c]
      end
  end.

(** On a one-unit string upper-casing is Unicode's. *)
Definition upper_unicode_law (cm : CaseMapping) : Prop :=
  forall c, toUpperCase [c] = unicode_upper c.

(** An instance of the laws: upper-casing unit by unit with the Unicode
    table, which is the platform's on strings without surrogate pairs, and
    lower-casing of the ASCII and Latin-1 letters. *)
Definition latin_lower1 (c : N) : N :=
  if in_range 0xC0 0xDE c && negb (c =? 0xD7) then c + 32 else ascii_lower c.

Definition latin_case : CaseMapping := {|
  toUpperCase := fun s => concat (map unicode_upper s);
  toLowerCase := map latin_lower1
|}.

(** ** Errors *)

Inductive error_class :=
| StringUtilError
| ValidationError
| CryptoError
| NativeError.

(** [ValidationError] and [CryptoError] extend [StringUtilError]
    ([errors.ts]); the platform's own errors (a [SyntaxError] of the
    regular-expression engine, a [RangeError] or [TypeError] of [crypto])
    are outside the hierarchy. *)
Definition instance_of (e base : error_class) : bool :=
  match base, e with
  | StringUtilError, (StringUtilError | ValidationError | CryptoError) => true
  | ValidationError, ValidationError => true
  | CryptoError, CryptoError => true
  | NativeError, NativeError => true
  | _, _ => false
  end.

Record exn := mk_exn { exn_class : error_class; exn_message : string }.

Inductive result (A : Type) :=
| Ok (a : A)
| Throw (e : exn).
Arguments Ok {A} a.
Arguments Throw {A} e.

Definition bind {A B} (r : result A) (k : A -> result B) : result B :=
  match r with
  | Ok a => k a
  | Throw e => Throw e
  end.

Notation "'let!' x ':=' r 'in' k" := (bind r (fun x => k))
  (at level 10, x name, r at level 100, k at level 200).

(** [try { body } catch (error) { throw new C(msg) }] *)
Definition try_catch {A} (body : result A) (c : error_class) (msg : string)
  : result A :=
  match body with
  | Ok a => Ok a
  | Throw _ => Throw (mk_exn c msg)
  end.

Definition throws {A} (r : result A) (c : error_class) : Prop :=
  exists msg, r = Throw (mk_exn c msg).

(** ** Input validation *)

(** The values a caller can pass where the signature says [string]. *)
Inductive value :=
| VNull
| VUndefined
| VString (s : jsstring)
| VOther.

Definition validateString (str : value) (functionName : string)
  : result jsstring :=
  match str with
  | VNull | VUndefined =>
      Throw (mk_exn ValidationError
               (functionName ++ ": Input cannot be null or undefined"))
  | VOther =>
      Throw (mk_exn ValidationError
               (functionName ++ ": Input must be a string"))
  | VString s => Ok s
  end.

(** ** Regular expressions

    The part of the platform's engine the library uses: a backtracking
    matcher with ECMAScript's priorities (left alternative first, greedy
    quantifiers, an iteration that consumes nothing is not repeated), the
    global [String.prototype.replace], and the parser of [new RegExp(src)]
    for patterns built at run time. *)

Module RegExp.

Inductive regex :=
| REmpty
| RChar (c : N)
| RSet (p : N -> bool)
| RBol
| REol
| RSeq (r1 r2 : regex)
| RAlt (r1 r2 : regex)
| RStar (r : regex)
| RPlus (r : regex)
| ROpt (r : regex)
| RGroup (r : regex).

Definition cont := jsstring -> option jsstring.

(** [iterate step k fuel s]: zero or more greedy iterations of [step],
    each of which must consume input, then [k]. *)
Fixpoint iterate (step : cont -> cont) (k : cont) (fuel : nat)
  (s : jsstring) : option jsstring :=
  match fuel with
  | O => k s
  | S fuel' =>
      match step (fun s' => if (length s' <? length s)%nat
                            then iterate step k fuel' s' else None) s with
      | Some e => Some e
      | None => k s
      end
  end.

(** [rmatch n0 r k s]: match [r] at the position whose remaining input is
    [s], in an input of [n0] code units, then continue with [k]; the
    result is the input remaining after the whole match. *)
Fixpoint rmatch (n0 : nat) (r : regex) (k : cont) (s : jsstring)
  : option jsstring :=
  match r with
  | REmpty => k s
  | RChar c =>
      match s with
      | x :: s' => if x =? c then k s' else None
      | [] => None
      end
  | RSet p =>
      match s with
      | x :: s' => if p x then k s' else None
      | [] => None
      end
  | RBol => if (length s =? n0)%nat then k s else None
  | REol => match s with [] => k s | _ :: _ => None end
  | RSeq r1 r2 => rmatch n0 r1 (rmatch n0 r2 k) s
  | RAlt r1 r2 =>
      match rmatch n0 r1 k s with
      | Some e => Some e
      | None => rmatch n0 r2 k s
      end
  | RStar r1 => iterate (rmatch n0 r1) k (length s) s
  | RPlus r1 =>
      rmatch n0 r1 (fun s' => iterate (rmatch n0 r1) k (length s') s') s
  | ROpt r1 =>
      match rmatch n0 r1 k s with
      | Some e => Some e
      | None => k s
      end
  | RGroup r1 => rmatch n0 r1 k s
  end.

(** The number of capturing groups. *)
Fixpoint groups (r : regex) : nat :=
  match r with
  | REmpty | RChar _ | RSet _ | RBol | REol => 0
  | RSeq r1 r2 | RAlt r1 r2 => groups r1 + groups r2
  | RStar r1 | RPlus r1 | ROpt r1 => groups r1
  | RGroup r1 => S (groups r1)
  end.

(** A replacement string after [GetSubstitution] has read its [$]
    patterns. *)
Inductive piece :=
| TLit (c : N)
| TMatched
| TBefore
| TAfter.

Definition template := list piece.

Definition plain (s : jsstring) : template := map TLit s.

(** [$$], [$&], [$`] and [$'] are read as such; with no capturing group
    ([m = 0]) every other [$] stands for itself.  A [$] followed by a
    digit when the pattern has groups is outside this model ([None]). *)
Fixpoint compile_template (m : nat) (rep : jsstring) : option template :=
  match rep with
  | [] => Some []
  | 36 :: 36 :: rest => cons (TLit 36) <$> compile_template m rest
  | 36 :: 38 :: rest => cons TMatched <$> compile_template m rest
  | 36 :: 96 :: rest => cons TBefore <$> compile_template m rest
  | 36 :: 39 :: rest => cons TAfter <$> compile_template m rest
  | 36 :: ((d :: _) as rest) =>
      if is_digit d && negb (m =? 0)%nat then None
      else cons (TLit 36) <$> compile_template m rest
  | c :: rest => cons (TLit c) <$> compile_template m rest
  end.

Definition expand (t : template) (matched before after : jsstring)
  : jsstring :=
  concat (map (fun p => match p with
                        | TLit c => [c]
                        | TMatched => matched
                        | TBefore => before
                        | TAfter => after
                        end) t).

(** The scan of a global replace over the input [whole], at the position
    whose remaining input is [s]. *)
Fixpoint replace_from (r : regex) (t : template) (whole : jsstring)
  (fuel : nat) (s : jsstring) : jsstring :=
  match fuel with
  | O => s
  | S fuel' =>
      let n0 := length whole in
      match rmatch n0 r Some s with
      | Some e =>
          let len := (length s - length e)%nat in
          let sub := expand t (take len s) (take (n0 - length s) whole) e in
          match len, e with
          | O, c :: e' => sub ++ c :: replace_from r t whole fuel' e'
          | O, [] => sub
          | S _, _ => sub ++ replace_from r t whole fuel' e
          end
      | None =>
          match s with
          | [] => []
          | c :: s' => c :: replace_from r t whole fuel' s'
          end
      end
  end.

(** [s.replace(/r/g, t)] *)
Definition replace_all (r : regex) (t : template) (s : jsstring) : jsstring :=
  replace_from r t s (S (length s)) s.

(** The first position, from the one whose remaining input is [s] on,
    where [r] matches. *)
Fixpoint test_from (r : regex) (n0 : nat) (s : jsstring) : bool :=
  match rmatch n0 r Some s with
  | Some _ => true
  | None =>
      match s with
      | [] => false
      | _ :: s' => test_from r n0 s'
      end
  end.

(** [/r/.test(s)] *)
Definition test (r : regex) (s : jsstring) : bool :=
  test_from r (length s) s.

(** *** [new RegExp(src)] *)

Inductive parsed (A : Type) :=
| Parsed (a : A) (rest : jsstring)
| SyntaxErr
| Unsupported.
Arguments Parsed {A} a rest.
Arguments SyntaxErr {A}.
Arguments Unsupported {A}.

(** [^ $ \ . * + ? ( ) [ ] { } |] *)
Definition is_syntax_char (c : N) : bool :=
  existsb (N.eqb c) [94; 36; 92; 46; 42; 43; 63; 40; 41; 91; 93; 123; 125; 124].

Definition is_quantifier (c : N) : bool :=
  (c =? 42) || (c =? 43) || (c =? 63).

Definition is_line_terminator (c : N) : bool :=
  (c =? 10) || (c =? 13) || (c =? 0x2028) || (c =? 0x2029).

(** An atom followed by an optional greedy quantifier.  A lazy
    quantifier is not modelled. *)
Definition quantified (a : regex) (s : jsstring) : parsed regex :=
  match s with
  | q :: s' =>
      if is_quantifier q then
        match s' with
        | 63 :: _ => Unsupported
        | _ => Parsed (if q =? 42 then RStar a
                       else if q =? 43 then RPlus a else ROpt a) s'
        end
      else Parsed a s
  | [] => Parsed a s
  end.

(** [parse_disjunction] reads alternatives separated by [|];
    [parse_terms] reads one alternative, up to [|], [)] or the end.
    Character classes, braces, [(?...)] groups and escapes other than
    [\] before a syntax character or [/] are [Unsupported]. *)
Fixpoint parse_disjunction (fuel : nat) (s : jsstring) : parsed regex :=
  match fuel with
  | O => Unsupported
  | S fuel' =>
      match parse_terms fuel' s with
      | Parsed r1 (124 :: rest) =>
          match parse_disjunction fuel' rest with
          | Parsed r2 rest' => Parsed (RAlt r1 r2) rest'
          | SyntaxErr => SyntaxErr
          | Unsupported => Unsupported
          end
      | other => other
      end
  end
with parse_terms (fuel : nat) (s : jsstring) : parsed regex :=
  match fuel with
  | O => Unsupported
  | S fuel' =>
      let continue (a : parsed regex) : parsed regex :=
        match a with
        | Parsed r rest =>
            match parse_terms fuel' rest with
            | Parsed r' rest' => Parsed (RSeq r r') rest'
            | SyntaxErr => SyntaxErr
            | Unsupported => Unsupported
            end
        | SyntaxErr => SyntaxErr
        | Unsupported => Unsupported
        end in
      match s with
      | [] => Parsed REmpty s
      | c :: s' =>
          if (c =? 124) || (c =? 41) then Parsed REmpty s
          else if c =? 94 then continue (Parsed RBol s')
          else if c =? 36 then continue (Parsed REol s')
          else if is_quantifier c then SyntaxErr
          else if c =? 46 then
            continue (quantified (RSet (fun x => negb (is_line_terminator x))) s')
          else if c =? 92 then
            match s' with
            | [] => SyntaxErr
            | e :: s'' =>
                if is_syntax_char e || (e =? 47)
                then continue (quantified (RChar e) s'')
                else Unsupported
            end
          else if c =? 40 then
            match s' with
            | 63 :: _ => Unsupported
            | _ =>
                match parse_disjunction fuel' s' with
                | Parsed r (41 :: rest) => continue (quantified (RGroup r) rest)
                | Parsed _ _ => SyntaxErr
                | SyntaxErr => SyntaxErr
                | Unsupported => Unsupported
                end
            end
          else if is_syntax_char c then Unsupported
          else continue (quantified (RChar c) s')
      end
  end.

Inductive compiled :=
| Compiled (r : regex)
| Invalid
| NotModelled.

(** [new RegExp(src, 'g')]: [Invalid] when the constructor throws a
    [SyntaxError]. *)
Definition compile (src : jsstring) : compiled :=
  match parse_disjunction (2 * length src + 2) src with
  | Parsed r [] => Compiled r
  | Parsed _ (_ :: _) => Invalid
  | SyntaxErr => Invalid
  | Unsupported => NotModelled
  end.

(** *** [String.prototype.split] with a pattern

    The scan of [s.split(/r/)] for a pattern without capturing groups:
    [acc] holds the units since the end of the last separator, [s] the
    input from the position under test on.  A match that ends where the
    last separator ended splits nothing and the scan moves on by one
    unit; the scan never tests the position after the last unit. *)
Fixpoint split_from (r : regex) (n0 : nat) (fuel : nat) (acc s : jsstring)
  : list jsstring :=
  match fuel with
  | O => [acc ++ s]
  | S fuel' =>
      match s with
      | [] => [acc]
      | c :: s' =>
          match rmatch n0 r Some s with
          | Some e =>
              if (length e =? length s)%nat && bool_decide (acc = [])
              then split_from r n0 fuel' (acc ++ [c]) s'
              else acc :: split_from r n0 fuel' [] e
          | None => split_from r n0 fuel' (acc ++ [c]) s'
          end
      end
  end.

(** [s.split(/r/)]; on the empty string the result is [[]] when the
    pattern matches it and [[""]] when it does not. *)
Definition split (r : regex) (s : jsstring) : list jsstring :=
  match s with
  | [] =>
      match rmatch 0 r Some [] with
      | Some _ => []
      | None => [[]]
      end
  | _ :: _ => split_from r (length s) (2 * length s + 1) [] s
  end.

(** *** Captures

    What each capturing group matched, in the order of their opening
    parentheses; [None] for a group that took no part in the match. *)
Definition captures := list (option jsstring).

Definition ccont := captures -> jsstring -> option (captures * jsstring).

(** Forget the groups [g], ..., [g + n - 1]: a quantified part starts
    each iteration with its own groups undefined. *)
Definition clear (g n : nat) (caps : captures) : captures :=
  foldr (fun i caps => <[i := None]> caps) caps (seq g n).

Fixpoint citerate (step : ccont -> ccont) (k : ccont) (fuel : nat)
  (caps : captures) (s : jsstring) : option (captures * jsstring) :=
  match fuel with
  | O => k caps s
  | S fuel' =>
      match step (fun caps' s' => if (length s' <? length s)%nat
                                  then citerate step k fuel' caps' s'
                                  else None) caps s with
      | Some e => Some e
      | None => k caps s
      end
  end.

(** [cmatch n0 r g k caps s]: as [rmatch], recording what the groups of
    [r] match; [g] is the index of the first group of [r]. *)
Fixpoint cmatch (n0 : nat) (r : regex) (g : nat) (k : ccont)
  (caps : captures) (s : jsstring) : option (captures * jsstring) :=
  match r with
  | REmpty => k caps s
  | RChar c =>
      match s with
      | x :: s' => if x =? c then k caps s' else None
      | [] => None
      end
  | RSet p =>
      match s with
      | x :: s' => if p x then k caps s' else None
      | [] => None
      end
  | RBol => if (length s =? n0)%nat then k caps s else None
  | REol => match s with [] => k caps s | _ :: _ => None end
  | RSeq r1 r2 => cmatch n0 r1 g (cmatch n0 r2 (g + groups r1) k) caps s
  | RAlt r1 r2 =>
      match cmatch n0 r1 g k caps s with
      | Some e => Some e
      | None => cmatch n0 r2 (g + groups r1) k caps s
      end
  | RStar r1 =>
      citerate (fun k' caps' => cmatch n0 r1 g k' (clear g (groups r1) caps'))
        k (length s) caps s
  | RPlus r1 =>
      cmatch n0 r1 g
        (fun caps' s' =>
           citerate (fun k' caps'' =>
                       cmatch n0 r1 g k' (clear g (groups r1) caps''))
             k (length s') caps' s')
        (clear g (groups r1) caps) s
  | ROpt r1 =>
      match cmatch n0 r1 g
              (fun caps' s' => if (length s' <? length s)%nat
                               then k caps' s' else None)
              (clear g (groups r1) caps) s with
      | Some e => Some e
      | None => k caps s
      end
  | RGroup r1 =>
      cmatch n0 r1 (S g)
        (fun caps' s' =>
           k (<[g := Some (take (length s - length s') s)]> caps') s')
        caps s
  end.

(** A match as a replacement sees it. *)
Record match_result := {
  matched_text : jsstring;
  groups_text : captures;
  text_before : jsstring;
  text_after : jsstring
}.

(** The [n]th capture, counted from 1; the empty string when there is
    none. *)
Definition capture (m : match_result) (n : nat) : jsstring :=
  match n with
  | O => []
  | S i =>
      match groups_text m !! i with
      | Some (Some c) => c
      | _ => []
      end
  end.

(** A replacement: a callback, or a string read by [substitute]. *)
Definition replacer := match_result -> jsstring.

Definition digit_value (d : N) : nat := N.to_nat (d - 48).

(** [GetSubstitution]: a replacement string with its [$] patterns read
    against a match.  A two-digit reference above the number of groups is
    read as a one-digit reference and a digit; a reference to no group
    stands for itself. *)
Fixpoint substitute (rep : jsstring) (m : match_result) : jsstring :=
  match rep with
  | [] => []
  | 36 :: 36 :: rest => 36 :: substitute rest m
  | 36 :: 38 :: rest => matched_text m ++ substitute rest m
  | 36 :: 96 :: rest => text_before m ++ substitute rest m
  | 36 :: 39 :: rest => text_after m ++ substitute rest m
  | 36 :: ((d1 :: rest1) as rest) =>
      let count := length (groups_text m) in
      let one := digit_value d1 in
      if is_digit d1 then
        match rest1 with
        | d2 :: rest2 =>
            let two := (10 * one + digit_value d2)%nat in
            if is_digit d2 && (1 <=? two)%nat && (two <=? count)%nat
            then capture m two ++ substitute rest2 m
            else if (1 <=? one)%nat && (one <=? count)%nat
                 then capture m one ++ substitute rest1 m
                 else 36 :: substitute rest m
        | [] =>
            if (1 <=? one)%nat && (one <=? count)%nat
            then capture m one ++ substitute rest1 m
            else 36 :: substitute rest m
        end
      else 36 :: substitute rest m
  | c :: rest => c :: substitute rest m
  end.

(** The match of [r] at the position whose remaining input is [s]. *)
Definition exec_at (r : regex) (whole s : jsstring)
  : option (match_result * jsstring) :=
  match cmatch (length whole) r 0 (fun caps e => Some (caps, e))
          (replicate (groups r) None) s with
  | Some (caps, e) =>
      Some ({| matched_text := take (length s - length e) s;
               groups_text := caps;
               text_before := take (length whole - length s) whole;
               text_after := e |}, e)
  | None => None
  end.

(** The scan of a global replace, as [replace_from], with captures. *)
Fixpoint replace_with_from (r : regex) (f : replacer) (whole : jsstring)
  (fuel : nat) (s : jsstring) : jsstring :=
  match fuel with
  | O => s
  | S fuel' =>
      match exec_at r whole s with
      | Some (m, e) =>
          match (length s - length e)%nat, e with
          | O, c :: e' => f m ++ c :: replace_with_from r f whole fuel' e'
          | O, [] => f m
          | S _, _ => f m ++ replace_with_from r f whole fuel' e
          end
      | None =>
          match s with
          | [] => []
          | c :: s' => c :: replace_with_from r f whole fuel' s'
          end
      end
  end.

(** [s.replace(/r/g, f)] *)
Definition replace_all_with (r : regex) (f : replacer) (s : jsstring)
  : jsstring :=
  replace_with_from r f s (S (length s)) s.

(** The scan of a replace without the [g] flag: the first match only. *)
Fixpoint replace_first_from (r : regex) (f : replacer) (whole : jsstring)
  (s : jsstring) : jsstring :=
  match exec_at r whole s with
  | Some (m, e) => f m ++ e
  | None =>
      match s with
      | [] => []
      | c :: s' => c :: replace_first_from r f whole s'
      end
  end.

(** [s.replace(/r/, f)] *)
Definition replace_first_with (r : regex) (f : replacer) (s : jsstring)
  : jsstring :=
  replace_first_from r f s s.

End RegExp.

(** ** Text transforms *)

(** What is left of [s] after its longest prefix of units in [p]. *)
Fixpoint skip (p : N -> bool) (s : jsstring) : jsstring :=
  match s with
  | c :: s' => if p c then skip p s' else s
  | [] => []
  end.

(** [String.prototype.trim] *)
Definition trim (s : jsstring) : jsstring :=
  reverse (skip is_space (reverse (skip is_space s))).

(** Each maximal run of units in [p] becomes one copy of [rep]: what a
    global replace of [/p+/g] by a plain string computes. *)
Fixpoint collapse (p : N -> bool) (rep s : jsstring) : jsstring :=
  match s with
  | [] => []
  | x :: s' =>
      if p x then
        match s' with
        | y :: _ => if p y then collapse p rep s' else rep ++ collapse p rep s'
        | [] => rep
        end
      else x :: collapse p rep s'
  end.

(** Two neighbouring white-space units somewhere in [s]. *)
Fixpoint adjacent_spaces (s : jsstring) : bool :=
  match s with
  | a :: s' =>
      match s' with
      | b :: _ => (is_space a && is_space b) || adjacent_spaces s'
      | [] => false
      end
  | [] => false
  end.

(** The first and the last unit of [s], if any, are not white space. *)
Definition no_outer_space (s : jsstring) : Prop :=
  (forall c, head s = Some c -> is_space c = false)
  /\ (forall c, last s = Some c -> is_space c = false).

(** [/\s+/g] *)
Definition re_spaces : RegExp.regex := RegExp.RPlus (RegExp.RSet is_space).

(** [/[^a-zA-Z0-9]/g] *)
Definition re_not_alnum : RegExp.regex :=
  RegExp.RSet (fun c => negb (is_alnum c)).

(** [a === b] on strings *)
Definition str_eqb (a b : jsstring) : bool := bool_decide (a = b).

Section TextTransforms.
Context {cm : CaseMapping}.

Definition capitalize (str : value) : result jsstring :=
  let! str := validateString str "capitalize" in
  match str with
  | [] => Ok str
  | c :: rest => Ok (toUpperCase [c] ++ rest)
  end.

Definition trimExtraSpaces (str : value) : result jsstring :=
  let! str := validateString str "trimExtraSpaces" in
  Ok (trim (RegExp.replace_all re_spaces (RegExp.plain (lit " ")) str)).

Definition isPalindrome (str : value) (caseSensitive : option bool)
  : result bool :=
  let caseSensitive := default false caseSensitive in
  let! str := validateString str "isPalindrome" in
  let cleanStr := RegExp.replace_all re_not_alnum (RegExp.plain []) str in
  let processedStr :=
    if caseSensitive then cleanStr else toLowerCase cleanStr in
  Ok (str_eqb processedStr (reverse processedStr)).

(** [/[^\w\s]/g] and [/[^\w]/g] *)
Definition re_not_word_space : RegExp.regex :=
  RegExp.RSet (fun c => negb (is_word c || is_space c)).

Definition re_not_word : RegExp.regex :=
  RegExp.RSet (fun c => negb (is_word c)).

Definition removeSpecialChars (str : value) (allowSpaces : option bool)
  : result jsstring :=
  let allowSpaces := default true allowSpaces in
  let! str := validateString str "removeSpecialChars" in
  Ok (RegExp.replace_all
        (if allowSpaces then re_not_word_space else re_not_word)
        (RegExp.plain []) str).

Definition wordCount (str : value) : result nat :=
  let! str := validateString str "wordCount" in
  Ok (length (List.filter (fun word => (0 <? length word)%nat)
                (RegExp.split re_spaces (trim str)))).

End TextTransforms.

(** ** Case conversion *)

Inductive CaseType :=
| CAMEL
| PASCAL
| SNAKE
| KEBAB.

(** [.]: any unit but a line terminator. *)
Definition is_dot (c : N) : bool := negb (RegExp.is_line_terminator c).

(** [/[-_\s](.)/g] *)
Definition re_separator_then_char : RegExp.regex :=
  RegExp.RSeq (RegExp.RSet (fun c => (c =? 45) || (c =? 95) || is_space c))
    (RegExp.RGroup (RegExp.RSet is_dot)).

(** [/^(.)/] *)
Definition re_first_char : RegExp.regex :=
  RegExp.RSeq RegExp.RBol (RegExp.RGroup (RegExp.RSet is_dot)).

(** [/([A-Z])/g] *)
Definition re_upper_letter : RegExp.regex :=
  RegExp.RGroup (RegExp.RSet is_upper).

(** [/[-\s]+/g] and [/[_\s]+/g] *)
Definition re_hyphens_spaces : RegExp.regex :=
  RegExp.RPlus (RegExp.RSet (fun c => (c =? 45) || is_space c)).

Definition re_underscores_spaces : RegExp.regex :=
  RegExp.RPlus (RegExp.RSet (fun c => (c =? 95) || is_space c)).

(** [/^_/] and [/_+/g]; [/^-/] and [/-+/g] *)
Definition re_leading (c : N) : RegExp.regex :=
  RegExp.RSeq RegExp.RBol (RegExp.RChar c).

Definition re_run (c : N) : RegExp.regex :=
  RegExp.RPlus (RegExp.RChar c).

Section CaseConversion.
Context {cm : CaseMapping}.

(** [type] is [None] for a value that is none of the four case types.
    In the callbacks [char] is the first capture of [/[-_\s](.)/g], a
    group that takes part in every match, and the whole match of
    [/^(.)/]. *)
Definition convertCase (str : value) (type : option CaseType)
  : result jsstring :=
  let! str := validateString str "convertCase" in
  match type with
  | Some CAMEL =>
      Ok (RegExp.replace_first_with re_first_char
            (fun m => toLowerCase (RegExp.matched_text m))
            (RegExp.replace_all_with re_separator_then_char
               (fun m => toUpperCase (RegExp.capture m 1)) str))
  | Some PASCAL =>
      Ok (RegExp.replace_first_with re_first_char
            (fun m => toUpperCase (RegExp.matched_text m))
            (RegExp.replace_all_with re_separator_then_char
               (fun m => toUpperCase (RegExp.capture m 1)) str))
  | Some SNAKE =>
      let s := RegExp.replace_all_with re_upper_letter
                 (RegExp.substitute (lit "_$1")) str in
      let s := RegExp.replace_all re_hyphens_spaces
                 (RegExp.plain (lit "_")) s in
      let s := toLowerCase s in
      let s := RegExp.replace_first_with (re_leading 95)
                 (RegExp.substitute []) s in
      Ok (RegExp.replace_all (re_run 95) (RegExp.plain (lit "_")) s)
  | Some KEBAB =>
      let s := RegExp.replace_all_with re_upper_letter
                 (RegExp.substitute (lit "-$1")) str in
      let s := RegExp.replace_all re_underscores_spaces
                 (RegExp.plain (lit "-")) s in
      let s := toLowerCase s in
      let s := RegExp.replace_first_with (re_leading 45)
                 (RegExp.substitute []) s in
      Ok (RegExp.replace_all (re_run 45) (RegExp.plain (lit "-")) s)
  | None => Throw (mk_exn ValidationError "Invalid case type")
  end.

End CaseConversion.

(** ** Similarity *)

(** A table of numbers as [Array.from({length}, () => Array(n).fill(0))]
    builds it: one list per row.  Every access of [levenshteinDistance] is
    in range; out of range [mget] reads [0] and [mset] writes nothing. *)
Abbreviation matrix := (list (list nat)).

Definition mget (m : matrix) (i j : nat) : nat :=
  default 0%nat (m !! i ≫= (.!! j)).

Definition mset (m : matrix) (i j v : nat) : matrix :=
  alter (<[j := v]>) i m.

(** [for (let i = lo; i <= hi; i++) body] over a state. *)
Definition for_range {St} (lo hi : nat) (body : nat -> St -> St) (s : St) : St :=
  fold_left (fun s i => body i s) (seq lo (hi + 1 - lo)) s.

Definition min3 (x y z : nat) : nat := Nat.min (Nat.min x y) z.

(** [a[i] === b[j] ? 0 : 1] *)
Definition subst_cost (a b : jsstring) (i j : nat) : nat :=
  if bool_decide (a !! i = b !! j) then 0%nat else 1%nat.

Definition levenshteinDistance (a b : jsstring) : nat :=
  let la := length a in
  let lb := length b in
  let m := replicate (la + 1) (replicate (lb + 1) 0%nat) in
  let m := for_range 0 la (fun i m => mset m i 0 i) m in
  let m := for_range 0 lb (fun j m => mset m 0 j j) m in
  let m :=
    for_range 1 la (fun i m =>
      for_range 1 lb (fun j m =>
        mset m i j
          (min3 (mget m (i - 1) j + 1)
                (mget m i (j - 1) + 1)
                (mget m (i - 1) (j - 1) + subst_cost a b (i - 1) (j - 1)))) m) m in
  mget m la lb.

(** The edit distance between the first [i] units of [a] and the first [j]
    units of [b], by the recurrence the table is filled with. *)
Fixpoint lev_table (a b : jsstring) (i j : nat) {struct i} : nat :=
  match i with
  | O => j
  | S i' =>
      (fix row (j : nat) : nat :=
         match j with
         | O => S i'
         | S j' =>
             min3 (lev_table a b i' (S j') + 1)
                  (row j' + 1)
                  (lev_table a b i' j' + subst_cost a b i' j')
         end) j
  end.

(** JavaScript numbers are IEEE 754 doubles: the kernel's [float]. *)
Module Number.

Definition of_nat (n : nat) : float :=
  PrimFloat.of_uint63 (Uint63.of_Z (Z.of_nat n)).

Definition of_Z (z : Z) : float := PrimFloat.of_uint63 (Uint63.of_Z z).

(** What [x.toFixed(2)] writes: ["NaN"]; a numeral that reads back as [x]
    itself (["Infinity"], the exponent notation used from 1e21 on, and
    below that every [x] of magnitude 2^46 or more, whose neighbours are
    further from it than the 0.005 a two-decimal numeral can be off); or
    an optional sign and [n] hundredths written with two decimals. *)
Inductive numeral :=
| NumNaN
| NumSame (x : float)
| NumFixed (neg : bool) (n : Z).

(** The integer [n] for which [n / 100] is nearest to [m * 2^e], the
    larger one when two are as near. *)
Definition hundredths (m : positive) (e : Z) : Z :=
  if (0 <=? e)%Z then (Z.pos m * 2 ^ e * 100)%Z
  else ((2 * 100 * Z.pos m + 2 ^ (- e)) / 2 ^ (- e + 1))%Z.

Definition toFixed2 (x : float) : numeral :=
  match Prim2SF x with
  | S754_nan => NumNaN
  | S754_infinity _ => NumSame x
  | S754_zero _ => NumFixed false 0
  | S754_finite s m e =>
      if PrimFloat.leb (of_Z (2 ^ 46)) (PrimFloat.abs x)
      then NumSame x
      else NumFixed s (hundredths m e)
  end.

(** [Number(str)] of such a numeral: the double nearest to it. *)
Definition Number (d : numeral) : float :=
  match d with
  | NumNaN => PrimFloat.nan
  | NumSame x => x
  | NumFixed neg n =>
      let r := PrimFloat.div (of_Z n) (of_Z 100) in
      if neg then PrimFloat.opp r else r
  end.

End Number.

(** The number [similarity] returns for a distance [d] and a longer length
    [m]. *)
Definition score (d m : nat) : float :=
  PrimFloat.mul
    (Number.Number
       (Number.toFixed2
          (PrimFloat.sub 1 (PrimFloat.div (Number.of_nat d) (Number.of_nat m)))))
    100.

Definition in_percent_range (x : float) : bool :=
  PrimFloat.leb 0 x && PrimFloat.leb x 100.

Definition similarity (str1 str2 : value) : result float :=
  let! str1 := validateString str1 "similarity" in
  let! str2 := validateString str2 "similarity" in
  let distance := levenshteinDistance str1 str2 in
  let maxLength := Nat.max (length str1) (length str2) in
  Ok (PrimFloat.mul
        (Number.Number
           (Number.toFixed2
              (PrimFloat.sub 1 (PrimFloat.div (Number.of_nat distance)
                                              (Number.of_nat maxLength)))))
        100).

(** [x === y] on what two calls return: numbers are compared as doubles
    are, so [NaN] equals nothing, itself included. *)
Definition js_equal (x y : result float) : bool :=
  match x, y with
  | Ok a, Ok b => PrimFloat.eqb a b
  | _, _ => false
  end.

(** ** Random strings *)

(** The platform's [crypto.randomBytes]: called with a size, it supplies
    that many bytes or throws.  It is an input of the operations that draw
    from it. *)
Definition random_source := Z -> result (list N).

Record RandomStringOptions := {
  numbers : option bool;
  symbols : option bool;
  uppercase : option bool;
  lowercase : option bool
}.

Definition no_options : RandomStringOptions :=
  {| numbers := None; symbols := None; uppercase := None; lowercase := None |}.

(** The string [chars] that [randomString] assembles. *)
Definition alphabet (options : RandomStringOptions) : jsstring :=
  let numbers := default true (numbers options) in
  let symbols := default false (symbols options) in
  let uppercase := default true (uppercase options) in
  let lowercase := default true (lowercase options) in
  let chars := [] in
  let chars := if uppercase then chars ++ lit "ABCDEFGHIJKLMNOPQRSTUVWXYZ" else chars in
  let chars := if lowercase then chars ++ lit "abcdefghijklmnopqrstuvwxyz" else chars in
  let chars := if numbers then chars ++ lit "0123456789" else chars in
  let chars := if symbols then chars ++ lit "!@#$%^&*()_+-=[]{}|;:,.<>?" else chars in
  chars.

(** [chars[i]] inside [join('')]: a one-unit string, or nothing when [i] is
    out of range. *)
Definition char_at (chars : jsstring) (i : nat) : jsstring :=
  match chars !! i with
  | Some c => [c]
  | None => []
  end.

Definition randomString (randomBytes : random_source) (length : option Z)
  (options : option RandomStringOptions) : result jsstring :=
  let length := default 10%Z length in
  let options := default no_options options in
  if (length <? 1)%Z
  then Throw (mk_exn ValidationError "Length must be positive")
  else
    let chars := alphabet options in
    if (List.length chars =? 0)%nat
    then Throw (mk_exn ValidationError
                  "At least one character type must be selected")
    else
      try_catch
        (let! bytes := randomBytes length in
         Ok (concat (map (fun byte =>
                            char_at chars
                              (N.to_nat (byte mod N.of_nat (List.length chars))))
                         bytes)))
        CryptoError "Failed to generate random string".

(** What a caller can pass for [options]: nothing, [null], or an object.
    The default [{}] of the parameter stands in for [undefined] only; with
    [null] the length is checked and then the destructuring, which is
    outside the [try], throws a [TypeError]. *)
Inductive options_argument :=
| OptionsUndefined
| OptionsNull
| OptionsObject (o : RandomStringOptions).

Definition randomString_call (randomBytes : random_source) (length : option Z)
  (options : options_argument) : result jsstring :=
  match options with
  | OptionsUndefined => randomString randomBytes length None
  | OptionsObject o => randomString randomBytes length (Some o)
  | OptionsNull =>
      if (default 10%Z length <? 1)%Z
      then Throw (mk_exn ValidationError "Length must be positive")
      else Throw (mk_exn NativeError
                    "Cannot destructure property 'numbers' of 'options' as it is null.")
  end.

(** ** Buffers: UTF-8 and base64 *)

Module Buffer.

Definition is_high_surrogate (c : N) : bool := in_range 0xD800 0xDBFF c.
Definition is_low_surrogate (c : N) : bool := in_range 0xDC00 0xDFFF c.

Definition utf8_of_code_point (cp : N) : list N :=
  if cp <? 0x80 then [cp]
  else if cp <? 0x800 then [0xC0 + cp / 64; 0x80 + cp mod 64]
  else if cp <? 0x10000 then
    [0xE0 + cp / 4096; 0x80 + (cp / 64) mod 64; 0x80 + cp mod 64]
  else
    [0xF0 + cp / 262144; 0x80 + (cp / 4096) mod 64;
     0x80 + (cp / 64) mod 64; 0x80 + cp mod 64].

(** [Buffer.from(str)]: the UTF-8 bytes of the string; a surrogate with
    no partner is written as U+FFFD. *)
Fixpoint from_string (s : jsstring) : list N :=
  match s with
  | [] => []
  | c :: s' =>
      if is_high_surrogate c then
        match s' with
        | d :: s'' =>
            if is_low_surrogate d
            then utf8_of_code_point
                   (0x10000 + (c - 0xD800) * 1024 + (d - 0xDC00))
                 ++ from_string s''
            else [0xEF; 0xBF; 0xBD] ++ from_string s'
        | [] => [0xEF; 0xBF; 0xBD]
        end
      else if is_low_surrogate c then [0xEF; 0xBF; 0xBD] ++ from_string s'
      else utf8_of_code_point c ++ from_string s'
  end.

Definition is_continuation (b : N) : bool := in_range 0x80 0xBF b.

(** The range the second byte of a sequence may lie in, by lead byte. *)
Definition second_ok (lead b : N) : bool :=
  if lead =? 0xE0 then in_range 0xA0 0xBF b
  else if lead =? 0xED then in_range 0x80 0x9F b
  else if lead =? 0xF0 then in_range 0x90 0xBF b
  else if lead =? 0xF4 then in_range 0x80 0x8F b
  else is_continuation b.

Definition units_of_code_point (cp : N) : jsstring :=
  if cp <? 0x10000 then [cp]
  else [0xD800 + (cp - 0x10000) / 1024; 0xDC00 + (cp - 0x10000) mod 1024].

(** [buf.toString()]: UTF-8 decoding; each maximal ill-formed part reads
    as U+FFFD. *)
Fixpoint to_string (bs : list N) : jsstring :=
  match bs with
  | [] => []
  | b0 :: r0 =>
      if b0 <? 0x80 then b0 :: to_string r0
      else if in_range 0xC2 0xDF b0 then
        match r0 with
        | b1 :: r1 =>
            if is_continuation b1
            then ((b0 - 0xC0) * 64 + (b1 - 0x80)) :: to_string r1
            else 0xFFFD :: to_string r0
        | [] => [0xFFFD]
        end
      else if in_range 0xE0 0xEF b0 then
        match r0 with
        | b1 :: r1 =>
            if second_ok b0 b1 then
              match r1 with
              | b2 :: r2 =>
                  if is_continuation b2
                  then ((b0 - 0xE0) * 4096 + (b1 - 0x80) * 64 + (b2 - 0x80))
                       :: to_string r2
                  else 0xFFFD :: to_string r1
              | [] => [0xFFFD]
              end
            else 0xFFFD :: to_string r0
        | [] => [0xFFFD]
        end
      else if in_range 0xF0 0xF4 b0 then
        match r0 with
        | b1 :: r1 =>
            if second_ok b0 b1 then
              match r1 with
              | b2 :: r2 =>
                  if is_continuation b2 then
                    match r2 with
                    | b3 :: r3 =>
                        if is_continuation b3
                        then units_of_code_point
                               ((b0 - 0xF0) * 262144 + (b1 - 0x80) * 4096
                                + (b2 - 0x80) * 64 + (b3 - 0x80))
                             ++ to_string r3
                        else 0xFFFD :: to_string r2
                    | [] => [0xFFFD]
                    end
                  else 0xFFFD :: to_string r1
              | [] => [0xFFFD]
              end
            else 0xFFFD :: to_string r0
        | [] => [0xFFFD]
        end
      else 0xFFFD :: to_string r0
  end.

Definition base64_alphabet : jsstring :=
  lit "ABCDEFGHIJKLMNOPQRSTUVWXYZabcdefghijklmnopqrstuvwxyz0123456789+/".

Definition base64_char (v : N) : N := nth (N.to_nat v) base64_alphabet 0.

(** [buf.toString('base64')] *)
Fixpoint to_base64 (bs : list N) : jsstring :=
  match bs with
  | [] => []
  | [a] =>
      [base64_char (a / 4); base64_char ((a mod 4) * 16); 61; 61]
  | [a; b] =>
      [base64_char (a / 4); base64_char ((a mod 4) * 16 + b / 16);
       base64_char ((b mod 16) * 4); 61]
  | a :: b :: c :: rest =>
      base64_char (a / 4) :: base64_char ((a mod 4) * 16 + b / 16)
      :: base64_char ((b mod 16) * 4 + c / 64) :: base64_char (c mod 64)
      :: to_base64 rest
  end.

(** The value of a base64 character; the decoder also reads the URL-safe
    [-] and [_]. *)
Definition base64_value (c : N) : option N :=
  if is_upper c then Some (c - 65)
  else if is_lower c then Some (c - 97 + 26)
  else if is_digit c then Some (c - 48 + 52)
  else if (c =? 43) || (c =? 45) then Some 62
  else if (c =? 47) || (c =? 95) then Some 63
  else None.

(** The sextets before the first [=]; other characters are skipped. *)
Fixpoint sextets (s : jsstring) : list N :=
  match s with
  | [] => []
  | c :: s' =>
      if c =? 61 then []
      else match base64_value c with
           | Some v => v :: sextets s'
           | None => sextets s'
           end
  end.

Fixpoint bytes_of_sextets (vs : list N) : list N :=
  match vs with
  | a :: b :: c :: d :: rest =>
      (a * 4 + b / 16) :: ((b mod 16) * 16 + c / 4) :: ((c mod 4) * 64 + d)
      :: bytes_of_sextets rest
  | [a; b; c] => [a * 4 + b / 16; (b mod 16) * 16 + c / 4]
  | [a; b] => [a * 4 + b / 16]
  | _ => []
  end.

(** [Buffer.from(str, 'base64')]: lenient, it never throws. *)
Definition from_base64 (s : jsstring) : list N :=
  bytes_of_sextets (sextets s).

End Buffer.

(** [[A-Za-z0-9+/]] *)
Definition is_base64_char (c : N) : bool :=
  is_alnum c || (c =? 43) || (c =? 47).

(** [/^[A-Za-z0-9+/]*={0,2}$/]; [={0,2}] is written [=?=?]. *)
Definition re_base64 : RegExp.regex :=
  RegExp.RSeq RegExp.RBol
    (RegExp.RSeq (RegExp.RStar (RegExp.RSet is_base64_char))
       (RegExp.RSeq (RegExp.ROpt (RegExp.RChar 61))
          (RegExp.RSeq (RegExp.ROpt (RegExp.RChar 61)) RegExp.REol))).

(** Nothing, [=] or [==]. *)
Definition is_padding (r : jsstring) : bool :=
  match r with
  | [] => true
  | [c] => c =? 61
  | [c; d] => (c =? 61) && (d =? 61)
  | _ => false
  end.

(** Characters of the base64 alphabet, then at most two [=]: what
    [re_base64] accepts. *)
Definition base64_syntax (s : jsstring) : bool :=
  is_padding (skip is_base64_char s).

(** A string of UTF-16 code units in which every surrogate is half of a
    pair. *)
Fixpoint well_formed (s : jsstring) : bool :=
  match s with
  | [] => true
  | c :: s' =>
      if Buffer.is_high_surrogate c then
        match s' with
        | d :: s'' => Buffer.is_low_surrogate d && well_formed s''
        | [] => false
        end
      else negb (Buffer.is_low_surrogate c) && (c <? 0x10000) && well_formed s'
  end.

Definition base64Encode (str : value) : result jsstring :=
  let! str := validateString str "base64Encode" in
  try_catch (Ok (Buffer.to_base64 (Buffer.from_string str)))
    StringUtilError "Failed to encode string to base64".

Definition base64Decode (str : value) : result jsstring :=
  let! str := validateString str "base64Decode" in
  try_catch
    (if negb (RegExp.test re_base64 str)
     then Throw (mk_exn StringUtilError "Invalid base64 string")
     else Ok (Buffer.to_string (Buffer.from_base64 str)))
    StringUtilError "Invalid base64 string".

(** ** Key derivation

    [crypto.pbkdf2Sync(password, salt, iterations, keylen, 'sha512')]:
    PBKDF2 (RFC 8018) over HMAC (RFC 2104) over SHA-512 (FIPS 180-4), on
    the UTF-8 bytes of its string arguments. *)

Module Crypto.

Definition mask64 : N := 0xFFFFFFFFFFFFFFFF.

(** Reduction modulo [2^64]. *)
Definition w64 (x : N) : N := N.land x mask64.

Definition add64 (x y : N) : N := w64 (x + y).

Definition rotr (n x : N) : N :=
  N.lor (N.shiftr x n) (w64 (N.shiftl x (64 - n))).

Definition xor3 (x y z : N) : N := N.lxor (N.lxor x y) z.

(** [~x & z] on 64 bits *)
Definition andn (x z : N) : N := N.land (N.lxor x mask64) z.

Definition Ch (x y z : N) : N := N.lxor (N.land x y) (andn x z).
Definition Maj (x y z : N) : N :=
  xor3 (N.land x y) (N.land x z) (N.land y z).
Definition Sigma0 (x : N) : N := xor3 (rotr 28 x) (rotr 34 x) (rotr 39 x).
Definition Sigma1 (x : N) : N := xor3 (rotr 14 x) (rotr 18 x) (rotr 41 x).
Definition sigma0 (x : N) : N := xor3 (rotr 1 x) (rotr 8 x) (N.shiftr x 7).
Definition sigma1 (x : N) : N := xor3 (rotr 19 x) (rotr 61 x) (N.shiftr x 6).

Definition primes80 : list N :=
  [2; 3; 5; 7; 11; 13; 17; 19; 23; 29; 31; 37; 41; 43; 47; 53; 59; 61; 67;
   71; 73; 79; 83; 89; 97; 101; 103; 107; 109; 113; 127; 131; 137; 139;
   149; 151; 157; 163; 167; 173; 179; 181; 191; 193; 197; 199; 211; 223;
   227; 229; 233; 239; 241; 251; 257; 263; 269; 271; 277; 281; 283; 293;
   307; 311; 313; 317; 331; 337; 347; 349; 353; 359; 367; 373; 379; 383;
   389; 397; 401; 409].

(** The largest [r] below [2^bits] with [r^3 <= x], bit by bit. *)
Fixpoint cube_root (bits : nat) (x r : N) : N :=
  match bits with
  | O => r
  | S bits' =>
      let r' := r + 2 ^ N.of_nat bits' in
      cube_root bits' x (if r' * r' * r' <=? x then r' else r)
  end.

(** The first 64 bits of the fractional parts of the square roots of the
    first 8 primes, and of the cube roots of the first 80. *)
Definition H0 : list N :=
  Eval vm_compute in
    map (fun p => w64 (N.sqrt (p * 2 ^ 128))) (take 8 primes80).

Definition K : list N :=
  Eval vm_compute in
    map (fun p => w64 (cube_root 68 (p * 2 ^ 192) 0)) primes80.

Fixpoint be_word (bs : list N) (acc : N) : N :=
  match bs with
  | [] => acc
  | b :: bs' => be_word bs' (acc * 256 + b)
  end.

(** The [n] low bytes of [x], most significant first. *)
Fixpoint be_bytes (n : nat) (x : N) : list N :=
  match n with
  | O => []
  | S n' => be_bytes n' (x / 256) ++ [x mod 256]
  end.

(** Cut a list into pieces of [n + 1] elements. *)
Fixpoint chunks {A} (n : nat) (fuel : nat) (l : list A) : list (list A) :=
  match fuel, l with
  | S fuel', _ :: _ => take (S n) l :: chunks n fuel' (drop (S n) l)
  | _, _ => []
  end.

Definition pad (msg : list N) : list N :=
  let len := length msg in
  let zeros := ((128 - (len + 17) mod 128) mod 128)%nat in
  msg ++ [0x80] ++ replicate zeros 0 ++ be_bytes 16 (N.of_nat len * 8).

(** The message schedule: [w] holds the words so far, latest first. *)
Fixpoint schedule (n : nat) (w : list N) : list N :=
  match n with
  | O => w
  | S n' =>
      let x :=
        add64 (add64 (sigma1 (nth 1 w 0)) (nth 6 w 0))
              (add64 (sigma0 (nth 14 w 0)) (nth 15 w 0)) in
      schedule n' (x :: w)
  end.

Definition round (st : list N) (kw : N * N) : list N :=
  match st with
  | [a; b; c; d; e; f; g; h] =>
      let t1 :=
        add64 (add64 (add64 h (Sigma1 e)) (Ch e f g))
              (add64 (fst kw) (snd kw)) in
      let t2 := add64 (Sigma0 a) (Maj a b c) in
      [add64 t1 t2; a; b; c; add64 d t1; e; f; g]
  | _ => st
  end.

Definition compress (h : list N) (block : list N) : list N :=
  let w16 := map (fun bs => be_word bs 0) (chunks 7 16 block) in
  let w := rev (schedule 64 (rev w16)) in
  let st := fold_left round (combine K w) h in
  map (fun p => add64 (fst p) (snd p)) (combine h st).

Definition sha512 (msg : list N) : list N :=
  let p := pad msg in
  let h := fold_left compress (chunks 127 (length p) p) H0 in
  concat (map (be_bytes 8) h).

Definition block_size : nat := 128.

(** The key as HMAC uses it: hashed when longer than a block, then
    padded with zero bytes to a whole block. *)
Definition hmac_key (key : list N) : list N :=
  let key := if (block_size <? length key)%nat then sha512 key else key in
  key ++ replicate (block_size - length key) 0.

Definition hmac (key msg : list N) : list N :=
  let key := hmac_key key in
  let ipad := map (N.lxor 0x36) key in
  let opad := map (N.lxor 0x5c) key in
  sha512 (opad ++ sha512 (ipad ++ msg)).

Definition xor_bytes (x y : list N) : list N :=
  map (fun p => N.lxor (fst p) (snd p)) (combine x y).

(** [U_1 xor ... xor U_c], where [u] is [U_j] and [t] the sum so far. *)
Fixpoint pbkdf2_iter (pw : list N) (c : nat) (u t : list N) : list N :=
  match c with
  | O => t
  | S c' =>
      let u' := hmac pw u in
      pbkdf2_iter pw c' u' (xor_bytes t u')
  end.

Definition pbkdf2_block (pw salt : list N) (c : nat) (i : nat) : list N :=
  let u1 := hmac pw (salt ++ be_bytes 4 (N.of_nat i)) in
  pbkdf2_iter pw (c - 1) u1 u1.

Definition pbkdf2 (pw salt : list N) (c : nat) (dklen : nat) : list N :=
  take dklen
    (concat (map (pbkdf2_block pw salt c) (seq 1 ((dklen + 63) / 64)))).

Definition max_int32 : Z := 2 ^ 31 - 1.

(** The arguments are checked first: [iterations] in [1, 2^31 - 1] and
    [keylen] in [0, 2^31 - 1], or the call throws. *)
Definition pbkdf2Sync (password salt : jsstring) (iterations keylen : Z)
  : result (list N) :=
  if ((1 <=? iterations) && (iterations <=? max_int32)
      && (0 <=? keylen) && (keylen <=? max_int32))%Z
  then Ok (pbkdf2 (Buffer.from_string password) (Buffer.from_string salt)
             (Z.to_nat iterations) (Z.to_nat keylen))
  else Throw (mk_exn NativeError "ERR_OUT_OF_RANGE").

Definition hex_digit (v : N) : N := if v <? 10 then 48 + v else 87 + v.

(** [buf.toString('hex')] *)
Definition to_hex (bs : list N) : jsstring :=
  concat (map (fun b => [hex_digit (b / 16); hex_digit (b mod 16)]) bs).

End Crypto.

(** ** Digests

    [crypto.createHash(algorithm).update(str).digest('hex')] for the three
    algorithms of [HashType]: MD5 (RFC 1321) and SHA-256 (FIPS 180-4), next
    to the SHA-512 of the key derivation, on the UTF-8 bytes of the
    string. *)

Module Sha256.
Import Crypto.

Definition mask32 : N := 0xFFFFFFFF.

(** Reduction modulo [2^32]. *)
Definition w32 (x : N) : N := N.land x mask32.

Definition add32 (x y : N) : N := w32 (x + y).

Definition rotr (n x : N) : N :=
  N.lor (N.shiftr x n) (w32 (N.shiftl x (32 - n))).

(** [~x & z] on 32 bits *)
Definition andn (x z : N) : N := N.land (N.lxor x mask32) z.

Definition Ch (x y z : N) : N := N.lxor (N.land x y) (andn x z).
Definition Maj (x y z : N) : N :=
  xor3 (N.land x y) (N.land x z) (N.land y z).
Definition Sigma0 (x : N) : N := xor3 (rotr 2 x) (rotr 13 x) (rotr 22 x).
Definition Sigma1 (x : N) : N := xor3 (rotr 6 x) (rotr 11 x) (rotr 25 x).
Definition sigma0 (x : N) : N := xor3 (rotr 7 x) (rotr 18 x) (N.shiftr x 3).
Definition sigma1 (x : N) : N := xor3 (rotr 17 x) (rotr 19 x) (N.shiftr x 10).

(** The first 32 bits of the fractional parts of the square roots of the
    first 8 primes, and of the cube roots of the first 64. *)
Definition H0 : list N :=
  Eval vm_compute in
    map (fun p => w32 (N.sqrt (p * 2 ^ 64))) (take 8 primes80).

Definition K : list N :=
  Eval vm_compute in
    map (fun p => w32 (cube_root 36 (p * 2 ^ 96) 0)) (take 64 primes80).

Definition pad (msg : list N) : list N :=
  let len := length msg in
  let zeros := ((64 - (len + 9) mod 64) mod 64)%nat in
  msg ++ [0x80] ++ replicate zeros 0 ++ be_bytes 8 (N.of_nat len * 8).

(** The message schedule: [w] holds the words so far, latest first. *)
Fixpoint schedule (n : nat) (w : list N) : list N :=
  match n with
  | O => w
  | S n' =>
      let x :=
        add32 (add32 (sigma1 (nth 1 w 0)) (nth 6 w 0))
              (add32 (sigma0 (nth 14 w 0)) (nth 15 w 0)) in
      schedule n' (x :: w)
  end.

Definition round (st : list N) (kw : N * N) : list N :=
  match st with
  | [a; b; c; d; e; f; g; h] =>
      let t1 :=
        add32 (add32 (add32 h (Sigma1 e)) (Ch e f g))
              (add32 (fst kw) (snd kw)) in
      let t2 := add32 (Sigma0 a) (Maj a b c) in
      [add32 t1 t2; a; b; c; add32 d t1; e; f; g]
  | _ => st
  end.

Definition compress (h : list N) (block : list N) : list N :=
  let w16 := map (fun bs => be_word bs 0) (chunks 3 16 block) in
  let w := rev (schedule 48 (rev w16)) in
  let st := fold_left round (combine K w) h in
  map (fun p => add32 (fst p) (snd p)) (combine h st).

Definition sha256 (msg : list N) : list N :=
  let p := pad msg in
  let h := fold_left compress (chunks 63 (length p) p) H0 in
  concat (map (be_bytes 4) h).

End Sha256.

Module Md5.
Import Crypto.
Import Sha256.

Definition rotl (n x : N) : N :=
  N.lor (w32 (N.shiftl x n)) (N.shiftr x (32 - n)).

(** Words and lengths are read and written least significant byte
    first. *)
Fixpoint le_word (bs : list N) : N :=
  match bs with
  | [] => 0
  | b :: bs' => b + 256 * le_word bs'
  end.

Fixpoint le_bytes (n : nat) (x : N) : list N :=
  match n with
  | O => []
  | S n' => x mod 256 :: le_bytes n' (x / 256)
  end.

Definition shifts : list N :=
  [7; 12; 17; 22; 7; 12; 17; 22; 7; 12; 17; 22; 7; 12; 17; 22;
   5; 9; 14; 20; 5; 9; 14; 20; 5; 9; 14; 20; 5; 9; 14; 20;
   4; 11; 16; 23; 4; 11; 16; 23; 4; 11; 16; 23; 4; 11; 16; 23;
   6; 10; 15; 21; 6; 10; 15; 21; 6; 10; 15; 21; 6; 10; 15; 21].

(** [floor(2^32 * abs(sin(i + 1)))] for [i] from 0 to 63. *)
Definition K : list N :=
  [0xd76aa478; 0xe8c7b756; 0x242070db; 0xc1bdceee;
   0xf57c0faf; 0x4787c62a; 0xa8304613; 0xfd469501;
   0x698098d8; 0x8b44f7af; 0xffff5bb1; 0x895cd7be;
   0x6b901122; 0xfd987193; 0xa679438e; 0x49b40821;
   0xf61e2562; 0xc040b340; 0x265e5a51; 0xe9b6c7aa;
   0xd62f105d; 0x02441453; 0xd8a1e681; 0xe7d3fbc8;
   0x21e1cde6; 0xc33707d6; 0xf4d50d87; 0x455a14ed;
   0xa9e3e905; 0xfcefa3f8; 0x676f02d9; 0x8d2a4c8a;
   0xfffa3942; 0x8771f681; 0x6d9d6122; 0xfde5380c;
   0xa4beea44; 0x4bdecfa9; 0xf6bb4b60; 0xbebfbc70;
   0x289b7ec6; 0xeaa127fa; 0xd4ef3085; 0x04881d05;
   0xd9d4d039; 0xe6db99e5; 0x1fa27cf8; 0xc4ac5665;
   0xf4292244; 0x432aff97; 0xab9423a7; 0xfc93a039;
   0x655b59c3; 0x8f0ccc92; 0xffeff47d; 0x85845dd1;
   0x6fa87e4f; 0xfe2ce6e0; 0xa3014314; 0x4e0811a1;
   0xf7537e82; 0xbd3af235; 0x2ad7d2bb; 0xeb86d391].

Definition init : list N :=
  [0x67452301; 0xefcdab89; 0x98badcfe; 0x10325476].

Definition pad (msg : list N) : list N :=
  let len := length msg in
  let zeros := ((64 - (len + 9) mod 64) mod 64)%nat in
  msg ++ [0x80] ++ replicate zeros 0 ++ le_bytes 8 (N.of_nat len * 8).

(** Operation [i] on the state [[a; b; c; d]], with the words [m] of the
    block. *)
Definition step (m : list N) (st : list N) (i : nat) : list N :=
  match st with
  | [a; b; c; d] =>
      let f :=
        if (i <? 16)%nat then N.lor (N.land b c) (andn b d)
        else if (i <? 32)%nat then N.lor (N.land d b) (andn d c)
        else if (i <? 48)%nat then xor3 b c d
        else N.lxor c (N.lor b (N.lxor d mask32)) in
      let g :=
        if (i <? 16)%nat then i
        else if (i <? 32)%nat then ((5 * i + 1) mod 16)%nat
        else if (i <? 48)%nat then ((3 * i + 5) mod 16)%nat
        else ((7 * i) mod 16)%nat in
      let f := add32 (add32 f a) (add32 (nth i K 0) (nth g m 0)) in
      [d; add32 b (rotl (nth i shifts 0) f); b; c]
  | _ => st
  end.

Definition compress (h : list N) (block : list N) : list N :=
  let m := map le_word (chunks 3 16 block) in
  let st := fold_left (step m) (seq 0 64) h in
  map (fun p => add32 (fst p) (snd p)) (combine h st).

Definition md5 (msg : list N) : list N :=
  let p := pad msg in
  let h := fold_left compress (chunks 63 (length p) p) init in
  concat (map (le_bytes 4) h).

End Md5.

Inductive HashType :=
| MD5
| SHA256
| SHA512.

(** The value of the enumerator: the name [createHash] is called with. *)
Definition algorithm_name (algorithm : HashType) : string :=
  match algorithm with
  | MD5 => "md5"
  | SHA256 => "sha256"
  | SHA512 => "sha512"
  end.

(** [crypto.createHash(algorithm).update(str).digest()] *)
Definition createHash (algorithm : HashType) (str : jsstring) : list N :=
  let data := Buffer.from_string str in
  match algorithm with
  | MD5 => Md5.md5 data
  | SHA256 => Sha256.sha256 data
  | SHA512 => Crypto.sha512 data
  end.

Definition hash (str : value) (algorithm : HashType) : result jsstring :=
  let! str := validateString str "hash" in
  try_catch (Ok (Crypto.to_hex (createHash algorithm str)))
    CryptoError ("Failed to hash string using " ++ algorithm_name algorithm).

(** ** Salted hashes *)

(** [s.split(sep)] for a one-unit separator: never an empty array. *)
Fixpoint split_on (sep : N) (s : jsstring) : list jsstring :=
  match s with
  | [] => [[]]
  | c :: s' =>
      if c =? sep then [] :: split_on sep s'
      else match split_on sep s' with
           | h :: t => (c :: h) :: t
           | [] => [[c]]
           end
  end.

(** [parts.join(sep)] *)
Fixpoint join (sep : jsstring) (parts : list jsstring) : jsstring :=
  match parts with
  | [] => []
  | [p] => p
  | p :: rest => p ++ sep ++ join sep rest
  end.

Definition hashWithSalt (randomBytes : random_source) (str : value)
  (saltRounds : option Z) : result jsstring :=
  let saltRounds := default 10%Z saltRounds in
  let! str := validateString str "hashWithSalt" in
  try_catch
    (let! bytes := randomBytes 16%Z in
     let salt := Crypto.to_hex bytes in
     let! key := Crypto.pbkdf2Sync str salt saltRounds 64 in
     let hash := Crypto.to_hex key in
     Ok (salt ++ lit ":" ++ hash))
    CryptoError "Failed to hash string with salt".

Definition verifyHash (str hashedStr : value) : result bool :=
  let! str := validateString str "verifyHash" in
  let! hashedStr := validateString hashedStr "verifyHash" in
  try_catch
    (let parts := split_on 58 hashedStr in
     let salt := parts !! 0%nat in
     let originalHash := parts !! 1%nat in
     match salt with
     | None => Throw (mk_exn NativeError "ERR_INVALID_ARG_TYPE")
     | Some salt =>
         let! key := Crypto.pbkdf2Sync str salt 10 64 in
         let hash := Crypto.to_hex key in
         Ok (match originalHash with
             | Some originalHash => str_eqb hash originalHash
             | None => false
             end)
     end)
    CryptoError "Failed to verify hash".

(** ** Slugs *)

Module Slugify.

Record SlugifyOptions := {
  lowercase : option bool;
  separator : option jsstring;
  removeStopWords : option bool
}.

Definition no_options : SlugifyOptions :=
  {| lowercase := None; separator := None; removeStopWords := None |}.

Definition stopWords : list jsstring :=
  [lit "a"; lit "an"; lit "the"; lit "and"; lit "or"; lit "but"].

(** [/[^\w\s-]/g] *)
Definition re_special : RegExp.regex :=
  RegExp.RSet (fun c => negb (is_word c || is_space c || (c =? 45))).

Section WithCaseMapping.
Context {cm : CaseMapping}.

(** [None]: the separator makes a pattern or a replacement that the
    model of regular expressions does not cover. *)
Definition slugify (str : value) (options : option SlugifyOptions)
  : option (result jsstring) :=
  let options := default no_options options in
  let lowercase := default true (lowercase options) in
  let separator := default (lit "-") (separator options) in
  let removeStopWords := default false (removeStopWords options) in
  match validateString str "slugify" with
  | Throw e => Some (Throw e)
  | Ok str =>
      let result := str in
      let result := if lowercase then toLowerCase result else result in
      let result :=
        if removeStopWords
        then join (lit " ")
               (filter (fun word => toLowerCase word ∉ stopWords)
                  (split_on 32 result))
        else result in
      let result := RegExp.replace_all re_special (RegExp.plain []) result in
      t ← RegExp.compile_template 0 separator;
      let result := RegExp.replace_all re_spaces t result in
      match RegExp.compile (separator ++ lit "+") with
      | RegExp.NotModelled => None
      | RegExp.Invalid =>
          Some (Throw (mk_exn NativeError "Invalid regular expression"))
      | RegExp.Compiled multiple =>
          t ← RegExp.compile_template (RegExp.groups multiple) separator;
          let result := RegExp.replace_all multiple t result in
          match RegExp.compile
                  (lit "^" ++ separator ++ lit "|" ++ separator ++ lit "$") with
          | RegExp.NotModelled => None
          | RegExp.Invalid =>
              Some (Throw (mk_exn NativeError "Invalid regular expression"))
          | RegExp.Compiled edges =>
              Some (Ok (RegExp.replace_all edges (RegExp.plain []) result))
          end
      end
  end.

End WithCaseMapping.

End Slugify.

(** Options that only name a separator, and what a failed [new RegExp]
    throws. *)
Definition with_separator (sep : string) : option Slugify.SlugifyOptions :=
  Some {| Slugify.lowercase := None;
          Slugify.separator := Some (lit sep);
          Slugify.removeStopWords := None |}.

Definition invalid_pattern : result jsstring :=
  Throw (mk_exn NativeError "Invalid regular expression").

(** ** Notions used in the proofs *)

(** No two neighbouring white-space units, stated on factors. *)
Definition spaced (l : jsstring) : Prop :=
  forall l1 a b l2, l = l1 ++ a :: b :: l2 ->
    is_space a = true -> is_space b = true -> False.

(** Every white-space unit is U+0020. *)
Definition plain_spaces (l : jsstring) : Prop :=
  Forall (fun c => is_space c = true -> c = 32) l.

(** A table of [r] rows of [c] numbers. *)
Definition shape (r c : nat) (m : matrix) : Prop :=
  length m = r /\ Forall (fun row => length row = c) m.

(** The cells written before the inner loop reaches row [i0], column
    [j0]. *)
Definition filled (i0 j0 i j : nat) : Prop :=
  (i = 0 \/ j = 0 \/ i < i0 \/ (i = i0 /\ j < j0))%nat.

(** The loop invariant of [levenshteinDistance]: the cells written so far
    hold the recurrence. *)
Definition table_inv (a b : jsstring) (i0 j0 : nat) (m : matrix) : Prop :=
  shape (length a + 1) (length b + 1) m
  /\ forall i j, (i <= length a)%nat -> (j <= length b)%nat ->
                 filled i0 j0 i j -> mget m i j = lev_table a b i j.

(** What the inner loop writes at row [i], column [j]. *)
Definition cell (a b : jsstring) (m : matrix) (i j : nat) : nat :=
  min3 (mget m (i - 1) j + 1) (mget m i (j - 1) + 1)
       (mget m (i - 1) (j - 1) + subst_cost a b (i - 1) (j - 1)).

(** Whether a match was found. *)
Definition matched (o : option (list N)) : bool :=
  match o with Some _ => true | None => false end.

(** [=?=?$] *)
Definition re_padding : RegExp.regex :=
  RegExp.RSeq (RegExp.ROpt (RegExp.RChar 61))
    (RegExp.RSeq (RegExp.ROpt (RegExp.RChar 61)) RegExp.REol).

Definition is_byte (b : N) : Prop := b < 256.

(** A sextet is written as a character of the alphabet that reads back as
    the sextet. *)
Definition sextet_ok (v : N) : bool :=
  bool_decide (Buffer.base64_value (Buffer.base64_char v) = Some v)
  && negb (Buffer.base64_char v =? 61)
  && is_base64_char (Buffer.base64_char v).

(** A Unicode scalar value: a code point that is not a surrogate. *)
Definition is_scalar (cp : N) : Prop :=
  cp < 0x110000 /\ ~ (0xD800 <= cp <= 0xDFFF).

(** The exponent binary64 rounding gives a number of magnitude [2^e]. *)
Abbreviation fexp64 := (SpecFloat.fexp prec emax).

(** A mantissa [m] at exponent [e] that is worth at most 1. *)
Definition fits (m e : Z) : Prop := (0 <= m /\ e <= 0 /\ m <= 2 ^ (- e))%Z.

Definition inexact (r : shr_record) : bool := shr_r r || shr_s r.

(** [r'] is [r] shifted right by [k] bits: its mantissa is not above, and
    is below when bits were lost that [r] had not recorded as lost. *)
Definition shifted (k : Z) (r r' : shr_record) : Prop :=
  (0 <= shr_m r')%Z
  /\ (shr_m r' * 2 ^ k <= shr_m r)%Z
  /\ (inexact r' = true -> inexact r = true \/ (shr_m r' * 2 ^ k < shr_m r)%Z).

(** Positive zero, or a positive double that is at most 1. *)
Definition at_most_one (x : spec_float) : Prop :=
  x = S754_zero false
  \/ exists m e, x = S754_finite false m e /\ fits (Z.pos m) e.

(** [n] hundredths, read back and multiplied by 100, lie between 0 and
    100. *)
Definition percent_ok (n : Z) : bool :=
  in_percent_range
    (PrimFloat.mul (Number.Number (Number.NumFixed false n)) 100).

(** The units [removeSpecialChars] keeps: word characters, and white space
    when spaces are allowed. *)
Definition kept (allowSpaces : bool) (c : N) : bool :=
  is_word c || (allowSpaces && is_space c).

(** The number of maximal runs of units that are not white space;
    [in_word] tells whether the unit before [s] is part of such a run. *)
Fixpoint count_words (in_word : bool) (s : jsstring) : nat :=
  match s with
  | [] => 0
  | c :: s' =>
      if is_space c then count_words false s'
      else ((if in_word then 0 else 1) + count_words true s')%nat
  end.

(** [0-9a-f] *)
Definition is_hex_digit (c : N) : bool := is_digit c || in_range 97 102 c.

(** The number of hexadecimal digits of a digest. *)
Definition digest_length (algorithm : HashType) : nat :=
  match algorithm with
  | MD5 => 32
  | SHA256 => 64
  | SHA512 => 128
  end.

(** A UTF-16 code unit. *)
Definition is_code_unit (c : N) : Prop := c < 0x10000.

(** The string with every unpaired surrogate replaced by U+FFFD, as
    [String.prototype.toWellFormed] gives it. *)
Fixpoint toWellFormed (s : jsstring) : jsstring :=
  match s with
  | [] => []
  | c :: s' =>
      if Buffer.is_high_surrogate c then
        match s' with
        | d :: s'' =>
            if Buffer.is_low_surrogate d then c :: d :: toWellFormed s''
            else 0xFFFD :: toWellFormed s'
        | [] => [0xFFFD]
        end
      else if Buffer.is_low_surrogate c then 0xFFFD :: toWellFormed s'
      else c :: toWellFormed s'
  end.

(** What [validateString] throws for the operation [functionName] on a
    value that is not a string. *)
Definition invalid_input {A} (functionName : string) (v : value) : result A :=
  Throw (mk_exn ValidationError
           (functionName ++
            match v with
            | VOther => ": Input must be a string"
            | _ => ": Input cannot be null or undefined"
            end)).

(** Whatever [r] throws is an instance of [StringUtilError]. *)
Definition library_error {A} (r : result A) : Prop :=
  forall e, r = Throw e -> instance_of (exn_class e) StringUtilError = true.

(** Two neighbouring units of the class [p] somewhere in [s]. *)
Fixpoint adjacent (p : N -> bool) (s : jsstring) : bool :=
  match s with
  | a :: s' =>
      match s' with
      | b :: _ => (p a && p b) || adjacent p s'
      | [] => false
      end
  | [] => false
  end.

(** [[-_\s]]: what [convertCase] takes for the end of a word. *)
Definition is_case_separator (c : N) : bool :=
  (c =? 45) || (c =? 95) || is_space c.

(** The delimiter of the snake and kebab forms, and the character that is
    turned into it. *)
Definition delimiter (type : CaseType) : N :=
  match type with
  | KEBAB => 45
  | _ => 95
  end.

Definition other_delimiter (type : CaseType) : N :=
  match type with
  | KEBAB => 95
  | _ => 45
  end.

(** [s] without its first unit when that is [d]. *)
Definition drop_leading (d : N) (s : jsstring) : jsstring :=
  match s with
  | c :: s' => if c =? d then s' else s
  | [] => []
  end.

(** [d] put before every upper-case ASCII letter, the letter lower-cased. *)
Definition split_humps (d : N) (s : jsstring) : jsstring :=
  flat_map (fun c => if is_upper c then [d; ascii_lower c] else [c]) s.

(** A word with its first unit upper-cased, or lower-cased. *)
Definition upper_first {cm : CaseMapping} (w : jsstring) : jsstring :=
  match w with
  | [] => []
  | c :: rest => toUpperCase [c] ++ rest
  end.

Definition lower_first {cm : CaseMapping} (w : jsstring) : jsstring :=
  match w with
  | [] => []
  | c :: rest => toLowerCase [c] ++ rest
  end.

(** Words written one after the other, each but the first behind a
    separator. *)
Definition separated (first : jsstring) (rest : list (N * jsstring))
  : jsstring :=
  first ++ flat_map (fun p => fst p :: snd p) rest.

(** A non-empty word without separators. *)
Definition is_plain_word (w : jsstring) : bool :=
  negb (bool_decide (w = [])) && forallb (fun c => negb (is_case_separator c)) w.

(** [s] without its last unit when that is [d]. *)
Fixpoint strip_trailing (d : N) (s : jsstring) : jsstring :=
  match s with
  | [] => []
  | c :: s' =>
      match s' with
      | [] => if c =? d then [] else [c]
      | _ :: _ => c :: strip_trailing d s'
      end
  end.

(** What [slugify] makes, with the one-character separator [d], of the
    string that its first two steps leave: the special characters go, each
    run of white space and then each run of separators becomes one
    separator, and a separator at either end goes. *)
Definition slug_of (d : N) (s : jsstring) : jsstring :=
  strip_trailing d
    (drop_leading d
       (collapse (fun c => c =? d) [d]
          (collapse is_space [d]
             (List.filter (fun c => is_word c || is_space c || (c =? 45)) s)))).

(** The characters of a slug: word characters and hyphens. *)
Definition is_slug_char (c : N) : bool := is_word c || (c =? 45).

(** What [parse_terms] makes of a term [a] it has read, with the terms
    that follow it. *)
Definition and_then (a : RegExp.parsed RegExp.regex) (fuel : nat)
  : RegExp.parsed RegExp.regex :=
  match a with
  | RegExp.Parsed r rest =>
      match RegExp.parse_terms fuel rest with
      | RegExp.Parsed r' rest' => RegExp.Parsed (RegExp.RSeq r r') rest'
      | RegExp.SyntaxErr => RegExp.SyntaxErr
      | RegExp.Unsupported => RegExp.Unsupported
      end
  | RegExp.SyntaxErr => RegExp.SyntaxErr
  | RegExp.Unsupported => RegExp.Unsupported
  end.

(** A unit that upper-casing leaves alone: it is in no range and has no
    special upper case. *)
Definition upper_fixed (u : N) : bool :=
  match List.find (in_upper_range u) upper_ranges,
        List.find (fun p => fst p =? u) upper_special with
  | None, None => true
  | _, _ => false
  end.

(** Every target of a range, and the first unit of every special upper
    case, is left alone by upper-casing. *)
Definition upper_range_ok (r : N * N * N * N) : bool :=
  let '(first, last, step, target) := r in
  (0 <? step)
  && forallb (fun j => upper_fixed (target + step * j))
       (map N.of_nat (seq 0 (S (N.to_nat ((last - first) / step))))).

Definition upper_special_ok (p : N * jsstring) : bool :=
  match snd p with
  | u :: _ => upper_fixed u
  | [] => false
  end.

(** * Properties *)

(** ** The regular expressions of the text transforms *)

Section RegExpFacts.
Import RegExp.
Variable n0 : nat.
Variable p : N -> bool.

Lemma skip_length s : (length (skip p s) <= length s)%nat.
Proof. induction s as [|c s IH]; simpl; [lia|]. destruct (p c); simpl; lia. Qed.

(** Greedy iteration of a one-unit class takes the whole run, as soon as
    the continuation refuses to start inside the run. *)
Lemma iterate_set (k : cont) fuel s :
  (forall x s', p x = true -> k (x :: s') = None) ->
  (length s <= fuel)%nat ->
  iterate (rmatch n0 (RSet p)) k fuel s = k (skip p s).
Proof.
  intros Hk. revert s. induction fuel as [|fuel IH]; intros s Hlen.
  - destruct s; [reflexivity | simpl in Hlen; lia].
  - destruct s as [|x s]; [reflexivity|].
    simpl. destruct (p x) eqn:Hp; [|reflexivity].
    destruct (Nat.ltb_spec (length s) (S (length s))) as [_|?]; [|lia].
    rewrite IH by (simpl in Hlen; lia).
    destruct (k (skip p s)); [reflexivity|]. by apply Hk.
Qed.

Lemma iterate_set_all fuel s :
  (length s <= fuel)%nat ->
  iterate (rmatch n0 (RSet p)) Some fuel s = Some (skip p s).
Proof.
  revert s. induction fuel as [|fuel IH]; intros s Hlen.
  - destruct s; [reflexivity | simpl in Hlen; lia].
  - destruct s as [|x s]; [reflexivity|].
    simpl. destruct (p x) eqn:Hp; [|reflexivity].
    destruct (Nat.ltb_spec (length s) (S (length s))) as [_|?]; [|lia].
    rewrite IH by (simpl in Hlen; lia). reflexivity.
Qed.

End RegExpFacts.

Section ReplaceFacts.
Import RegExp.

(** Replacing the units of a class by nothing filters them out. *)
Lemma replace_from_set_empty p whole fuel s :
  (length s < fuel)%nat ->
  replace_from (RSet p) (plain []) whole fuel s
  = List.filter (fun c => negb (p c)) s.
Proof.
  revert s. induction fuel as [|fuel IH]; intros s Hlen; [lia|].
  destruct s as [|x s]; [reflexivity|].
  simpl. destruct (p x) eqn:Hp; simpl.
  - replace (S (length s) - length s)%nat with 1%nat by lia.
    apply IH. simpl in Hlen. lia.
  - f_equal. apply IH. simpl in Hlen. lia.
Qed.

Lemma replace_all_set_empty p s :
  replace_all (RSet p) (plain []) s = List.filter (fun c => negb (p c)) s.
Proof. apply replace_from_set_empty. lia. Qed.

Lemma expand_plain rep m b a : expand (plain rep) m b a = rep.
Proof.
  unfold expand, plain. rewrite map_map. induction rep as [|c rep IH]; simpl; congruence.
Qed.

Lemma collapse_run p rep x s :
  p x = true -> collapse p rep (x :: s) = rep ++ collapse p rep (skip p s).
Proof.
  revert x. induction s as [|y s IH]; intros x Hx.
  - simpl. rewrite Hx. by rewrite app_nil_r.
  - change (collapse p rep (x :: y :: s))
      with (if p x then if p y then collapse p rep (y :: s)
                        else rep ++ collapse p rep (y :: s)
            else x :: collapse p rep (y :: s)).
    rewrite Hx. simpl skip. destruct (p y) eqn:Hy; [by apply IH | reflexivity].
Qed.

Lemma rmatch_plus_set n0 p s :
  rmatch n0 (RPlus (RSet p)) Some s
  = match s with
    | x :: s' => if p x then Some (skip p s') else None
    | [] => None
    end.
Proof.
  destruct s as [|x s]; [reflexivity|].
  change (rmatch n0 (RPlus (RSet p)) Some (x :: s))
    with (if p x then iterate (rmatch n0 (RSet p)) Some (length s) s else None).
  destruct (p x); [|reflexivity]. by apply iterate_set_all.
Qed.

Lemma replace_from_plus_set p rep whole fuel s :
  (length s < fuel)%nat ->
  replace_from (RPlus (RSet p)) (plain rep) whole fuel s = collapse p rep s.
Proof.
  revert s. induction fuel as [|fuel IH]; intros s Hlen; [lia|].
  destruct s as [|x s]; [reflexivity|].
  cbn [replace_from]. rewrite rmatch_plus_set. destruct (p x) eqn:Hp.
  - rewrite collapse_run by done.
    pose proof (skip_length p s) as Hs. rewrite expand_plain.
    destruct (length (x :: s) - length (skip p s))%nat eqn:Hd;
      [simpl in Hd; lia|].
    f_equal. apply IH. simpl in Hlen. lia.
  - change (collapse p rep (x :: s)) with
      (if p x then match s with
                   | y :: _ => if p y then collapse p rep s else rep ++ collapse p rep s
                   | [] => rep end else x :: collapse p rep s).
    rewrite Hp. f_equal. apply IH. simpl in Hlen. lia.
Qed.

Lemma replace_all_plus_set p rep s :
  replace_all (RPlus (RSet p)) (plain rep) s = collapse p rep s.
Proof. apply replace_from_plus_set. lia. Qed.

End ReplaceFacts.

(** ** trimExtraSpaces *)

Section TrimFacts.

Lemma adjacent_spaces_cons a b l :
  adjacent_spaces (a :: b :: l)
  = (is_space a && is_space b) || adjacent_spaces (b :: l).
Proof. reflexivity. Qed.

Lemma spaced_tail a l : spaced (a :: l) -> spaced l.
Proof. intros H l1 x y l2 ->. apply (H (a :: l1) x y l2). reflexivity. Qed.

Lemma spaced_adjacent l : spaced l <-> adjacent_spaces l = false.
Proof.
  induction l as [|a l IH].
  - split; [reflexivity|]. intros _ [|??] ????; discriminate.
  - destruct l as [|b l].
    + split; [reflexivity|]. intros _ [|? [|??]] ????; discriminate.
    + rewrite adjacent_spaces_cons, orb_false_iff, <- IH. split.
      * intros H. split; [|by eapply spaced_tail].
        destruct (is_space a) eqn:Ha, (is_space b) eqn:Hb; try reflexivity.
        exfalso. by apply (H [] a b l).
      * intros [Hab Hl] [|x l1] u v l2 Heq Hu Hv.
        -- injection Heq as -> -> _. rewrite Hu, Hv in Hab. discriminate.
        -- injection Heq as -> Heq. by apply (Hl l1 u v l2).
Qed.

Lemma spaced_reverse l : spaced l -> spaced (reverse l).
Proof.
  intros H l1 a b l2 Heq Ha Hb.
  apply (f_equal reverse) in Heq. rewrite reverse_involutive in Heq.
  rewrite reverse_app, !reverse_cons, <- !app_assoc in Heq. simpl in Heq.
  by apply (H _ _ _ _ Heq).
Qed.

Lemma skip_suffix p l : skip p l `suffix_of` l.
Proof.
  induction l as [|c l IH]; simpl; [done|].
  destruct (p c); [by apply suffix_cons_r | done].
Qed.

Lemma spaced_suffix k l : k `suffix_of` l -> spaced l -> spaced k.
Proof.
  intros [pre ->] H l1 a b l2 ->. apply (H (pre ++ l1) a b l2).
  by rewrite <- app_assoc.
Qed.

Lemma plain_spaces_suffix k l : k `suffix_of` l -> plain_spaces l -> plain_spaces k.
Proof. intros [pre ->] H. by apply Forall_app in H as [_ ?]. Qed.

Lemma plain_spaces_reverse l : plain_spaces l -> plain_spaces (reverse l).
Proof. apply Forall_reverse. Qed.

Lemma skip_head p l c : head (skip p l) = Some c -> p c = false.
Proof.
  induction l as [|x l IH]; simpl; [discriminate|].
  destruct (p x) eqn:Hx; [done|]. simpl. congruence.
Qed.

Lemma skip_id p l : (forall c, head l = Some c -> p c = false) -> skip p l = l.
Proof. destruct l as [|x l]; [done|]. simpl. intros H. by rewrite (H x). Qed.

Lemma trim_no_outer_space l : no_outer_space (trim l).
Proof.
  unfold trim. split; intros c.
  - rewrite head_reverse. intros Hlast.
    assert (Hsuf : skip is_space (reverse (skip is_space l))
                     `suffix_of` reverse (skip is_space l)) by apply skip_suffix.
    destruct Hsuf as [pre Hpre].
    assert (last (reverse (skip is_space l)) = Some c) as Hc.
    { rewrite Hpre. rewrite last_app, Hlast. done. }
    rewrite last_reverse in Hc. by eapply skip_head.
  - rewrite last_reverse. apply skip_head.
Qed.

Lemma trim_id l : no_outer_space l -> trim l = l.
Proof.
  intros [Hh Hl]. unfold trim. rewrite (skip_id _ l) by done.
  rewrite skip_id; [apply reverse_involutive|].
  intros c. rewrite head_reverse. apply Hl.
Qed.

Lemma trim_spaced l : spaced l -> spaced (trim l).
Proof.
  intros H. unfold trim. apply spaced_reverse.
  eapply spaced_suffix; [apply skip_suffix|]. apply spaced_reverse.
  eapply spaced_suffix; [apply skip_suffix|]. done.
Qed.

Lemma trim_plain_spaces l : plain_spaces l -> plain_spaces (trim l).
Proof.
  intros H. unfold trim. apply plain_spaces_reverse.
  eapply plain_spaces_suffix; [apply skip_suffix|]. apply plain_spaces_reverse.
  eapply plain_spaces_suffix; [apply skip_suffix|]. done.
Qed.

Lemma collapse_cons_space x s :
  is_space x = true ->
  collapse is_space [32] (x :: s)
  = match s with
    | y :: _ => if is_space y then collapse is_space [32] s
                else 32 :: collapse is_space [32] s
    | [] => [32]
    end.
Proof. intros H. simpl. rewrite H. reflexivity. Qed.

Lemma collapse_cons_other x s :
  is_space x = false ->
  collapse is_space [32] (x :: s) = x :: collapse is_space [32] s.
Proof. intros H. simpl. rewrite H. reflexivity. Qed.

Lemma collapse_plain_spaces s : plain_spaces (collapse is_space [32] s).
Proof.
  induction s as [|x s IH]; [constructor|].
  destruct (is_space x) eqn:Hx.
  - rewrite collapse_cons_space by done. destruct s as [|y s].
    + by repeat constructor.
    + destruct (is_space y); [done|]. by constructor.
  - rewrite collapse_cons_other by done. constructor; [congruence | done].
Qed.

Lemma collapse_adjacent s : adjacent_spaces (collapse is_space [32] s) = false.
Proof.
  induction s as [|x s IH]; [reflexivity|].
  destruct (is_space x) eqn:Hx.
  - rewrite collapse_cons_space by done. destruct s as [|y s]; [reflexivity|].
    destruct (is_space y) eqn:Hy; [done|].
    rewrite collapse_cons_other in * by done.
    rewrite adjacent_spaces_cons, Hy, andb_false_r. done.
  - rewrite collapse_cons_other by done.
    destruct (collapse is_space [32] s) as [|b l]; [reflexivity|].
    rewrite adjacent_spaces_cons, Hx. done.
Qed.

(** A string in normal form is left alone. *)
Lemma collapse_id l :
  adjacent_spaces l = false -> plain_spaces l -> collapse is_space [32] l = l.
Proof.
  induction l as [|x l IH]; [reflexivity|]. intros Hadj Hpl.
  apply Forall_cons in Hpl as [Hx Hpl].
  assert (adjacent_spaces l = false) as Hl.
  { destruct l as [|b l]; [reflexivity|].
    rewrite adjacent_spaces_cons in Hadj. by apply orb_false_iff in Hadj as [_ ?]. }
  destruct (is_space x) eqn:Hsx.
  - rewrite collapse_cons_space by done. rewrite (Hx eq_refl) in *.
    destruct l as [|y l]; [reflexivity|].
    rewrite adjacent_spaces_cons, Hsx in Hadj. simpl in Hadj.
    apply orb_false_iff in Hadj as [Hy _]. rewrite Hy. f_equal. by apply IH.
  - rewrite collapse_cons_other by done. f_equal. by apply IH.
Qed.

End TrimFacts.

Lemma trimExtraSpaces_eq s :
  trimExtraSpaces (VString s) = Ok (trim (collapse is_space [32] s)).
Proof.
  unfold trimExtraSpaces, re_spaces. cbn [validateString bind].
  change (lit " ") with [32]. by rewrite replace_all_plus_set.
Qed.

(** C8: [trimExtraSpaces] is idempotent, and its result has no two
    neighbouring white-space characters and neither begins nor ends with
    white space. *)
Theorem trimExtraSpaces_normal_form (s : jsstring) :
  exists t,
    trimExtraSpaces (VString s) = Ok t
    /\ trimExtraSpaces (VString t) = Ok t
    /\ adjacent_spaces t = false
    /\ no_outer_space t.
Proof.
  exists (trim (collapse is_space [32] s)).
  assert (spaced (trim (collapse is_space [32] s))) as Hsp.
  { apply trim_spaced, spaced_adjacent, collapse_adjacent. }
  assert (plain_spaces (trim (collapse is_space [32] s))) as Hpl.
  { apply trim_plain_spaces, collapse_plain_spaces. }
  pose proof (trim_no_outer_space (collapse is_space [32] s)) as Hout.
  apply spaced_adjacent in Hsp.
  repeat split; try apply Hout; try done.
  - apply trimExtraSpaces_eq.
  - rewrite trimExtraSpaces_eq, collapse_id, trim_id by done. done.
Qed.

(** ** Case mappings *)

Lemma latin_lower_ascii : lower_ascii_law latin_case.
Proof.
  intros s Hs. simpl. apply map_ext_in. intros c Hc.
  rewrite forallb_forall in Hs. specialize (Hs c Hc).
  unfold is_ascii in Hs. apply N.ltb_lt in Hs.
  unfold latin_lower1, in_range.
  destruct (N.leb_spec 0xC0 c); [lia|]. reflexivity.
Qed.

(** The table's upper cases start with a unit that upper-casing leaves
    alone. *)
Lemma upper_tables_ok :
  forallb upper_range_ok upper_ranges = true
  /\ forallb upper_special_ok upper_special = true.
Proof. split; vm_compute; reflexivity. Qed.

Lemma upper_fixed_spec (u : N) : upper_fixed u = true -> unicode_upper u = [u].
Proof.
  unfold upper_fixed, unicode_upper.
  destruct (List.find (in_upper_range u) upper_ranges); [discriminate|].
  destruct (List.find (fun p => fst p =? u) upper_special); [discriminate|].
  reflexivity.
Qed.

Lemma unicode_upper_head (c : N) :
  exists u r, unicode_upper c = u :: r /\ unicode_upper u = [u].
Proof.
  destruct upper_tables_ok as [Hranges Hspecial].
  unfold unicode_upper at 1.
  destruct (List.find (in_upper_range c) upper_ranges)
    as [[[[first last] step] target]|] eqn:Hfind.
  - apply List.find_some in Hfind as [Hin Hc].
    rewrite forallb_forall in Hranges. specialize (Hranges _ Hin).
    unfold upper_range_ok in Hranges. unfold in_upper_range in Hc.
    apply andb_prop in Hranges as [Hstep Hall].
    apply andb_prop in Hc as [Hc Hmod]. apply andb_prop in Hc as [Hlo Hhi].
    apply N.ltb_lt in Hstep. apply N.leb_le in Hlo, Hhi. apply N.eqb_eq in Hmod.
    exists (target + (c - first)), []. split; [reflexivity|].
    apply upper_fixed_spec.
    rewrite forallb_forall in Hall.
    assert (Hdiv : c - first = step * ((c - first) / step)).
    { rewrite (N.div_mod (c - first) step) at 1 by lia. lia. }
    rewrite Hdiv. apply Hall.
    apply in_map_iff. exists (N.to_nat ((c - first) / step)).
    split; [apply N2Nat.id|]. apply in_seq.
    assert ((c - first) / step <= (last - first) / step)
      by (apply N.Div0.div_le_mono; lia).
    lia.
  - destruct (List.find (fun p => fst p =? c) upper_special) as [[c' upper]|] eqn:Hfind2.
    + apply List.find_some in Hfind2 as [Hin _].
      rewrite forallb_forall in Hspecial. specialize (Hspecial _ Hin).
      unfold upper_special_ok in Hspecial. cbn [snd] in Hspecial.
      destruct upper as [|u r]; [discriminate|].
      exists u, r. split; [reflexivity|]. by apply upper_fixed_spec.
    + exists c, []. split; [reflexivity|].
      unfold unicode_upper. by rewrite Hfind, Hfind2.
Qed.

(** Units of the table: a letter of a range, one whose upper case leaves
    Latin-1, one with an upper case of two units, and units left alone. *)
Example unicode_upper_samples :
  unicode_upper 0x61 = [0x41]
  /\ unicode_upper 0xFF = [0x178]
  /\ unicode_upper 0xB5 = [0x39C]
  /\ unicode_upper 0xDF = [0x53; 0x53]
  /\ unicode_upper 0x149 = [0x2BC; 0x4E]
  /\ unicode_upper 0x101 = [0x100]
  /\ unicode_upper 0x100 = [0x100]
  /\ unicode_upper 0x31 = [0x31]
  /\ unicode_upper 0xD83D = [0xD83D].
Proof. repeat split; vm_compute; reflexivity. Qed.

Lemma upper_unicode_head (cm : CaseMapping) :
  upper_unicode_law cm -> upper_head_law cm.
Proof.
  intros Hup c. destruct (unicode_upper_head c) as (u & r & Hc & Hu).
  exists u, r. by rewrite !Hup.
Qed.

Lemma latin_upper_unicode : upper_unicode_law latin_case.
Proof. intros c. cbn [toUpperCase latin_case map concat]. apply app_nil_r. Qed.

(** ** capitalize *)

(** C7: for a non-empty input [capitalize] upper-cases the first code unit,
    by the Unicode table, and returns the remainder untouched; it is
    idempotent, because the first unit of every upper case in the table is
    its own upper case; the empty string is returned unchanged. *)
Theorem capitalize_first_only (cm : CaseMapping) (Hup : upper_unicode_law cm)
  (s : jsstring) :
  capitalize (VString []) = Ok []
  /\ (s <> [] ->
      capitalize (VString s) = Ok (toUpperCase (take 1 s) ++ drop 1 s))
  /\ (forall t, capitalize (VString s) = Ok t -> capitalize (VString t) = Ok t)
  /\ (forall c rest, s = c :: rest ->
      capitalize (VString s) = Ok (unicode_upper c ++ rest)).
Proof.
  split; [reflexivity|]. split; [|split].
  - destruct s as [|c rest]; [done|]. intros _. reflexivity.
  - intros t. destruct s as [|c rest]; simpl.
    + intros [= <-]. reflexivity.
    + intros [= <-]. destruct (upper_unicode_head cm Hup c) as (u & r & Hc & Hu).
      rewrite Hc. cbn [app]. unfold capitalize. cbn [validateString bind]. rewrite Hu. reflexivity.
  - intros c rest ->. unfold capitalize. cbn [validateString bind]. by rewrite Hup.
Qed.

Lemma capitalize_first_only_witness :
  capitalize (cm := latin_case) (VString [0xDF; 101]) = Ok [83; 83; 101]
  /\ capitalize (cm := latin_case) (VString [83; 83; 101]) = Ok [83; 83; 101].
Proof.
  destruct (capitalize_first_only latin_case latin_upper_unicode [0xDF; 101])
    as (_ & _ & Hidem & Hfirst).
  pose proof (Hfirst 0xDF [101] eq_refl) as H.
  split; [exact H | exact (Hidem _ H)].
Defined.

(** ** isPalindrome *)

Lemma list_filter_reverse (f : N -> bool) (l : jsstring) :
  List.filter f (reverse l) = reverse (List.filter f l).
Proof.
  induction l as [|x l IH]; [reflexivity|].
  rewrite reverse_cons, List.filter_app, IH. simpl.
  destruct (f x); [by rewrite reverse_cons | by rewrite app_nil_r].
Qed.

Lemma map_reverse (f : N -> N) (l : jsstring) :
  map f (reverse l) = reverse (map f l).
Proof. apply (fmap_reverse f). Qed.

Lemma str_eqb_reverse (l : jsstring) :
  str_eqb (reverse l) (reverse (reverse l)) = str_eqb l (reverse l).
Proof.
  unfold str_eqb. rewrite reverse_involutive. apply bool_decide_ext. split; congruence.
Qed.

Lemma alnum_is_ascii (l : jsstring) :
  forallb is_ascii (List.filter (fun c => negb (negb (is_alnum c))) l) = true.
Proof.
  apply forallb_forall. intros c Hc. apply List.filter_In in Hc as [_ Hc].
  rewrite negb_involutive in Hc.
  unfold is_alnum, is_lower, is_upper, is_digit, in_range, is_ascii in *.
  apply N.ltb_lt.
  repeat (apply orb_prop in Hc as [Hc|Hc]);
    apply andb_prop in Hc as [_ Hc]; apply N.leb_le in Hc; lia.
Qed.

(** C10: [isPalindrome] gives the same answer on a string and on its
    reversal, whatever the [caseSensitive] flag. *)
Theorem isPalindrome_reverse (cm : CaseMapping) (Hlow : lower_ascii_law cm)
  (s : jsstring) (caseSensitive : option bool) :
  isPalindrome (VString (reverse s)) caseSensitive
  = isPalindrome (VString s) caseSensitive.
Proof.
  unfold isPalindrome, re_not_alnum. cbn [validateString bind].
  rewrite !replace_all_set_empty, list_filter_reverse.
  destruct (default false caseSensitive).
  - by rewrite str_eqb_reverse.
  - rewrite !Hlow by (rewrite <- ?list_filter_reverse; apply alnum_is_ascii).
    rewrite map_reverse. by rewrite str_eqb_reverse.
Qed.

Lemma isPalindrome_reverse_witness :
  isPalindrome (cm := latin_case) (VString (reverse (lit "Never odd, or even"))) None
  = isPalindrome (cm := latin_case) (VString (lit "Never odd, or even")) None.
Proof.
  exact (isPalindrome_reverse latin_case latin_lower_ascii
           (lit "Never odd, or even") None).
Defined.

(** ** randomString *)

Section RandomString.
Variable randomBytes : random_source.

Lemma char_at_in_range (chars : jsstring) (byte : N) :
  chars <> [] ->
  exists c, char_at chars (N.to_nat (byte mod N.of_nat (length chars))) = [c]
            /\ c ∈ chars.
Proof.
  intros Hne. unfold char_at.
  assert (N.to_nat (byte mod N.of_nat (length chars)) < length chars)%nat as Hlt.
  { destruct chars; [done|].
    pose proof (N.mod_upper_bound byte (N.of_nat (length (n :: chars)))) as Hb.
    simpl length in *. lia. }
  apply lookup_lt_is_Some_2 in Hlt as [c Hc]. rewrite Hc.
  exists c. split; [done|]. by eapply list_elem_of_lookup_2.
Qed.

Lemma draw_length (chars : jsstring) (bytes : list N) :
  chars <> [] ->
  let s := concat (map (fun byte =>
             char_at chars (N.to_nat (byte mod N.of_nat (length chars)))) bytes) in
  length s = length bytes /\ Forall (fun c => c ∈ chars) s.
Proof.
  intros Hne. induction bytes as [|b bytes [IHl IHf]]; simpl; [by split|].
  destruct (char_at_in_range chars b Hne) as (c & -> & Hc). simpl.
  split; [by f_equal | by constructor].
Qed.

(** The alphabet is the enabled classes in the order uppercase,
    lowercase, numbers, symbols. *)
Lemma alphabet_order (o : RandomStringOptions) :
  alphabet o
  = (if default true (uppercase o) then lit "ABCDEFGHIJKLMNOPQRSTUVWXYZ" else [])
    ++ (if default true (lowercase o) then lit "abcdefghijklmnopqrstuvwxyz" else [])
    ++ (if default true (numbers o) then lit "0123456789" else [])
    ++ (if default false (symbols o) then lit "!@#$%^&*()_+-=[]{}|;:,.<>?" else []).
Proof.
  unfold alphabet.
  destruct (default true (uppercase o)), (default true (lowercase o)),
    (default true (numbers o)), (default false (symbols o)); reflexivity.
Qed.

Lemma alphabet_empty (o : RandomStringOptions) :
  alphabet o = []
  <-> default true (uppercase o) = false /\ default true (lowercase o) = false
      /\ default true (numbers o) = false /\ default false (symbols o) = false.
Proof.
  rewrite alphabet_order.
  destruct (default true (uppercase o)), (default true (lowercase o)),
    (default true (numbers o)), (default false (symbols o));
    split; try discriminate; try done; intros (?&?&?&?); discriminate.
Qed.

End RandomString.

(** C6: for a length [n >= 1], and whatever bytes the platform source
    supplies, [randomString] returns exactly [n] characters of the alphabet
    assembled from the enabled classes in the order uppercase, lowercase,
    numbers, symbols; it fails with a Validation error when [n < 1], and
    when every class flag resolves to false. *)
Theorem randomString_contract (randomBytes : random_source) (n : Z)
  (options : option RandomStringOptions) :
  let o := default no_options options in
  let classes :=
    (if default true (uppercase o) then lit "ABCDEFGHIJKLMNOPQRSTUVWXYZ" else [])
    ++ (if default true (lowercase o) then lit "abcdefghijklmnopqrstuvwxyz" else [])
    ++ (if default true (numbers o) then lit "0123456789" else [])
    ++ (if default false (symbols o) then lit "!@#$%^&*()_+-=[]{}|;:,.<>?" else []) in
  (forall bytes,
     (1 <= n)%Z -> classes <> [] ->
     randomBytes n = Ok bytes -> Z.of_nat (length bytes) = n ->
     exists s, randomString randomBytes (Some n) options = Ok s
               /\ Z.of_nat (length s) = n
               /\ Forall (fun c => c ∈ classes) s)
  /\ ((n < 1)%Z ->
      throws (randomString randomBytes (Some n) options) ValidationError)
  /\ (default true (uppercase o) = false /\ default true (lowercase o) = false
      /\ default true (numbers o) = false /\ default false (symbols o) = false ->
      throws (randomString randomBytes (Some n) options) ValidationError)
  /\ throws (randomString randomBytes (Some 0%Z) options) ValidationError.
Proof.
  intros o classes. subst classes. rewrite <- alphabet_order.
  unfold throws, randomString. change (default 10%Z (Some n)) with n. fold o.
  split; [|split; [|split]].
  - intros bytes Hn Hne Hsource Hsize.
    destruct (Z.ltb_spec n 1) as [?|_]; [lia|].
    destruct (Nat.eqb_spec (length (alphabet o)) 0) as [Hz|_].
    { destruct (alphabet o); [done | discriminate]. }
    rewrite Hsource. cbn [bind try_catch].
    destruct (draw_length (alphabet o) bytes Hne) as [Hl Hf].
    eexists. split; [reflexivity|]. split; [|exact Hf]. by rewrite Hl.
  - intros Hn. destruct (Z.ltb_spec n 1) as [_|?]; [|lia]. by eexists.
  - intros Hflags. apply alphabet_empty in Hflags. rewrite Hflags.
    destruct (n <? 1)%Z; by eexists.
  - by eexists.
Qed.

Lemma randomString_contract_witness :
  exists s, randomString (fun _ => Ok [200; 7; 255]) (Some 3%Z) None = Ok s
            /\ Z.of_nat (length s) = 3%Z
            /\ Forall (fun c => c ∈ alphabet no_options) s.
Proof.
  refine (proj1 (randomString_contract (fun _ => Ok [200; 7; 255]) 3 None)
            [200; 7; 255] _ _ eq_refl eq_refl); [lia | discriminate].
Defined.

Section EditDistance.
Local Open Scope nat_scope.

(** ** levenshteinDistance *)

Section Loops.
Context {St : Type}.

  (** A loop invariant indexed by the loop counter. *)
Lemma for_range_inv (P : nat -> St -> Prop) lo hi body s :
lo <= hi + 1 ->
P lo s ->
(forall i s, lo <= i <= hi -> P i s -> P (S i) (body i s)) ->
P (hi + 1) (for_range lo hi body s).
  Proof.
unfold for_range. intros Hle H0 Hstep.
remember (hi + 1 - lo) as n eqn:Hn.
replace (hi + 1) with (lo + n) by lia.
assert (lo + n <= hi + 1) as Hb by lia. clear Hn Hle.
revert lo s H0 Hstep Hb. induction n as [|n IH]; intros lo s H0 Hstep Hb.
- simpl. by rewrite Nat.add_0_r.
- simpl. replace (lo + S n) with (S lo + n) by lia. apply IH.
  + apply Hstep; [lia | done].
  + intros i s' Hi. apply Hstep. lia.
  + lia.
  Qed.
End Loops.

Section Matrix.

Lemma shape_replicate r c : shape r c (replicate r (replicate c 0)).
  Proof.
split; [apply length_replicate|].
apply Forall_replicate. apply length_replicate.
  Qed.

Lemma shape_mset r c m i j v : shape r c m -> shape r c (mset m i j v).
  Proof.
intros [Hr Hc]. unfold mset. split; [by rewrite length_alter|].
apply Forall_alter; [done|]. intros row _ Hrow.
by rewrite length_insert.
  Qed.

Lemma mget_mset_eq r c m i j v :
shape r c m -> i < r -> j < c -> mget (mset m i j v) i j = v.
  Proof.
intros [Hr Hc] Hi Hj. unfold mget, mset.
rewrite list_lookup_alter_eq.
destruct (lookup_lt_is_Some_2 m i) as [row Hrow]; [lia|].
rewrite Hrow. simpl.
rewrite Forall_lookup in Hc. specialize (Hc _ _ Hrow).
rewrite list_lookup_insert_eq by lia. done.
  Qed.

Lemma mget_mset_ne m i j v i' j' :
(i, j) <> (i', j') -> mget (mset m i j v) i' j' = mget m i' j'.
  Proof.
intros Hne. unfold mget, mset.
destruct (decide (i = i')) as [<-|Hi].
- rewrite list_lookup_alter_eq. destruct (m !! i) as [row|]; [|done]. simpl.
  rewrite list_lookup_insert_ne; [done | congruence].
- by rewrite list_lookup_alter_ne.
  Qed.

End Matrix.

Section Levenshtein.
Variables a b : jsstring.

Lemma lev_table_0_l j : lev_table a b 0 j = j.
  Proof. reflexivity. Qed.

Lemma lev_table_0_r i : lev_table a b i 0 = i.
  Proof. destruct i; reflexivity. Qed.

Lemma lev_table_S i j :
lev_table a b (S i) (S j)
= min3 (lev_table a b i (S j) + 1) (lev_table a b (S i) j + 1)
       (lev_table a b i j + subst_cost a b i j).
  Proof. reflexivity. Qed.

Let la := length a.
Let lb := length b.

Lemma first_column :
let m := for_range 0 la (fun i m => mset m i 0 i)
           (replicate (la + 1) (replicate (lb + 1) 0)) in
shape (la + 1) (lb + 1) m /\ forall i, i <= la -> mget m i 0 = i.
  Proof.
intros m.
assert (shape (la + 1) (lb + 1) m /\ forall i, i < la + 1 -> mget m i 0 = i)
  as [Hs Hm].
{ subst m.
  apply (for_range_inv
           (fun k m => shape (la + 1) (lb + 1) m
                       /\ forall i, i < k -> mget m i 0 = i)).
  - lia.
  - split; [apply shape_replicate | intros; lia].
  - intros i m [_ Hi] [Hs Hm]. split; [by apply shape_mset|].
    intros i' Hi'. destruct (decide (i' = i)) as [->|Hne].
    + eapply mget_mset_eq; [done | lia | lia].
    + rewrite mget_mset_ne by congruence. apply Hm. lia. }
split; [done|]. intros i Hi. apply Hm. lia.
  Qed.

Lemma borders :
let m := for_range 0 lb (fun j m => mset m 0 j j)
           (for_range 0 la (fun i m => mset m i 0 i)
              (replicate (la + 1) (replicate (lb + 1) 0))) in
table_inv a b 1 1 m.
  Proof.
intros m. destruct first_column as [Hs0 Hc0].
assert (shape (la + 1) (lb + 1) m
        /\ (forall i, 0 < i <= la -> mget m i 0 = i)
        /\ forall j, j < lb + 1 -> mget m 0 j = j) as (Hs & Hc & Hr).
{ subst m.
  apply (for_range_inv
           (fun k m => shape (la + 1) (lb + 1) m
                       /\ (forall i, 0 < i <= la -> mget m i 0 = i)
                       /\ forall j, j < k -> mget m 0 j = j)).
  - lia.
  - split; [done|]. split; [intros; apply Hc0; lia | intros; lia].
  - intros j m [_ Hj] (Hs & Hc & Hr). split; [by apply shape_mset|]. split.
    + intros i Hi. rewrite mget_mset_ne by (intros [=]; lia). by apply Hc.
    + intros j' Hj'. destruct (decide (j' = j)) as [->|Hne].
      * eapply mget_mset_eq; [done | lia | lia].
      * rewrite mget_mset_ne by congruence. apply Hr. lia. }
split; [done|]. intros i j Hi Hj Hf.
destruct (decide (i = 0)) as [->|Hi0].
- rewrite lev_table_0_l. apply Hr. lia.
- assert (j = 0) as -> by (unfold filled in Hf; lia).
  rewrite lev_table_0_r. apply Hc. lia.
  Qed.

Lemma inner_step i j m :
1 <= i <= la -> 1 <= j <= lb ->
table_inv a b i j m -> table_inv a b i (S j) (mset m i j (cell a b m i j)).
  Proof.
intros Hi Hj [Hs Hm]. split; [by apply shape_mset|].
intros i' j' Hi' Hj' Hf. destruct (decide ((i, j) = (i', j'))) as [[= <- <-]|Hne].
- erewrite mget_mset_eq; [|done|lia|lia]. unfold cell.
  rewrite !Hm by (unfold filled; lia).
  destruct i as [|i]; [lia|]. destruct j as [|j]; [lia|].
  rewrite lev_table_S. simpl. by rewrite !Nat.sub_0_r.
- rewrite mget_mset_ne by done. apply Hm; [done..|].
  unfold filled in *. destruct (decide (i' = i)), (decide (j' = j)); subst; try lia.
  congruence.
  Qed.

Lemma outer_step i m :
1 <= i <= la ->
table_inv a b i 1 m ->
table_inv a b (S i) 1
  (for_range 1 lb (fun j m => mset m i j (cell a b m i j)) m).
  Proof.
intros Hi Hm.
assert (table_inv a b i (lb + 1)
          (for_range 1 lb (fun j m => mset m i j (cell a b m i j)) m)) as [Hs Hr].
{ apply (for_range_inv (fun j m => table_inv a b i j m)); [lia | done |].
  intros j m' Hj. by apply inner_step. }
split; [done|]. intros i' j' Hi' Hj' Hf. apply Hr; [done..|].
unfold filled in *. lia.
  Qed.

  (** The table-filling loops compute the recurrence. *)
Lemma levenshteinDistance_table :
levenshteinDistance a b = lev_table a b (length a) (length b).
  Proof.
unfold levenshteinDistance. fold la lb.
set (m0 := for_range 0 lb _ _).
assert (table_inv a b (la + 1) 1
          (for_range 1 la (fun i m =>
             for_range 1 lb (fun j m => mset m i j (cell a b m i j)) m) m0))
  as [_ Hm].
{ apply (for_range_inv (fun i m => table_inv a b i 1 m)); [lia | apply borders |].
  intros i m Hi. by apply outer_step. }
apply Hm; [lia | lia |]. unfold filled. lia.
  Qed.

Lemma lev_table_bound i j : lev_table a b i j <= Nat.max i j.
  Proof.
revert j. induction i as [|i IHi]; intros j; [simpl; lia|].
induction j as [|j IHj]; [rewrite lev_table_0_r; lia|].
rewrite lev_table_S. specialize (IHi j).
assert (subst_cost a b i j <= 1) by (unfold subst_cost; case_bool_decide; lia).
unfold min3. lia.
  Qed.

End Levenshtein.

Lemma subst_cost_sym a b i j : subst_cost b a j i = subst_cost a b i j.
Proof. unfold subst_cost. apply (f_equal (fun c : bool => if c then 0 else 1)).
apply bool_decide_ext. split; congruence. Qed.

Lemma lev_table_sym a b i j : lev_table b a j i = lev_table a b i j.
Proof.
revert j. induction i as [|i IHi]; intros j.
- rewrite lev_table_0_r. reflexivity.
- induction j as [|j IHj]; [reflexivity|].
  rewrite !lev_table_S, IHj, !IHi, subst_cost_sym. unfold min3. lia.
Qed.

Lemma levenshteinDistance_sym a b :
levenshteinDistance a b = levenshteinDistance b a.
Proof. rewrite !levenshteinDistance_table. symmetry. apply lev_table_sym. Qed.

Lemma levenshteinDistance_bound a b :
levenshteinDistance a b <= Nat.max (length a) (length b).
Proof. rewrite levenshteinDistance_table. apply lev_table_bound. Qed.

End EditDistance.

(** ** The base64 syntax check *)

Section Base64Syntax.
Import RegExp.

Lemma test_from_anchored r n0 s :
  (length s < n0)%nat -> test_from (RSeq RBol r) n0 s = false.
Proof.
  induction s as [|c s IH]; intros Hlen; cbn [test_from rmatch].
  - destruct (Nat.eqb_spec (length (@nil N)) n0); [lia | reflexivity].
  - destruct (Nat.eqb_spec (length (c :: s)) n0); [lia|].
    apply IH. simpl in Hlen. lia.
Qed.

Lemma test_anchored r s :
  test (RSeq RBol r) s = matched (rmatch (length s) r Some s).
Proof.
  unfold test. destruct s as [|c s].
  - simpl. by destruct (rmatch 0 r Some []).
  - cbn [test_from rmatch]. rewrite Nat.eqb_refl.
    destruct (rmatch (length (c :: s)) r Some (c :: s)); [done|].
    by rewrite test_from_anchored by (simpl; lia).
Qed.

Lemma rmatch_padding n0 r :
  matched (rmatch n0 re_padding Some r) = is_padding r.
Proof.
  destruct r as [|c [|d [|e r]]]; simpl.
  - done.
  - destruct (N.eqb_spec c 61); simpl; done.
  - destruct (N.eqb_spec c 61), (N.eqb_spec d 61); simpl; done.
  - destruct (N.eqb_spec c 61), (N.eqb_spec d 61); simpl; done.
Qed.

Lemma rmatch_padding_inside n0 x s :
  is_base64_char x = true -> rmatch n0 re_padding Some (x :: s) = None.
Proof.
  intros Hx. simpl. destruct (N.eqb_spec x 61) as [->|_]; [discriminate | done].
Qed.

Lemma test_re_base64 s : test re_base64 s = base64_syntax s.
Proof.
  unfold re_base64. rewrite test_anchored. unfold base64_syntax.
  rewrite <- (rmatch_padding (length s)). f_equal.
  rewrite <- (iterate_set (length s) is_base64_char
                (rmatch (length s) re_padding Some) (length s) s);
    [reflexivity | | lia].
  intros x s' Hx. by apply rmatch_padding_inside.
Qed.

End Base64Syntax.

Lemma base64Decode_eq s :
  base64Decode (VString s)
  = if base64_syntax s then Ok (Buffer.to_string (Buffer.from_base64 s))
    else Throw (mk_exn StringUtilError "Invalid base64 string").
Proof.
  unfold base64Decode. cbn [validateString bind]. rewrite test_re_base64.
  by destruct (base64_syntax s).
Qed.

(** ** base64 over bytes *)

(** Linear arithmetic with division and remainder by constants. *)
Ltac divmod_lia :=
  Z.to_euclidean_division_equations; lia.

Ltac n_divmod :=
  zify; divmod_lia.

Section Base64Bytes.
Import Buffer.

Lemma list_ind3 {A} (P : list A -> Prop) :
  P [] -> (forall a, P [a]) -> (forall a b, P [a; b]) ->
  (forall a b c l, P l -> P (a :: b :: c :: l)) ->
  forall l, P l.
Proof.
  intros H0 H1 H2 H3.
  assert (forall l, P l /\ (forall a, P (a :: l)) /\ (forall a b, P (a :: b :: l)))
    as H; [|intros l; apply H].
  induction l as [|x l (IH0 & IH1 & IH2)]; [by auto|].
  split; [apply IH1|]. split; [intros a; apply IH2|].
  intros a b. by apply H3.
Qed.

Lemma sextet_table : forallb sextet_ok (map N.of_nat (seq 0 64)) = true.
Proof. vm_compute. reflexivity. Qed.

Lemma sextet_facts v :
  v < 64 ->
  base64_value (base64_char v) = Some v
  /\ (base64_char v =? 61) = false
  /\ is_base64_char (base64_char v) = true.
Proof.
  intros Hv. pose proof sextet_table as Ht. rewrite forallb_forall in Ht.
  specialize (Ht v). unfold sextet_ok in Ht.
  rewrite !andb_true_iff, bool_decide_eq_true, negb_true_iff in Ht.
  assert (In v (map N.of_nat (seq 0 64))) as Hin.
  { apply in_map_iff. exists (N.to_nat v). split; [lia|]. apply in_seq. lia. }
  destruct (Ht Hin) as [[? ?] ?]. done.
Qed.

Lemma sextets_cons v s :
  v < 64 -> sextets (base64_char v :: s) = v :: sextets s.
Proof.
  intros Hv. destruct (sextet_facts v Hv) as (Hval & Hne & _).
  cbn [sextets]. by rewrite Hne, Hval.
Qed.

Lemma from_base64_to_base64 bs :
  Forall is_byte bs -> from_base64 (to_base64 bs) = bs.
Proof.
  unfold from_base64, is_byte. induction bs as [|a|a b|a b c bs IH] using list_ind3;
    intros Hb.
  - reflexivity.
  - apply Forall_cons in Hb as [Ha _].
    cbn [to_base64]. rewrite !sextets_cons by n_divmod.
    cbn. f_equal. n_divmod.
  - apply Forall_cons in Hb as [Ha Hb]. apply Forall_cons in Hb as [Hb _].
    cbn [to_base64]. rewrite !sextets_cons by n_divmod.
    cbn. f_equal; [n_divmod|]. f_equal. n_divmod.
  - apply Forall_cons in Hb as [Ha Hb]. apply Forall_cons in Hb as [Hb Hc].
    apply Forall_cons in Hc as [Hc Hbs].
    cbn [to_base64]. rewrite !sextets_cons by n_divmod.
    cbn [bytes_of_sextets]. rewrite IH by done.
    f_equal; [n_divmod|]. f_equal; [n_divmod|]. f_equal. n_divmod.
Qed.

Lemma skip_base64_char v s :
  v < 64 -> skip is_base64_char (base64_char v :: s) = skip is_base64_char s.
Proof.
  intros Hv. destruct (sextet_facts v Hv) as (_ & _ & Hc).
  cbn [skip]. by rewrite Hc.
Qed.

Lemma to_base64_syntax bs :
  Forall is_byte bs -> base64_syntax (to_base64 bs) = true.
Proof.
  unfold base64_syntax, is_byte.
  induction bs as [|a|a b|a b c bs IH] using list_ind3; intros Hb.
  - reflexivity.
  - apply Forall_cons in Hb as [Ha _].
    cbn [to_base64]. rewrite !skip_base64_char by n_divmod. reflexivity.
  - apply Forall_cons in Hb as [Ha Hb]. apply Forall_cons in Hb as [Hb _].
    cbn [to_base64]. rewrite !skip_base64_char by n_divmod. reflexivity.
  - apply Forall_cons in Hb as [Ha Hb]. apply Forall_cons in Hb as [Hb Hc].
    apply Forall_cons in Hc as [Hc Hbs].
    cbn [to_base64]. rewrite !skip_base64_char by n_divmod. by apply IH.
Qed.

(** The encoder writes whole groups of four characters. *)
Lemma to_base64_length bs : (length (to_base64 bs) mod 4 = 0)%nat.
Proof.
  induction bs as [|a|a b|a b c bs IH] using list_ind3; try reflexivity.
  cbn [to_base64 length].
  replace (S (S (S (S (length (to_base64 bs))))))
    with (length (to_base64 bs) + 1 * 4)%nat by lia.
  by rewrite Nat.Div0.mod_add.
Qed.

End Base64Bytes.

(** ** UTF-8 *)

(** Decide the comparisons of the goal from the hypotheses. *)
Ltac settle_cmp :=
  repeat match goal with
    | |- context [N.ltb ?a ?b] =>
        first [ rewrite (proj2 (N.ltb_lt a b)) by n_divmod
              | rewrite (proj2 (N.ltb_ge a b)) by n_divmod ]
    | |- context [N.leb ?a ?b] =>
        first [ rewrite (proj2 (N.leb_le a b)) by n_divmod
              | rewrite (proj2 (N.leb_gt a b)) by n_divmod ]
    | |- context [N.eqb ?a ?b] =>
        first [ rewrite (proj2 (N.eqb_eq a b)) by n_divmod
              | rewrite (proj2 (N.eqb_neq a b)) by n_divmod ]
    end.

Section Utf8.
Import Buffer.

Lemma to_string_cons b0 r0 :
  to_string (b0 :: r0)
  = if b0 <? 0x80 then b0 :: to_string r0
    else if in_range 0xC2 0xDF b0 then
      match r0 with
      | b1 :: r1 =>
          if is_continuation b1
          then ((b0 - 0xC0) * 64 + (b1 - 0x80)) :: to_string r1
          else 0xFFFD :: to_string r0
      | [] => [0xFFFD]
      end
    else if in_range 0xE0 0xEF b0 then
      match r0 with
      | b1 :: r1 =>
          if second_ok b0 b1 then
            match r1 with
            | b2 :: r2 =>
                if is_continuation b2
                then ((b0 - 0xE0) * 4096 + (b1 - 0x80) * 64 + (b2 - 0x80))
                     :: to_string r2
                else 0xFFFD :: to_string r1
            | [] => [0xFFFD]
            end
          else 0xFFFD :: to_string r0
      | [] => [0xFFFD]
      end
    else if in_range 0xF0 0xF4 b0 then
      match r0 with
      | b1 :: r1 =>
          if second_ok b0 b1 then
            match r1 with
            | b2 :: r2 =>
                if is_continuation b2 then
                  match r2 with
                  | b3 :: r3 =>
                      if is_continuation b3
                      then units_of_code_point
                             ((b0 - 0xF0) * 262144 + (b1 - 0x80) * 4096
                              + (b2 - 0x80) * 64 + (b3 - 0x80))
                           ++ to_string r3
                      else 0xFFFD :: to_string r2
                  | [] => [0xFFFD]
                  end
                else 0xFFFD :: to_string r1
            | [] => [0xFFFD]
            end
          else 0xFFFD :: to_string r0
      | [] => [0xFFFD]
      end
    else 0xFFFD :: to_string r0.
Proof. reflexivity. Qed.

Ltac decode_step :=
  rewrite to_string_cons; cbv beta iota;
  unfold second_ok, is_continuation, in_range;
  settle_cmp; cbv beta iota delta [andb].

(** Decoding reads back an encoded scalar value. *)
Lemma to_string_code_point cp rest :
  is_scalar cp ->
  to_string (utf8_of_code_point cp ++ rest)
  = units_of_code_point cp ++ to_string rest.
Proof.
  intros [Hmax Hsur]. unfold utf8_of_code_point.
  destruct (N.ltb_spec cp 0x80) as [H1|H1].
  { cbn [app]. decode_step. unfold units_of_code_point. settle_cmp. reflexivity. }
  destruct (N.ltb_spec cp 0x800) as [H2|H2].
  { cbn [app]. decode_step. unfold units_of_code_point. settle_cmp.
    cbn [app]. f_equal. n_divmod. }
  destruct (N.ltb_spec cp 0x10000) as [H3|H3].
  { cbn [app]. decode_step. unfold units_of_code_point.
    destruct (N.eqb_spec (224 + cp / 4096) 224);
      [|destruct (N.eqb_spec (224 + cp / 4096) 237)];
      settle_cmp; cbv beta iota; cbn [app]; f_equal; n_divmod. }
  cbn [app]. decode_step.
  assert ((240 + cp / 262144 - 240) * 262144
          + (128 + (cp / 4096) mod 64 - 128) * 4096
          + (128 + (cp / 64) mod 64 - 128) * 64 + (128 + cp mod 64 - 128) = cp)
    as Hcp by n_divmod.
  destruct (N.eqb_spec (240 + cp / 262144) 240);
    [|destruct (N.eqb_spec (240 + cp / 262144) 244)];
    settle_cmp; cbv beta iota; by rewrite Hcp.
Qed.

Lemma utf8_of_code_point_bytes cp :
  cp < 0x110000 -> Forall is_byte (utf8_of_code_point cp).
Proof.
  intros Hmax. unfold utf8_of_code_point, is_byte.
  destruct (N.ltb_spec cp 0x80); [repeat constructor; lia|].
  destruct (N.ltb_spec cp 0x800); [repeat constructor; n_divmod|].
  destruct (N.ltb_spec cp 0x10000); repeat constructor; n_divmod.
Qed.

End Utf8.

Section Utf8Strings.
Import Buffer.

Lemma surrogate_pair_scalar c d :
  is_high_surrogate c = true -> is_low_surrogate d = true ->
  let cp := 0x10000 + (c - 0xD800) * 1024 + (d - 0xDC00) in
  is_scalar cp /\ units_of_code_point cp = [c; d].
Proof.
  unfold is_high_surrogate, is_low_surrogate, in_range.
  intros Hc Hd. cbv zeta.
  apply andb_true_iff in Hc as [? ?], Hd as [? ?].
  rewrite N.leb_le in *.
  split; [split; lia|]. unfold units_of_code_point. settle_cmp.
  f_equal; [n_divmod|]. f_equal. n_divmod.
Qed.

Lemma from_string_well_formed n s :
  (length s <= n)%nat -> well_formed s = true ->
  to_string (from_string s) = s /\ Forall is_byte (from_string s).
Proof.
  revert s. induction n as [|n IH]; intros s Hlen Hwf.
  { destruct s; [by split | simpl in Hlen; lia]. }
  destruct s as [|c s]; [by split|].
  cbn [well_formed from_string] in *.
  destruct (is_high_surrogate c) eqn:Hhigh.
  - destruct s as [|d s]; [discriminate|].
    apply andb_true_iff in Hwf as [Hlow Hwf]. rewrite Hlow.
    destruct (surrogate_pair_scalar c d Hhigh Hlow) as [Hsc Hunits].
    destruct (IH s) as [IHs IHb]; [simpl in Hlen; lia | done |].
    split.
    + rewrite to_string_code_point by done. by rewrite Hunits, IHs.
    + apply Forall_app. split; [|done].
      apply utf8_of_code_point_bytes, Hsc.
  - apply andb_true_iff in Hwf as [Hwf Hs].
    apply andb_true_iff in Hwf as [Hlow Hbmp].
    apply negb_true_iff in Hlow. rewrite Hlow.
    apply N.ltb_lt in Hbmp.
    destruct (IH s) as [IHs IHb]; [simpl in Hlen; lia | done |].
    assert (is_scalar c) as Hsc.
    { unfold is_high_surrogate, is_low_surrogate, in_range in *.
      split; [lia|]. intros [? ?].
      destruct (N.leb_spec c 0xDBFF).
      - rewrite (proj2 (N.leb_le 0xD800 c)) in Hhigh by done. discriminate.
      - rewrite (proj2 (N.leb_le 0xDC00 c)), (proj2 (N.leb_le c 0xDFFF)) in Hlow
          by lia. discriminate. }
    split.
    + rewrite to_string_code_point by done. rewrite IHs.
      unfold units_of_code_point. by rewrite (proj2 (N.ltb_lt c 0x10000)).
    + apply Forall_app. split; [|done].
      apply utf8_of_code_point_bytes, Hsc.
Qed.

End Utf8Strings.

(** ** base64Encode and base64Decode *)

Lemma base64Encode_eq s :
  base64Encode (VString s) = Ok (Buffer.to_base64 (Buffer.from_string s)).
Proof. reflexivity. Qed.

(** C5, amended: decoding an encoded string gives the string back when it is
    well-formed UTF-16; an input that fails the syntactic check raises the
    generic StringUtil error with message "Invalid base64 string". *)
Theorem base64_round_trip (s : jsstring) :
  (well_formed s = true ->
   exists encoded, base64Encode (VString s) = Ok encoded
                   /\ base64Decode (VString encoded) = Ok s)
  /\ (base64_syntax s = false ->
      base64Decode (VString s)
      = Throw (mk_exn StringUtilError "Invalid base64 string"))
  /\ base64Decode (VString (lit "not valid!!"))
     = Throw (mk_exn StringUtilError "Invalid base64 string")
  /\ instance_of StringUtilError ValidationError = false.
Proof.
  split; [|split; [|split]].
  - intros Hwf. eexists. split; [apply base64Encode_eq|].
    destruct (from_string_well_formed (length s) s) as [Hrt Hbytes]; [lia | done |].
    rewrite base64Decode_eq, to_base64_syntax by done.
    by rewrite from_base64_to_base64, Hrt by done.
  - intros Hsyn. by rewrite base64Decode_eq, Hsyn.
  - by rewrite base64Decode_eq.
  - reflexivity.
Qed.

Lemma base64_round_trip_witness :
  exists encoded, base64Encode (VString (lit "Hello World!")) = Ok encoded
                  /\ base64Decode (VString encoded) = Ok (lit "Hello World!").
Proof.
  exact (proj1 (base64_round_trip (lit "Hello World!")) eq_refl).
Defined.

(** C5 as stated fails on a string with a lone surrogate: U+D800 is encoded
    as the bytes of U+FFFD and comes back as U+FFFD. *)
Lemma base64_round_trip_lone_surrogate :
  base64Encode (VString [0xD800]) = Ok (lit "77+9")
  /\ base64Decode (VString (lit "77+9")) = Ok [0xFFFD]
  /\ [0xFFFD] <> [0xD800].
Proof. split; [|split]; [reflexivity | reflexivity | discriminate]. Qed.

Lemma skip_app_padding body pad :
  forallb is_base64_char body = true -> is_padding pad = true ->
  skip is_base64_char (body ++ pad) = pad.
Proof.
  intros Hbody Hpad. induction body as [|c body IH].
  - destruct pad as [|p pad]; [done|]. simpl.
    assert (p = 61) as ->; [|done].
    destruct pad as [|q [|??]]; simpl in Hpad; [|apply andb_true_iff in Hpad as [Hpad _]|done];
      by apply N.eqb_eq.
  - simpl in *. apply andb_true_iff in Hbody as [-> Hbody]. by apply IH.
Qed.

(** C9: the syntactic check does not ask for a length that is a multiple of
    4: every string of base64 characters followed by at most two [=] is
    decoded without an error, also ["abc"], which the encoder never
    writes. *)
Theorem base64Decode_lenient (body pad : jsstring)
  (Hbody : forallb is_base64_char body = true)
  (Hpad : is_padding pad = true) :
  (exists decoded, base64Decode (VString (body ++ pad)) = Ok decoded)
  /\ base64Decode (VString (lit "abc")) = Ok [105; 0xFFFD]
  /\ (forall s, base64Encode (VString s) <> Ok (lit "abc")).
Proof.
  split; [|split].
  - rewrite base64Decode_eq. unfold base64_syntax.
    rewrite skip_app_padding, Hpad by done. by eexists.
  - by rewrite base64Decode_eq.
  - intros s. rewrite base64Encode_eq. intros [= Heq].
    pose proof (to_base64_length (Buffer.from_string s)) as Hlen.
    rewrite Heq in Hlen. discriminate.
Qed.

Lemma base64Decode_lenient_witness :
  exists decoded, base64Decode (VString (lit "abcde" ++ lit "=")) = Ok decoded.
Proof.
  exact (proj1 (base64Decode_lenient (lit "abcde") (lit "=") eq_refl eq_refl)).
Defined.

(** ** Salted hashes *)

Section Split.

Lemma split_on_no_sep sep s : sep ∉ s -> split_on sep s = [s].
Proof.
  induction s as [|c s IH]; intros Hs; [reflexivity|].
  apply not_elem_of_cons in Hs as [Hc Hs]. cbn [split_on].
  destruct (N.eqb_spec c sep); [congruence|]. by rewrite IH.
Qed.

Lemma split_on_app sep a b :
  sep ∉ a -> split_on sep (a ++ sep :: b) = a :: split_on sep b.
Proof.
  induction a as [|c a IH]; intros Ha; cbn [split_on app].
  - by rewrite N.eqb_refl.
  - apply not_elem_of_cons in Ha as [Hc Ha].
    destruct (N.eqb_spec c sep); [congruence|]. by rewrite IH.
Qed.

Lemma split_on_head sep s : exists h t, split_on sep s = h :: t.
Proof.
  induction s as [|c s (h & t & IH)]; cbn [split_on]; [by eauto|].
  destruct (c =? sep); [by eauto|]. rewrite IH. by eauto.
Qed.

End Split.

Section Hex.
Import Crypto.

Lemma hex_digit_not_colon v : hex_digit v <> 58.
Proof. unfold hex_digit. destruct (N.ltb_spec v 10); lia. Qed.

Lemma to_hex_no_colon bs : 58 ∉ to_hex bs.
Proof.
  unfold to_hex. induction bs as [|b bs IH]; cbn [map concat app].
  - apply not_elem_of_nil.
  - rewrite !not_elem_of_cons. split; [|split; [|done]];
      intros Heq; symmetry in Heq; by apply hex_digit_not_colon in Heq.
Qed.

Lemma pbkdf2Sync_ok password salt iterations :
  (1 <= iterations <= max_int32)%Z ->
  pbkdf2Sync password salt iterations 64
  = Ok (pbkdf2 (Buffer.from_string password) (Buffer.from_string salt)
          (Z.to_nat iterations) 64).
Proof.
  intros [H1 H2]. unfold pbkdf2Sync.
  rewrite (proj2 (Z.leb_le 1 iterations)), (proj2 (Z.leb_le iterations max_int32))
    by done.
  reflexivity.
Qed.





(** *** The digest is 64 bytes, written as 128 hexadecimal digits *)

Lemma length_round st kw : length (round st kw) = length st.
Proof.
destruct st as [|a [|b [|c [|d [|e [|f [|g [|h [|i st]]]]]]]]]; reflexivity.
Qed.

Lemma length_rounds kws st : length (fold_left round kws st) = length st.
Proof.
revert st. induction kws as [|kw kws IH]; intros st; [reflexivity|].
cbn [fold_left]. by rewrite IH, length_round.
Qed.

Lemma length_compress h block : length (compress h block) = length h.
Proof.
unfold compress. rewrite length_map, length_combine, length_rounds. lia.
Qed.

Lemma length_compress_all blocks h :
length (fold_left compress blocks h) = length h.
Proof.
revert h. induction blocks as [|b blocks IH]; intros h; [reflexivity|].
cbn [fold_left]. by rewrite IH, length_compress.
Qed.

Lemma length_be_bytes n x : length (be_bytes n x) = n.
Proof.
revert x. induction n as [|n IH]; intros x; [reflexivity|].
cbn [be_bytes]. rewrite length_app, IH. simpl. lia.
Qed.

Lemma length_concat_be_bytes h : length (concat (map (be_bytes 8) h)) = (8 * length h)%nat.
Proof.
induction h as [|x h IH]; [reflexivity|].
cbn [map concat]. rewrite length_app, length_be_bytes, IH. simpl. lia.
Qed.

Lemma length_sha512 msg : length (sha512 msg) = 64%nat.
Proof.
unfold sha512. by rewrite length_concat_be_bytes, length_compress_all.
Qed.

Lemma length_hmac key msg : length (hmac key msg) = 64%nat.
Proof. apply length_sha512. Qed.

Lemma length_pbkdf2_iter pw c u t :
length t = 64%nat -> length (pbkdf2_iter pw c u t) = 64%nat.
Proof.
revert u t. induction c as [|c IH]; intros u t Ht; [done|].
cbn [pbkdf2_iter]. apply IH. unfold xor_bytes.
rewrite length_map, length_combine, length_hmac, Ht. reflexivity.
Qed.

Lemma length_pbkdf2 pw salt c : length (pbkdf2 pw salt c 64) = 64%nat.
Proof.
unfold pbkdf2. change (seq 1 ((64 + 63) / 64)) with [1%nat].
cbn [map concat]. rewrite app_nil_r, length_take.
unfold pbkdf2_block. rewrite length_pbkdf2_iter by apply length_hmac. reflexivity.
Qed.

Lemma length_to_hex bs : length (to_hex bs) = (2 * length bs)%nat.
Proof.
unfold to_hex. induction bs as [|b bs IH]; [reflexivity|].
cbn [map concat app length]. rewrite IH. lia.
Qed.

End Hex.

Lemma verifyHash_eq p encoded :
  verifyHash (VString p) (VString encoded)
  = Ok (match split_on 58 encoded with
        | salt :: originalHash :: _ =>
            str_eqb (Crypto.to_hex
                       (Crypto.pbkdf2 (Buffer.from_string p)
                          (Buffer.from_string salt) 10 64))
                    originalHash
        | _ => false
        end).
Proof.
  unfold verifyHash. cbn [validateString bind].
  destruct (split_on_head 58 encoded) as (salt & rest & ->).
  cbn [lookup list_lookup]. rewrite pbkdf2Sync_ok by (unfold Crypto.max_int32; lia).
  cbn [bind try_catch]. by destruct rest.
Qed.

(** A second field that is not 128 characters long is never the digest. *)
Lemma verifyHash_wrong_length p salt digest :
  58 ∉ salt -> 58 ∉ digest -> length digest <> 128%nat ->
  verifyHash (VString p) (VString (salt ++ 58 :: digest)) = Ok false.
Proof.
  intros Hsalt Hdigest Hlen. rewrite verifyHash_eq.
  rewrite split_on_app, split_on_no_sep by done.
  f_equal. apply bool_decide_eq_false_2. intros Heq.
  apply Hlen. by rewrite <- Heq, length_to_hex, length_pbkdf2.
Qed.

(** C1, amended: on validated strings [verifyHash] never raises: an encoded
    string without [:] gives [false], and a salt that is not hexadecimal is
    used as it is, the answer being whether the digest derived with it is
    the second field. *)
Theorem verifyHash_malformed (p encoded : jsstring) :
  (exists answer, verifyHash (VString p) (VString encoded) = Ok answer)
  /\ (58 ∉ encoded -> verifyHash (VString p) (VString encoded) = Ok false)
  /\ (forall salt digest,
        58 ∉ salt -> 58 ∉ digest -> encoded = salt ++ lit ":" ++ digest ->
        verifyHash (VString p) (VString encoded)
        = Ok (str_eqb
                (Crypto.to_hex
                   (Crypto.pbkdf2 (Buffer.from_string p)
                      (Buffer.from_string salt) 10 64))
                digest)).
Proof.
  rewrite verifyHash_eq. split; [by eexists|]. split.
  - intros Hno. by rewrite split_on_no_sep.
  - intros salt digest Hsalt Hdigest ->.
    change (salt ++ lit ":" ++ digest) with (salt ++ 58 :: digest).
    by rewrite split_on_app, split_on_no_sep.
Qed.

Lemma verifyHash_malformed_witness :
  verifyHash (VString (lit "secret")) (VString (lit "0a1b2c")) = Ok false.
Proof.
  refine (proj1 (proj2 (verifyHash_malformed (lit "secret") (lit "0a1b2c"))) _).
  intros Hin. repeat (apply elem_of_cons in Hin as [Hin|Hin]; [discriminate|]).
  by apply elem_of_nil in Hin.
Defined.

Ltac no_colon :=
  let H := fresh in
  intros H; repeat (apply elem_of_cons in H as [H|H]; [discriminate|]);
  by apply elem_of_nil in H.

(** C1 as stated fails: neither a missing separator nor a salt that is not
    hexadecimal raises an error; both calls return [false]. *)
Lemma verifyHash_malformed_returns_false :
  verifyHash (VString (lit "secret")) (VString (lit "no separator")) = Ok false
  /\ verifyHash (VString (lit "secret")) (VString (lit "not hex!:00ff")) = Ok false.
Proof.
  split.
  - rewrite verifyHash_eq, split_on_no_sep; [done | no_colon].
  - apply (verifyHash_wrong_length _ (lit "not hex!") (lit "00ff"));
      [no_colon | no_colon | discriminate].
Qed.












(** ** slugify *)

Ltac slugify_eval Hlow :=
  unfold Slugify.slugify, with_separator;
  cbn [validateString default Slugify.lowercase Slugify.separator
       Slugify.removeStopWords Slugify.no_options];
  rewrite ?Hlow by reflexivity;
  vm_compute; reflexivity.

(** C4: what [slugify] does with a separator that has a meaning in a
    pattern.  With ["."] the slug is empty; with ["*"] and ["("] the call
    throws a [SyntaxError]; with ["\"] a leading and a trailing separator
    stay.  The two examples of the claim hold. *)
Theorem slugify_separator_in_pattern (cm : CaseMapping)
  (Hlow : lower_ascii_law cm) :
  Slugify.slugify (VString (lit "Hello World")) (with_separator ".")
  = Some (Ok [])
  /\ Slugify.slugify (VString (lit "Hello World")) (with_separator "*")
     = Some invalid_pattern
  /\ Slugify.slugify (VString (lit "Hello World")) (with_separator "(")
     = Some invalid_pattern
  /\ Slugify.slugify (VString (lit " Hello World ")) (with_separator "\")
     = Some (Ok (lit "\hello\world\"))
  /\ Slugify.slugify (VString (lit "Hello World")) (with_separator "_")
     = Some (Ok (lit "hello_world"))
  /\ Slugify.slugify (VString (lit "Hello & World!")) None
     = Some (Ok (lit "hello-world")).
Proof. repeat split; slugify_eval Hlow. Qed.

Lemma slugify_separator_in_pattern_witness :
  Slugify.slugify (cm := latin_case) (VString (lit "Hello World"))
    (with_separator ".")
  = Some (Ok []).
Proof.
  exact (proj1 (slugify_separator_in_pattern latin_case latin_lower_ascii)).
Defined.

Section DoubleBounds.
Local Open Scope Z_scope.

(** ** Doubles between 0 and 1

  The ratio [1 - d / m] of [similarity] is a double in [[0, 1]]: shown on
  the specification of binary64 arithmetic ([SpecFloat]), to which the
  primitive operations are tied by [FloatAxioms]. *)

(** [SpecFloat] is written with the core library's integer operations;
  name them as the arithmetic tactics know them. *)
Ltac zdef :=
change IntDef.Z.add with Z.add in *;
change IntDef.Z.sub with Z.sub in *;
change IntDef.Z.mul with Z.mul in *;
change IntDef.Z.opp with Z.opp in *;
change IntDef.Z.max with Z.max in *;
change IntDef.Z.min with Z.min in *;
change IntDef.Z.leb with Z.leb in *;
change IntDef.Z.eqb with Z.eqb in *;
change IntDef.Z.compare with Z.compare in *;
change IntDef.Z.even with Z.even in *;
change IntDef.Z.shiftl with Z.shiftl in *;
change IntDef.Z.div_eucl with Z.div_eucl in *.

Section Binary64.

Lemma fexp64_eq e : fexp64 e = Z.max (e - 53) (-1074).
Proof. reflexivity. Qed.

Lemma digits2_pos_bounds (p : positive) :
  2 ^ (Z.pos (digits2_pos p) - 1) <= Z.pos p < 2 ^ Z.pos (digits2_pos p).
Proof.
  induction p as [p IH|p IH|]; cbn [digits2_pos]; [| |simpl; lia].
  - rewrite Pos2Z.inj_succ.
replace (Z.succ (Z.pos (digits2_pos p)) - 1) with (Z.succ (Z.pos (digits2_pos p) - 1)) by lia.
rewrite !Z.pow_succ_r by lia. lia.
  - rewrite Pos2Z.inj_succ.
replace (Z.succ (Z.pos (digits2_pos p)) - 1) with (Z.succ (Z.pos (digits2_pos p) - 1)) by lia.
rewrite !Z.pow_succ_r by lia. lia.
Qed.

Lemma shifted_shr_1 r : 0 <= shr_m r -> shifted 1 r (shr_1 r).
Proof.
  destruct r as [m r s]. cbn [shr_m]. intros Hm. unfold shifted, inexact.
  destruct m as [|[p|p|]|p]; cbn [shr_1 shr_m shr_r shr_s]; try lia;
(split; [lia|]); (split; [lia|]);
destruct r, s; cbn [orb]; intros; try discriminate; auto; right; lia.
Qed.

Lemma shifted_trans j k a b c :
  0 <= j -> 0 <= k -> shifted j a b -> shifted k b c -> shifted (j + k) a c.
Proof.
  intros Hj Hk (Hb0 & Hb & Hbi) (Hc0 & Hc & Hci).
  unfold shifted. rewrite Z.pow_add_r by done.
  assert (0 < 2 ^ j) by (apply Z.pow_pos_nonneg; lia).
  assert (0 < 2 ^ k) by (apply Z.pow_pos_nonneg; lia).
  split; [done|]. split; [nia|].
  intros Hi. destruct (Hci Hi) as [Hbin|Hlt].
  - destruct (Hbi Hbin) as [?|?]; [by left | right; nia].
  - right. nia.
Qed.

Lemma shifted_iter_pos p r :
  0 <= shr_m r -> shifted (Z.pos p) r (SpecFloat.iter_pos shr_1 p r).
Proof.
  revert r. induction p as [p IH|p IH|]; intros r Hr; cbn [SpecFloat.iter_pos].
  - pose proof (shifted_shr_1 r Hr) as H1.
assert (0 <= shr_m (shr_1 r)) as H1m by apply H1.
pose proof (IH _ H1m) as H2. assert (0 <= shr_m (SpecFloat.iter_pos shr_1 p (shr_1 r))) as H2m by apply H2.
pose proof (IH _ H2m) as H3.
replace (Z.pos p~1) with (1 + Z.pos p + Z.pos p) by lia.
eapply shifted_trans; [lia | lia | | exact H3].
eapply shifted_trans; [lia | lia | exact H1 | exact H2].
  - pose proof (IH _ Hr) as H2.
assert (0 <= shr_m (SpecFloat.iter_pos shr_1 p r)) as H2m by apply H2.
pose proof (IH _ H2m) as H3.
replace (Z.pos p~0) with (Z.pos p + Z.pos p) by lia.
eapply shifted_trans; [lia | lia | exact H2 | exact H3].
  - by apply shifted_shr_1.
Qed.

Lemma shifted_refl r : 0 <= shr_m r -> shifted 0 r r.
Proof. intros Hr. unfold shifted. rewrite Z.mul_1_r. repeat split; [done | lia | by left]. Qed.

Lemma inexact_of_loc m l :
  inexact (shr_record_of_loc m l) = true -> l <> loc_Exact.
Proof. destruct l as [|[]]; cbn; congruence. Qed.

Lemma loc_of_inexact r :
  loc_of_shr_record r <> loc_Exact -> inexact r = true.
Proof. destruct r as [m [] []]; cbn; congruence. Qed.

Lemma shr_record_of_loc_m m l : shr_m (shr_record_of_loc m l) = m.
Proof. by destruct l as [|[]]. Qed.

(** The exponent the rounding shifts to, for a mantissa worth at most 1. *)
Lemma fexp_fits m e :
  fits m e -> fexp64 (SpecFloat.Zdigits2 m + e) <= 0.
Proof.
  intros (Hm & He & Hle). rewrite fexp64_eq.
  destruct m as [|p|p]; cbn [SpecFloat.Zdigits2]; [lia | | lia].
  pose proof (digits2_pos_bounds p) as [Hlow _].
  assert (Z.pos (digits2_pos p) - 1 <= - e); [|lia].
  apply (Z.pow_le_mono_r_iff 2); lia.
Qed.

Lemma shr_fexp_fits m e l :
  fits m e -> (l <> loc_Exact -> m < 2 ^ (- e)) ->
  let '(r, e') := shr_fexp prec emax m e l in
  fits (shr_m r) e' /\ (inexact r = true -> shr_m r < 2 ^ (- e')).
Proof.
  intros Hfits Hstrict. pose proof (fexp_fits m e Hfits) as Hexp.
  destruct Hfits as (Hm & He & Hle).
  unfold shr_fexp, shr.
  destruct (fexp64 (SpecFloat.Zdigits2 m + e) - e) as [|n|n] eqn:Hn.
  - rewrite shr_record_of_loc_m. split; [done|].
intros Hi. by apply Hstrict, (inexact_of_loc m).
  - pose proof (shifted_iter_pos n (shr_record_of_loc m l)) as Hs.
unfold shifted in Hs. rewrite !shr_record_of_loc_m in Hs.
destruct (Hs Hm) as (H0 & Hmul & Hin).
set (r := SpecFloat.iter_pos shr_1 n (shr_record_of_loc m l)) in *.
assert (2 ^ (- e) = 2 ^ (- (e + Z.pos n)) * 2 ^ Z.pos n) as Hpow.
{ rewrite <- Z.pow_add_r by lia. f_equal. lia. }
assert (0 < 2 ^ Z.pos n) by (apply Z.pow_pos_nonneg; lia).
zdef. split; [split; [done|]; split; [lia | nia]|].
intros Hi. destruct (Hin Hi) as [Hl|Hlt]; [|nia].
apply inexact_of_loc, Hstrict in Hl. nia.
  - rewrite shr_record_of_loc_m. split; [done|].
intros Hi. by apply Hstrict, (inexact_of_loc m).
Qed.

Lemma round_nearest_even_fits m l e :
  fits m e -> (l <> loc_Exact -> m < 2 ^ (- e)) ->
  fits (round_nearest_even m l) e.
Proof.
  intros (Hm & He & Hle) Hstrict. unfold round_nearest_even, fits.
  destruct l as [|[]]; try destruct (Z.even m); try lia;
assert (m < 2 ^ (- e)) by (by apply Hstrict); lia.
Qed.

(** Rounding a positive value that is at most 1 gives a double that is at
most 1. *)
Lemma binary_round_aux_fits m e l :
  fits m e -> (l <> loc_Exact -> m < 2 ^ (- e)) ->
  binary_round_aux prec emax false m e l = S754_zero false
  \/ exists m' e', binary_round_aux prec emax false m e l = S754_finite false m' e'
               /\ fits (Z.pos m') e'.
Proof.
  intros Hfits Hstrict. unfold binary_round_aux.
  pose proof (shr_fexp_fits m e l Hfits Hstrict) as H1.
  destruct (shr_fexp prec emax m e l) as [r1 e1]. destruct H1 as [Hf1 Hs1].
  assert (fits (round_nearest_even (shr_m r1) (loc_of_shr_record r1)) e1) as Hf2.
  { apply round_nearest_even_fits; [done|]. intros Hl. by apply Hs1, loc_of_inexact. }
  pose proof (shr_fexp_fits _ e1 loc_Exact Hf2 ltac:(done)) as H3.
  destruct (shr_fexp prec emax _ e1 loc_Exact) as [r3 e3]. destruct H3 as [Hf3 _].
  destruct (shr_m r3) as [|m3|m3] eqn:Hm3.
  - by left.
  - right. destruct Hf3 as (? & ? & ?).
destruct (Z.leb_spec e3 (emax - prec)) as [_|Hbig]; [|unfold emax, prec in Hbig; lia].
exists m3, e3. by repeat split.
  - destruct Hf3 as (? & _). lia.
Qed.

Lemma iter_xO_spec (p d : positive) :
  Z.pos (Pos.iter xO p d) = Z.pos p * 2 ^ Z.pos d
  /\ digits2_pos (Pos.iter xO p d) = (digits2_pos p + d)%positive.
Proof.
  induction d as [|d [IHv IHd]] using Pos.peano_ind.
  - cbn [Pos.iter]. split; [lia|]. cbn [digits2_pos]. lia.
  - rewrite Pos.iter_succ. split.
+ rewrite Pos2Z.inj_xO, IHv, Pos2Z.inj_succ, Z.pow_succ_r by lia. lia.
+ cbn [digits2_pos]. rewrite IHd. lia.
Qed.

(** Aligning a mantissa to a lower exponent keeps its value. *)
Lemma shl_align_spec (mx : positive) (ex ez : Z) :
  ez <= ex ->
  let '(m, e) := shl_align mx ex ez in
  e = ez /\ Z.pos m = Z.pos mx * 2 ^ (ex - ez).
Proof.
  intros Hle. unfold shl_align. zdef.
  destruct (ez - ex) as [|d|d] eqn:Hd; try lia.
  - assert (ez = ex) as -> by lia. rewrite Z.sub_diag. split; [done | lia].
  - split; [done|]. rewrite (proj1 (iter_xO_spec mx d)).
f_equal. f_equal. lia.
Qed.

Lemma shl_align_fits (mx : positive) (ex ez : Z) :
  fits (Z.pos mx) ex -> fits (Z.pos (fst (shl_align mx ex ez))) (snd (shl_align mx ex ez)).
Proof.
  intros Hfits. unfold shl_align. zdef.
  destruct (ez - ex) as [|d|d] eqn:Hd; cbn [fst snd]; try done.
  destruct Hfits as (Hm & He & Hle). unfold fits.
  rewrite (proj1 (iter_xO_spec mx d)).
  assert (2 ^ (- ez) = 2 ^ (- ex) * 2 ^ Z.pos d) as ->.
  { rewrite <- Z.pow_add_r by lia. f_equal. lia. }
  assert (0 < 2 ^ Z.pos d) by (apply Z.pow_pos_nonneg; lia).
  split; [lia|]. split; [lia | nia].
Qed.

Lemma binary_round_fits (p : positive) (e : Z) :
  fits (Z.pos p) e ->
  binary_round prec emax false p e = S754_zero false
  \/ exists m' e', binary_round prec emax false p e = S754_finite false m' e'
               /\ fits (Z.pos m') e'.
Proof.
  intros Hfits. unfold binary_round.
  pose proof (shl_align_fits p e (fexp64 (Z.pos (digits2_pos p) + e)) Hfits) as H.
  zdef. destruct (shl_align p e _) as [mz ez]. cbn [fst snd] in H.
  by apply binary_round_aux_fits.
Qed.

(** A mantissa of 53 digits at an exponent in range is kept by rounding. *)
Lemma binary_round_aux_canonical (mz : positive) (ez : Z) :
  Z.pos (digits2_pos mz) = 53 -> -1074 <= ez <= 971 ->
  binary_round_aux prec emax false (Z.pos mz) ez loc_Exact
  = S754_finite false mz ez.
Proof.
  intros Hd He. unfold binary_round_aux, shr_fexp.
  cbn [SpecFloat.Zdigits2 shr_record_of_loc]. zdef. rewrite Hd.
  replace (fexp64 (53 + ez) - ez) with 0 by (rewrite fexp64_eq; lia).
  cbn [shr shr_m loc_of_shr_record round_nearest_even SpecFloat.Zdigits2
   shr_record_of_loc]. rewrite Hd.
  replace (fexp64 (53 + ez) - ez) with 0 by (rewrite fexp64_eq; lia).
  cbn [shr shr_m].
  destruct (Z.leb_spec ez (emax - prec)) as [_|Hbig]; [done|].
  unfold emax, prec in Hbig. lia.
Qed.

(** A positive integer below [2^53] is converted exactly. *)
Lemma binary_round_exact (p : positive) :
  Z.pos p < 2 ^ 53 ->
  exists m e, binary_round prec emax false p 0 = S754_finite false m e
          /\ e <= 0 /\ Z.pos m = Z.pos p * 2 ^ (- e).
Proof.
  intros Hp. unfold binary_round.
  pose proof (digits2_pos_bounds p) as [Hlow Hhigh].
  assert (Z.pos (digits2_pos p) <= 53) as Hdig.
  { assert (Z.pos (digits2_pos p) - 1 < 53); [|lia].
apply (Z.pow_lt_mono_r_iff 2); lia. }
  zdef. rewrite Z.add_0_r.
  replace (fexp64 (Z.pos (digits2_pos p))) with (Z.pos (digits2_pos p) - 53)
by (rewrite fexp64_eq; lia).
  unfold shl_align. zdef. rewrite Z.sub_0_r.
  destruct (Z.pos (digits2_pos p) - 53) as [|d|d] eqn:Hd; try lia.
  - exists p, 0. rewrite binary_round_aux_canonical by lia.
split; [done|]. split; [lia|]. simpl. lia.
  - destruct (iter_xO_spec p d) as [Hv Hdg].
exists (Pos.iter xO p d), (Z.neg d).
rewrite binary_round_aux_canonical by (rewrite ?Hdg; lia).
split; [done|]. split; [lia|]. rewrite Hv. f_equal.
Qed.

Lemma new_location_exact nb r : new_location nb r <> loc_Exact -> r <> 0.
Proof.
  intros H ->. apply H. unfold new_location, new_location_even, new_location_odd.
  by destruct (IntDef.Z.even nb).
Qed.

(** The quotient of two positive integers [d <= m], each held exactly, is
at most 1. *)
Lemma SFdiv_fits (md mm : positive) (ed em d m : Z) :
  0 < d <= m -> ed <= 0 -> em <= 0 ->
  Z.pos md = d * 2 ^ (- ed) -> Z.pos mm = m * 2 ^ (- em) ->
  SFdiv prec emax (S754_finite false md ed) (S754_finite false mm em)
  = S754_zero false
  \/ exists mq eq,
   SFdiv prec emax (S754_finite false md ed) (S754_finite false mm em)
   = S754_finite false mq eq
   /\ fits (Z.pos mq) eq.
Proof.
  intros Hdm Hed Hem Hmd Hmm. cbn [SFdiv xorb].
  unfold SFdiv_core_binary. cbn [SpecFloat.Zdigits2]. zdef.
  pose proof (digits2_pos_bounds md) as [Hd1 _].
  pose proof (digits2_pos_bounds mm) as [_ Hd2].
  set (d1 := Z.pos (digits2_pos md)) in *.
  set (d2 := Z.pos (digits2_pos mm)) in *.
  assert (0 < 2 ^ (- ed)) as Hpa by (apply Z.pow_pos_nonneg; lia).
  assert (0 < 2 ^ (- em)) as Hpb by (apply Z.pow_pos_nonneg; lia).
  assert (d1 + ed - (d2 + em) <= 0) as Ht.
  { assert (2 ^ (d1 - 1 + - em) < 2 ^ (d2 + - ed)) as Hpow.
{ rewrite !Z.pow_add_r by (subst d1 d2; lia). nia. }
apply Z.pow_lt_mono_r_iff in Hpow; subst d1 d2; lia. }
  set (e' := Z.min (fexp64 (d1 + ed - (d2 + em))) (ed - em)).
  assert (e' <= -53) as He1 by (subst e'; rewrite fexp64_eq; lia).
  assert (e' <= ed - em) as He2 by (subst e'; lia).
  set (s := ed - em - e').
  assert (0 <= s) as Hs by (subst s; lia).
  set (m' := match s with Z.pos _ => Z.shiftl (Z.pos md) s | 0 => Z.pos md | Z.neg _ => 0 end).
  assert (m' = Z.pos md * 2 ^ s) as Hm'.
  { subst m'. destruct s as [|ps|ps] eqn:Hps; [lia | | lia].
by rewrite Z.shiftl_mul_pow2. }
  pose proof (Z.div_eucl_eq m' (Z.pos mm) ltac:(done)) as Hdiv.
  pose proof (Z.mod_pos_bound m' (Z.pos mm) ltac:(done)) as Hmod.
  unfold Z.modulo in Hmod.
  destruct (Z.div_eucl m' (Z.pos mm)) as [q r].
  assert (0 < 2 ^ s) as Hps by (apply Z.pow_pos_nonneg; lia).
  assert (Z.pos mm * 2 ^ (- e') = m * 2 ^ (s + - ed)) as Hscale.
  { rewrite Hmm, <- Z.mul_assoc, <- Z.pow_add_r by lia.
f_equal. f_equal. subst s. lia. }
  assert (m' <= Z.pos mm * 2 ^ (- e')) as Hle.
  { rewrite Hscale, Hm', Hmd, Z.pow_add_r by lia. nia. }
  assert (0 <= q) as Hq by nia.
  apply binary_round_aux_fits.
  - split; [done|]. split; [lia|]. nia.
  - intros Hl. apply new_location_exact in Hl. nia.
Qed.

Lemma shl_align_fst (mx : positive) (ex ez : Z) :
  ez <= ex -> Z.pos (fst (shl_align mx ex ez)) = Z.pos mx * 2 ^ (ex - ez).
Proof.
  intros Hle. pose proof (shl_align_spec mx ex ez Hle) as H.
  destruct (shl_align mx ex ez) as [m e]. apply H.
Qed.

(** [1 - q] is at most 1 when [q] is positive and at most 1. *)
Lemma SFsub_one_fits (q : spec_float) :
  at_most_one q ->
  at_most_one (SFsub prec emax (S754_finite false 4503599627370496 (-52)) q).
Proof.
  intros [->|(mq & eq & -> & Hm & He & Hle)].
  - right. exists 4503599627370496%positive, (-52). split; [done|].
unfold fits. change (2 ^ (- (-52))) with 4503599627370496. lia.
  - cbn [SFsub cond_Zopp]. zdef.
set (ez := Z.min (-52) eq).
rewrite !shl_align_fst by (subst ez; lia).
assert (4503599627370496 * 2 ^ (-52 - ez) = 2 ^ (- ez)) as ->.
{ change 4503599627370496 with (2 ^ 52).
  rewrite <- Z.pow_add_r by (subst ez; lia). f_equal. lia. }
assert (Z.pos mq * 2 ^ (eq - ez) <= 2 ^ (- ez)) as Hq.
{ replace (- ez) with (- eq + (eq - ez)) by lia.
  rewrite Z.pow_add_r by (subst ez; lia).
  assert (0 < 2 ^ (eq - ez)) by (apply Z.pow_pos_nonneg; subst ez; lia). nia. }
destruct (2 ^ (- ez) - Z.pos mq * 2 ^ (eq - ez)) as [|p|p] eqn:Hdiff; [by left | | lia].
cbn [binary_normalize]. apply binary_round_fits.
split; [lia|]. split; [subst ez; lia | lia].
Qed.

Lemma of_nat_spec (d : nat) :
  Z.of_nat d < 2 ^ 53 ->
  (d = 0%nat /\ Prim2SF (Number.of_nat d) = S754_zero false)
  \/ exists m e, Prim2SF (Number.of_nat d) = S754_finite false m e
             /\ e <= 0 /\ Z.pos m = Z.of_nat d * 2 ^ (- e).
Proof.
  intros Hd. unfold Number.of_nat. rewrite of_uint63_spec.
  change (Uint63Axioms.to_Z (of_Z (Z.of_nat d))) with (Uint63.to_Z (of_Z (Z.of_nat d))).
  rewrite Uint63.of_Z_spec, Z.mod_small
by (split; [lia|]; eapply Z.lt_trans; [exact Hd | done]).
  destruct (Z.of_nat d) as [|p|p] eqn:Hp; [left; split; [lia | done] | | lia].
  right. cbn [binary_normalize]. by apply binary_round_exact.
Qed.

(** The ratio of [similarity] is a double in [[0, 1]]. *)
Lemma ratio_at_most_one (d m : nat) :
  (d <= m)%nat -> (1 <= m)%nat -> Z.of_nat m < 2 ^ 53 ->
  at_most_one
(Prim2SF (PrimFloat.sub 1
            (PrimFloat.div (Number.of_nat d) (Number.of_nat m)))).
Proof.
  intros Hdm Hm Hbig. rewrite FloatAxioms.sub_spec, FloatAxioms.div_spec.
  change (Prim2SF 1) with (S754_finite false 4503599627370496 (-52)).
  apply SFsub_one_fits.
  destruct (of_nat_spec m Hbig) as [[-> _]|(mm & em & -> & Hem & Hmm)]; [lia|].
  destruct (of_nat_spec d ltac:(lia)) as [[-> ->]|(md & ed & -> & Hed & Hmd)].
  - by left.
  - apply (SFdiv_fits md mm ed em (Z.of_nat d) (Z.of_nat m)); (done || lia).
Qed.

Lemma fits_canonical (m : positive) (e : Z) :
  fits (Z.pos m) e -> SpecFloat.valid_binary prec emax (S754_finite false m e) = true ->
  e <= -52.
Proof.
  intros Hfits Hvalid. pose proof (fexp_fits _ _ Hfits) as Hexp.
  cbn [SpecFloat.valid_binary] in Hvalid. unfold bounded, canonical_mantissa in Hvalid.
  apply andb_prop in Hvalid as [Hcan _]. zdef. apply Z.eqb_eq in Hcan.
  cbn [SpecFloat.Zdigits2] in Hexp. rewrite fexp64_eq in *.
  destruct Hfits as (_ & He & Hle).
  pose proof (digits2_pos_bounds m) as [Hlow _].
  assert (Z.pos (digits2_pos m) - 1 <= - e) by (apply (Z.pow_le_mono_r_iff 2); lia).
  lia.
Qed.

Lemma hundredths_fits (m : positive) (e : Z) :
  fits (Z.pos m) e -> e <= -52 -> 0 <= Number.hundredths m e <= 100.
Proof.
  intros (_ & _ & Hle) He. unfold Number.hundredths.
  destruct (Z.leb_spec 0 e) as [?|_]; [lia|].
  assert (0 < 2 ^ (- e)) by (apply Z.pow_pos_nonneg; lia).
  assert (2 ^ (- e + 1) = 2 * 2 ^ (- e)) as -> by (rewrite Z.pow_add_r by lia; lia).
  split; [apply Z.div_pos; lia|].
  assert ((2 * 100 * Z.pos m + 2 ^ (- e)) / (2 * 2 ^ (- e)) < 101); [|lia].
  apply Z.div_lt_upper_bound; lia.
Qed.

Lemma percent_table : forallb percent_ok (map Z.of_nat (seq 0 101)) = true.
Proof. vm_compute. reflexivity. Qed.

Lemma percent_ok_spec (n : Z) : 0 <= n <= 100 -> percent_ok n = true.
Proof.
  intros Hn. pose proof percent_table as H. rewrite forallb_forall in H.
  apply H. apply in_map_iff. exists (Z.to_nat n). split; [lia|].
  apply in_seq. lia.
Qed.

(** Whatever the distance and the lengths, the score is between 0 and
100. *)
Lemma score_in_range (d m : nat) :
  (d <= m)%nat -> (1 <= m)%nat -> Z.of_nat m < 2 ^ 53 ->
  in_percent_range (score d m) = true.
Proof.
  intros Hdm Hm Hbig. unfold score.
  set (x := PrimFloat.sub 1 (PrimFloat.div (Number.of_nat d) (Number.of_nat m))).
  pose proof (ratio_at_most_one d m Hdm Hm Hbig) as Hx. fold x in Hx.
  pose proof (Prim2SF_valid x) as Hvalid.
  unfold Number.toFixed2.
  destruct Hx as [Hx|(mx & ex & Hx & Hfits)].
  - rewrite Hx. by apply (percent_ok_spec 0).
  - assert (PrimFloat.leb (Number.of_Z (2 ^ 46)) (PrimFloat.abs x) = false) as Hleb.
{ rewrite FloatAxioms.leb_spec, FloatAxioms.abs_spec, Hx.
  change (Prim2SF (Number.of_Z (2 ^ 46)))
    with (S754_finite false 4503599627370496 (-6)).
  rewrite Hx in Hvalid. pose proof (fits_canonical mx ex Hfits Hvalid) as He.
  cbn [SFabs]. unfold SFleb. cbn [SFcompare]. zdef.
  by rewrite (proj2 (Z.compare_gt_iff (-6) ex)) by lia. }
rewrite Hx, Hleb. apply (percent_ok_spec (Number.hundredths mx ex)).
apply hundredths_fits; [done|].
rewrite Hx in Hvalid. by apply (fits_canonical mx ex).
Qed.

End Binary64.

End DoubleBounds.

Section SimilarityScore.
Local Open Scope nat_scope.

(** ** similarity *)

Lemma similarity_eq a b :
similarity (VString a) (VString b)
= Ok (score (lev_table a b (length a) (length b))
            (Nat.max (length a) (length b))).
Proof.
unfold similarity. cbn [validateString bind].
by rewrite levenshteinDistance_table.
Qed.

Lemma similarity_swap a b :
similarity (VString a) (VString b) = similarity (VString b) (VString a).
Proof. rewrite !similarity_eq. by rewrite lev_table_sym, Nat.max_comm. Qed.

Lemma SFcompare_refl (x : spec_float) :
x <> S754_nan -> SFcompare x x = Some Eq.
Proof.
destruct x as [s|s| |s m e]; intros Hx;
  [reflexivity | by destruct s | done |].
cbn [SFcompare].
change (IntDef.Z.compare e e) with (Z.compare e e).
destruct s; rewrite Z.compare_refl; cbn;
  change (PosDef.Pos.compare_cont Eq m m) with (Pos.compare m m);
  by rewrite Pos.compare_refl.
Qed.

(** A double between 0 and 100 is not [NaN]: it is equal to itself. *)
Lemma in_percent_range_eqb (x : float) :
in_percent_range x = true -> PrimFloat.eqb x x = true.
Proof.
unfold in_percent_range. intros H. apply andb_prop in H as [H _].
rewrite FloatAxioms.leb_spec in H. rewrite FloatAxioms.eqb_spec.
unfold SFeqb. rewrite SFcompare_refl; [done|].
intros Hnan. rewrite Hnan in H. vm_compute in H. discriminate.
Qed.

(** C3, amended: [similarity] is [Number((1 - d / max).toFixed(2)) * 100]
  in double arithmetic, with [d] the edit distance.  For strings that
  are not both empty (and shorter than [2^53] code units, as JavaScript
  strings are) it lies between 0 and 100 and it is symmetric: the two
  calls return the same double, and the program's comparison
  [similarity(a, b) === similarity(b, a)] is [true].  On two empty
  strings it is [NaN], which [===] does not hold equal to itself, so
  that the comparison is [false] there.  The two examples of the
  specification hold. *)
Theorem similarity_score (a b : jsstring) :
similarity (VString a) (VString b)
= Ok (score (lev_table a b (length a) (length b))
            (Nat.max (length a) (length b)))
/\ (1 <= Nat.max (length a) (length b) ->
    (Z.of_nat (Nat.max (length a) (length b)) < 2 ^ 53)%Z ->
    similarity (VString a) (VString b) = similarity (VString b) (VString a)
    /\ js_equal (similarity (VString a) (VString b))
                (similarity (VString b) (VString a)) = true)
/\ (1 <= Nat.max (length a) (length b) ->
    (Z.of_nat (Nat.max (length a) (length b)) < 2 ^ 53)%Z ->
    exists x, similarity (VString a) (VString b) = Ok x
              /\ in_percent_range x = true)
/\ similarity (VString []) (VString []) = Ok PrimFloat.nan
/\ js_equal (similarity (VString []) (VString []))
            (similarity (VString []) (VString [])) = false
/\ similarity (VString (lit "hello")) (VString (lit "hallo")) = Ok 80%float
/\ similarity (VString (lit "hello")) (VString (lit "hello")) = Ok 100%float.
Proof.
split; [apply similarity_eq|]. split; [|split].
- intros Hm Hbig. split; [apply similarity_swap|].
  rewrite <- (similarity_swap a b), similarity_eq. cbn [js_equal].
  apply in_percent_range_eqb.
  apply score_in_range; [apply lev_table_bound | done | done].
- intros Hm Hbig. rewrite similarity_eq. eexists. split; [reflexivity|].
  apply score_in_range; [apply lev_table_bound | done | done].
- repeat split; vm_compute; reflexivity.
Qed.

Lemma similarity_score_witness :
(exists x, similarity (VString (lit "kitten")) (VString (lit "sitting")) = Ok x
           /\ in_percent_range x = true)
/\ js_equal (similarity (VString (lit "kitten")) (VString (lit "sitting")))
            (similarity (VString (lit "sitting")) (VString (lit "kitten"))) = true.
Proof.
destruct (similarity_score (lit "kitten") (lit "sitting"))
  as (_ & Hequal & Hrange & _).
split; [apply Hrange | apply Hequal]; first [reflexivity | simpl; lia].
Defined.

(** C3 as stated fails: the result need not be an integer, and on two
  empty strings it is [NaN], not 100, which the program's comparison
  does not hold equal to itself. *)
Lemma similarity_not_integer :
similarity (VString (lit "abcdefg")) (VString (lit "abcdxyz"))
= Ok 0x1.c7fffffffffffp+5%float
/\ PrimFloat.ltb 56 0x1.c7fffffffffffp+5 = true
/\ PrimFloat.ltb 0x1.c7fffffffffffp+5 57 = true
/\ similarity (VString []) (VString []) = Ok PrimFloat.nan
/\ PrimFloat.eqb PrimFloat.nan 100 = false
/\ js_equal (similarity (VString []) (VString []))
            (similarity (VString []) (VString [])) = false.
Proof. repeat split; vm_compute; reflexivity. Qed.

End SimilarityScore.

Section EditMetric.
Local Open Scope nat_scope.

(** ** The edit distance as a metric *)

Lemma subst_cost_le a b i j : subst_cost a b i j <= 1.
Proof. unfold subst_cost. case_bool_decide; lia. Qed.

Lemma subst_cost_triangle a b c i j k :
subst_cost a c i k <= subst_cost a b i j + subst_cost b c j k.
Proof. unfold subst_cost. repeat case_bool_decide; try lia. congruence. Qed.

(** The distance is at least the difference of the lengths. *)
Lemma lev_table_lower a b i j :
i <= lev_table a b i j + j /\ j <= lev_table a b i j + i.
Proof.
revert j. induction i as [|i IHi]; intros j; [simpl; lia|].
induction j as [|j IHj]; [rewrite lev_table_0_r; lia|].
rewrite lev_table_S. pose proof (IHi j). pose proof (IHi (S j)).
unfold min3. lia.
Qed.

Lemma lev_table_triangle a b c n :
forall i j k, i + j + k = n ->
  lev_table a c i k <= lev_table a b i j + lev_table b c j k.
Proof.
induction n as [n IH] using lt_wf_ind. intros i j k Hn.
destruct i as [|i].
{ rewrite !lev_table_0_l. pose proof (lev_table_lower b c j k). lia. }
destruct k as [|k].
{ rewrite !lev_table_0_r. pose proof (lev_table_lower a b (S i) j). lia. }
destruct j as [|j].
{ rewrite lev_table_0_r, lev_table_0_l.
  pose proof (lev_table_bound a c (S i) (S k)). lia. }
rewrite !lev_table_S.
pose proof (IH (i + S j + S k) ltac:(lia) i (S j) (S k) eq_refl).
pose proof (IH (S i + S j + k) ltac:(lia) (S i) (S j) k eq_refl).
pose proof (IH (S i + j + S k) ltac:(lia) (S i) j (S k) eq_refl).
pose proof (IH (S i + j + k) ltac:(lia) (S i) j k eq_refl).
pose proof (IH (i + j + S k) ltac:(lia) i j (S k) eq_refl).
pose proof (IH (i + j + k) ltac:(lia) i j k eq_refl).
pose proof (subst_cost_triangle a b c i j k).
rewrite !lev_table_S in *. unfold min3 in *. lia.
Qed.

Lemma lev_table_diag a i : lev_table a a i i = 0.
Proof.
induction i as [|i IH]; [reflexivity|].
rewrite lev_table_S, IH. unfold subst_cost.
rewrite bool_decide_eq_true_2 by done. unfold min3. lia.
Qed.

Lemma lev_table_zero a b i j :
lev_table a b i j = 0 -> i = j /\ forall k, k < i -> a !! k = b !! k.
Proof.
revert j. induction i as [|i IHi]; intros j.
- rewrite lev_table_0_l. intros ->. split; [done | intros; lia].
- destruct j as [|j]; [rewrite lev_table_0_r; lia|].
  rewrite lev_table_S. unfold min3. intros H.
  assert (lev_table a b i j = 0 /\ subst_cost a b i j = 0) as [H0 Hc] by lia.
  destruct (IHi j H0) as [-> Hk]. split; [done|].
  intros k Hlt. destruct (decide (k = j)) as [->|]; [|apply Hk; lia].
  unfold subst_cost in Hc. by case_bool_decide.
Qed.

(** X1: the edit distance of two strings is zero exactly when they are the
  same string. *)
Theorem levenshteinDistance_zero_iff (a b : jsstring) :
levenshteinDistance a b = 0 <-> a = b.
Proof.
rewrite levenshteinDistance_table. split.
- intros H. apply lev_table_zero in H as [Hlen Hk].
  apply list_eq. intros k. destruct (decide (k < length a)) as [|Hge].
  + by apply Hk.
  + rewrite !lookup_ge_None_2; [done | lia | lia].
- intros <-. apply lev_table_diag.
Qed.

(** X2: the edit distance lies between the difference of the two lengths
  and the longer length, and the distance to the empty string is the
  length. *)
Theorem levenshteinDistance_bounds (a b : jsstring) :
length a - length b <= levenshteinDistance a b
/\ length b - length a <= levenshteinDistance a b
/\ levenshteinDistance a b <= Nat.max (length a) (length b)
/\ levenshteinDistance a [] = length a
/\ levenshteinDistance [] b = length b.
Proof.
rewrite !levenshteinDistance_table.
pose proof (lev_table_lower a b (length a) (length b)).
pose proof (lev_table_bound a b (length a) (length b)).
repeat split; try lia.
apply lev_table_0_r.
Qed.

(** X3: the edit distance satisfies the triangle inequality. *)
Theorem levenshteinDistance_triangle (a b c : jsstring) :
levenshteinDistance a c
<= levenshteinDistance a b + levenshteinDistance b c.
Proof.
rewrite !levenshteinDistance_table. by eapply lev_table_triangle.
Qed.

Lemma lev_table_insert a b i j : lev_table a b i (S j) <= lev_table a b i j + 1.
Proof.
destruct i as [|i]; [simpl; lia|]. rewrite lev_table_S. unfold min3. lia.
Qed.

Lemma lev_table_extend a b i j k : lev_table a b i (j + k) <= lev_table a b i j + k.
Proof.
induction k as [|k IH]; [by rewrite !Nat.add_0_r|].
rewrite Nat.add_succ_r. pose proof (lev_table_insert a b i (j + k)). lia.
Qed.

Lemma lev_table_prefix (a b : jsstring) i :
i <= length a -> lev_table a (a ++ b) i i = 0.
Proof.
induction i as [|i IH]; [reflexivity|]. intros Hi.
rewrite lev_table_S, IH by lia. unfold subst_cost.
rewrite bool_decide_eq_true_2 by (rewrite lookup_app_l; [done | lia]).
unfold min3. lia.
Qed.

(** X29: the edit distance between a string and the string with more units
  put behind it is the number of those units. *)
Theorem levenshteinDistance_append (a b : jsstring) :
levenshteinDistance a (a ++ b) = length b
/\ levenshteinDistance (a ++ b) a = length b.
Proof.
rewrite (levenshteinDistance_sym (a ++ b) a).
assert (levenshteinDistance a (a ++ b) = length b) as ->; [|done].
rewrite levenshteinDistance_table, length_app.
pose proof (lev_table_extend a (a ++ b) (length a) (length a) (length b)) as Hup.
rewrite lev_table_prefix in Hup by lia.
pose proof (lev_table_lower a (a ++ b) (length a) (length a + length b)).
lia.
Qed.

End EditMetric.

Section IdenticalStrings.
Local Open Scope nat_scope.

(** ** The score of identical strings *)

Lemma score_zero_distance (m : nat) :
1 <= m -> (Z.of_nat m < 2 ^ 53)%Z -> score 0 m = 100%float.
Proof.
intros Hm Hbig. unfold score.
assert (PrimFloat.sub 1 (PrimFloat.div (Number.of_nat 0) (Number.of_nat m))
        = 1%float) as ->; [|vm_compute; reflexivity].
apply Prim2SF_inj.
rewrite FloatAxioms.sub_spec, FloatAxioms.div_spec.
destruct (of_nat_spec m Hbig) as [[-> _]|(mm & em & -> & _)]; [lia|].
reflexivity.
Qed.

(** X4: a non-empty string is 100 percent similar to itself. *)
Theorem similarity_identical (a : jsstring)
(Hne : a <> []) (Hlen : (Z.of_nat (length a) < 2 ^ 53)%Z) :
similarity (VString a) (VString a) = Ok 100%float.
Proof.
rewrite similarity_eq, lev_table_diag, Nat.max_id.
rewrite score_zero_distance; [done | | done].
destruct a; [done | simpl; lia].
Qed.

Lemma similarity_identical_witness :
similarity (VString (lit "kitten")) (VString (lit "kitten")) = Ok 100%float.
Proof. by apply (similarity_identical (lit "kitten")). Defined.

End IdenticalStrings.

(** ** removeSpecialChars *)

(** The units [removeSpecialChars] keeps. *)
Lemma removeSpecialChars_eq s allowSpaces :
  removeSpecialChars (VString s) allowSpaces
  = Ok (List.filter (kept (default true allowSpaces)) s).
Proof.
  unfold removeSpecialChars, re_not_word_space, re_not_word, kept.
  cbn [validateString bind]. f_equal.
  destruct (default true allowSpaces); rewrite replace_all_set_empty;
    apply List.filter_ext; intros c; rewrite negb_involutive; [done|].
  by rewrite andb_false_l, orb_false_r.
Qed.

Lemma filter_filter_sub (f g : N -> bool) (l : jsstring) :
  (forall c, g c = true -> f c = true) ->
  List.filter g (List.filter f l) = List.filter g l.
Proof.
  intros Hsub. induction l as [|c l IH]; [reflexivity|]. simpl.
  destruct (f c) eqn:Hf; simpl.
  - destruct (g c); by rewrite IH.
  - destruct (g c) eqn:Hg; [|done]. rewrite (Hsub c Hg) in Hf. discriminate.
Qed.

Lemma word_is_ascii c : is_word c = true -> is_ascii c = true.
Proof.
  unfold is_word, is_alnum, is_lower, is_upper, is_digit, in_range, is_ascii.
  intros H. apply N.ltb_lt.
  repeat (apply orb_prop in H as [H|H]);
    try (apply andb_prop in H as [_ H]; apply N.leb_le in H; lia).
  apply N.eqb_eq in H. lia.
Qed.

(** X5: [removeSpecialChars] returns the units of its input that are word
    characters, or white space when [allowSpaces] (true by default), in
    their order; so it is idempotent, and with [allowSpaces] false what it
    returns is ASCII. *)
Theorem removeSpecialChars_keeps (s : jsstring) (allowSpaces : option bool) :
  exists t,
    removeSpecialChars (VString s) allowSpaces = Ok t
    /\ t = List.filter (fun c => is_word c
                                 || (default true allowSpaces && is_space c)) s
    /\ removeSpecialChars (VString t) allowSpaces = Ok t
    /\ removeSpecialChars (VString t) (Some false)
       = removeSpecialChars (VString s) (Some false)
    /\ (allowSpaces = Some false -> forallb is_ascii t = true).
Proof.
  eexists. split; [apply removeSpecialChars_eq|]. split; [reflexivity|].
  rewrite !removeSpecialChars_eq. split; [|split].
  - f_equal. by apply filter_filter_sub.
  - f_equal. apply filter_filter_sub. unfold kept. simpl. intros c.
    rewrite orb_false_r. intros ->. reflexivity.
  - intros ->. apply forallb_forall. intros c Hc.
    apply List.filter_In in Hc as [_ Hc]. unfold kept in Hc. simpl in Hc.
    rewrite orb_false_r in Hc. by apply word_is_ascii.
Qed.

(** ** More on isPalindrome *)

Lemma isPalindrome_eq {cm : CaseMapping} s caseSensitive :
  isPalindrome (VString s) caseSensitive
  = Ok (let cleanStr := List.filter is_alnum s in
        let processedStr :=
          if default false caseSensitive then cleanStr else toLowerCase cleanStr in
        str_eqb processedStr (reverse processedStr)).
Proof.
  unfold isPalindrome, re_not_alnum. cbn [validateString bind].
  rewrite replace_all_set_empty.
  replace (List.filter (fun c => negb (negb (is_alnum c))) s)
    with (List.filter is_alnum s); [done|].
  apply List.filter_ext. intros c. by rewrite negb_involutive.
Qed.

Lemma filter_alnum_ascii l : forallb is_ascii (List.filter is_alnum l) = true.
Proof.
  apply forallb_forall. intros c Hc. apply List.filter_In in Hc as [_ Hc].
  apply word_is_ascii. unfold is_word. by rewrite Hc.
Qed.

(** X6: [isPalindrome] gives the same answer on a string and on what
    [removeSpecialChars] leaves of it, whatever the two flags. *)
Theorem isPalindrome_after_removeSpecialChars (cm : CaseMapping)
  (s : jsstring) (allowSpaces caseSensitive : option bool) :
  exists t, removeSpecialChars (VString s) allowSpaces = Ok t
            /\ isPalindrome (VString t) caseSensitive
               = isPalindrome (VString s) caseSensitive.
Proof.
  eexists. split; [apply removeSpecialChars_eq|].
  rewrite !isPalindrome_eq. cbv zeta. rewrite filter_filter_sub; [done|].
  intros c Hc. unfold kept, is_word. by rewrite Hc.
Qed.

(** X7: [isPalindrome] answers true for every string that holds no ASCII
    letter or digit, the empty string among them. *)
Theorem isPalindrome_without_letters (cm : CaseMapping)
  (Hlow : lower_ascii_law cm) (s : jsstring) (caseSensitive : option bool)
  (Hnone : forallb (fun c => negb (is_alnum c)) s = true) :
  isPalindrome (VString s) caseSensitive = Ok true.
Proof.
  rewrite isPalindrome_eq. cbv zeta.
  assert (List.filter is_alnum s = []) as ->.
  { induction s as [|c s IH]; [done|]. simpl in *.
    apply andb_prop in Hnone as [Hc Hs]. apply negb_true_iff in Hc.
    rewrite Hc. by apply IH. }
  destruct (default false caseSensitive); [done|].
  by rewrite (Hlow []).
Qed.

Lemma isPalindrome_without_letters_witness :
  isPalindrome (cm := latin_case) (VString [0x43F; 0x440; 33]) None = Ok true.
Proof.
  apply (isPalindrome_without_letters latin_case latin_lower_ascii
           [0x43F; 0x440; 33] None).
  reflexivity.
Defined.

Lemma str_eqb_mirror (x m : jsstring) :
  (length m <= 1)%nat -> str_eqb (x ++ m ++ reverse x) (reverse (x ++ m ++ reverse x)) = true.
Proof.
  intros Hm. apply bool_decide_eq_true_2.
  rewrite !reverse_app, reverse_involutive, <- app_assoc.
  destruct m as [|c [|d m]]; [done | done | simpl in Hm; lia].
Qed.

Lemma filter_length_le (f : N -> bool) (l : jsstring) :
  (length (List.filter f l) <= length l)%nat.
Proof. induction l as [|c l IH]; simpl; [lia|]. destruct (f c); simpl; lia. Qed.

(** X8: a string followed by its reversal, or by one more unit and its
    reversal, is always a palindrome. *)
Theorem isPalindrome_mirror (cm : CaseMapping) (Hlow : lower_ascii_law cm)
  (s middle : jsstring) (caseSensitive : option bool)
  (Hmiddle : (length middle <= 1)%nat) :
  isPalindrome (VString (s ++ middle ++ reverse s)) caseSensitive = Ok true.
Proof.
  rewrite isPalindrome_eq. cbv zeta.
  rewrite !List.filter_app, list_filter_reverse.
  assert (length (List.filter is_alnum middle) <= 1)%nat as Hm'
    by (pose proof (filter_length_le is_alnum middle); lia).
  destruct (default false caseSensitive).
  - by rewrite str_eqb_mirror.
  - rewrite Hlow.
    + rewrite !map_app, map_reverse. rewrite str_eqb_mirror; [done|].
      by rewrite length_map.
    + rewrite <- list_filter_reverse, <- !List.filter_app. apply filter_alnum_ascii.
Qed.

Lemma isPalindrome_mirror_witness :
  isPalindrome (cm := latin_case)
    (VString (lit "Step on" ++ lit "X" ++ reverse (lit "Step on"))) None = Ok true.
Proof.
  apply (isPalindrome_mirror latin_case latin_lower_ascii (lit "Step on") (lit "X") None).
  simpl. lia.
Defined.

(** X9: a string that is a palindrome when case matters is one when case
    does not matter. *)
Theorem isPalindrome_case_sensitive (cm : CaseMapping)
  (Hlow : lower_ascii_law cm) (s : jsstring)
  (Hpal : isPalindrome (VString s) (Some true) = Ok true) :
  isPalindrome (VString s) (Some false) = Ok true
  /\ isPalindrome (VString s) None = Ok true.
Proof.
  revert Hpal. rewrite !isPalindrome_eq. cbv zeta. cbn [default from_option].
  intros [= Heq]. apply bool_decide_eq_true_1 in Heq.
  assert (str_eqb (toLowerCase (List.filter is_alnum s))
            (reverse (toLowerCase (List.filter is_alnum s))) = true) as Hlower.
  { apply bool_decide_eq_true_2.
    rewrite Hlow by apply filter_alnum_ascii.
    rewrite <- map_reverse. by rewrite <- Heq. }
  unfold id. by rewrite Hlower.
Qed.

Lemma isPalindrome_case_sensitive_witness :
  isPalindrome (cm := latin_case) (VString (lit "No, oN!")) (Some false) = Ok true
  /\ isPalindrome (cm := latin_case) (VString (lit "No, oN!")) None = Ok true.
Proof.
  apply (isPalindrome_case_sensitive latin_case latin_lower_ascii (lit "No, oN!")).
  reflexivity.
Defined.

(** ** wordCount *)

Section WordCount.
Import RegExp.

Lemma count_words_skip s :
  count_words false (skip is_space s) = count_words false s.
Proof.
  induction s as [|c s IH]; [reflexivity|]. simpl.
  destruct (is_space c) eqn:Hc; [done|]. simpl. by rewrite Hc.
Qed.

Lemma count_words_snoc b s c :
  is_space c = true -> count_words b (s ++ [c]) = count_words b s.
Proof.
  intros Hc. revert b. induction s as [|x s IH]; intros b; simpl.
  - by rewrite Hc.
  - destruct (is_space x); by rewrite IH.
Qed.

Lemma count_words_skip_end b l :
  count_words b (reverse (skip is_space l)) = count_words b (reverse l).
Proof.
  induction l as [|c l IH]; [reflexivity|]. simpl.
  destruct (is_space c) eqn:Hc; [|done].
  by rewrite reverse_cons, count_words_snoc.
Qed.

Lemma count_words_trim s : count_words false (trim s) = count_words false s.
Proof.
  unfold trim. rewrite count_words_skip_end, reverse_involutive.
  apply count_words_skip.
Qed.

Lemma count_words_app b x c y :
  is_space c = true ->
  (count_words b (x ++ c :: y) = count_words b x + count_words false y)%nat.
Proof.
  intros Hc. revert b. induction x as [|a x IH]; intros b; simpl.
  - by rewrite Hc.
  - destruct (is_space a); rewrite IH; lia.
Qed.

Lemma count_words_collapse b s :
  count_words b (collapse is_space [32] s) = count_words b s.
Proof.
  revert b. induction s as [|x s IH]; intros b; [reflexivity|].
  destruct (is_space x) eqn:Hx.
  - rewrite collapse_cons_space by done. simpl count_words at 2. rewrite Hx.
    destruct s as [|y s]; [reflexivity|].
    destruct (is_space y) eqn:Hy.
    + rewrite IH. simpl. by rewrite Hy.
    + simpl count_words at 1. change (is_space 32) with true. cbv iota. apply IH.
  - rewrite collapse_cons_other by done. simpl. rewrite Hx. by rewrite IH.
Qed.

Lemma count_words_blank s :
  count_words false s = 0%nat <-> forallb is_space s = true.
Proof.
  induction s as [|c s IH]; [done|]. simpl.
  destruct (is_space c); simpl; [done|]. split; [lia | discriminate].
Qed.

(** The pieces of [split] that are not empty are the runs. *)
Lemma split_from_spaces n0 fuel acc s :
  (length s < fuel)%nat ->
  length (List.filter (fun word => (0 <? length word)%nat)
            (split_from re_spaces n0 fuel acc s))
  = ((if (0 <? length acc)%nat then 1 else 0)
     + count_words (0 <? length acc)%nat s)%nat.
Proof.
  revert acc s. induction fuel as [|fuel IH]; intros acc s Hlen; [lia|].
  destruct s as [|c s].
  { simpl. destruct (0 <? length acc)%nat; reflexivity. }
  cbn [split_from]. unfold re_spaces. rewrite rmatch_plus_set.
  simpl in Hlen.
  assert ((0 <? length (acc ++ [c]))%nat = true) as Happ
    by (apply Nat.ltb_lt; rewrite length_app; simpl; lia).
  destruct (is_space c) eqn:Hc.
  - pose proof (skip_length is_space s) as Hskip.
    rewrite (proj2 (Nat.eqb_neq (length (skip is_space s)) (length (c :: s))))
      by (simpl; lia).
    cbn [andb List.filter length].
    fold re_spaces. destruct (0 <? length acc)%nat eqn:Hacc; cbn [length];
      rewrite IH by lia; simpl; rewrite Hc, count_words_skip; reflexivity.
  - fold re_spaces. rewrite IH by lia. rewrite Happ. simpl. rewrite Hc.
    destruct (0 <? length acc)%nat; lia.
Qed.

Lemma wordCount_eq s : wordCount (VString s) = Ok (count_words false s).
Proof.
  unfold wordCount. cbn [validateString bind]. f_equal.
  rewrite <- (count_words_trim s). unfold split.
  destruct (trim s) as [|c t] eqn:Ht; [reflexivity|].
  rewrite split_from_spaces by lia. reflexivity.
Qed.

End WordCount.

(** X10: [wordCount] returns the number of maximal runs of units that are
    not white space; it is 0 exactly on the strings made of white space
    only, the empty string among them. *)
Theorem wordCount_runs (s : jsstring) :
  wordCount (VString s) = Ok (count_words false s)
  /\ (wordCount (VString s) = Ok 0%nat <-> forallb is_space s = true).
Proof.
  rewrite wordCount_eq. split; [done|].
  rewrite <- count_words_blank. split; [by intros [= ->] | by intros ->].
Qed.

(** X11: [trimExtraSpaces] does not change the number of words. *)
Theorem wordCount_trimExtraSpaces (s : jsstring) :
  exists t, trimExtraSpaces (VString s) = Ok t
            /\ wordCount (VString t) = wordCount (VString s).
Proof.
  eexists. split; [apply trimExtraSpaces_eq|].
  by rewrite !wordCount_eq, count_words_trim, count_words_collapse.
Qed.

(** X12: the words of two strings joined by a white-space unit are those
    of the first and those of the second. *)
Theorem wordCount_joined (a b : jsstring) (c : N) (Hc : is_space c = true) :
  exists m n, wordCount (VString a) = Ok m /\ wordCount (VString b) = Ok n
              /\ wordCount (VString (a ++ c :: b)) = Ok (m + n)%nat.
Proof.
  exists (count_words false a), (count_words false b).
  rewrite !wordCount_eq. by rewrite count_words_app.
Qed.

Lemma wordCount_joined_witness :
  exists m n, wordCount (VString (lit "two words")) = Ok m
              /\ wordCount (VString (lit " and  three more")) = Ok n
              /\ wordCount (VString (lit "two words" ++ 9 :: lit " and  three more"))
                 = Ok (m + n)%nat.
Proof. apply (wordCount_joined (lit "two words") (lit " and  three more") 9). reflexivity. Defined.

(** ** hash *)

Section DigestBytes.
Import Crypto.

Lemma be_bytes_bytes n x : Forall is_byte (be_bytes n x).
Proof.
  revert x. induction n as [|n IH]; intros x; [constructor|].
  cbn [be_bytes]. apply Forall_app. split; [apply IH|].
  repeat constructor. unfold is_byte. by apply N.mod_lt.
Qed.

Lemma le_bytes_bytes n x : Forall is_byte (Md5.le_bytes n x).
Proof.
  revert x. induction n as [|n IH]; intros x; [constructor|].
  cbn [Md5.le_bytes]. constructor; [|apply IH].
  unfold is_byte. by apply N.mod_lt.
Qed.

Lemma length_le_bytes n x : length (Md5.le_bytes n x) = n.
Proof.
  revert x. induction n as [|n IH]; intros x; [reflexivity|].
  cbn [Md5.le_bytes length]. by rewrite IH.
Qed.

Lemma concat_bytes {A} (f : A -> list N) (h : list A) :
  (forall x, Forall is_byte (f x)) -> Forall is_byte (concat (map f h)).
Proof.
  intros Hf. induction h as [|x h IH]; [constructor|].
  cbn [map concat]. apply Forall_app. by split.
Qed.

Lemma length_concat_words {A} (f : A -> list N) (k : nat) (h : list A) :
  (forall x, length (f x) = k) -> length (concat (map f h)) = (k * length h)%nat.
Proof.
  intros Hf. induction h as [|x h IH]; [simpl; lia|].
  cbn [map concat length]. rewrite length_app, Hf, IH. lia.
Qed.

Lemma hex_digit_is_hex v : v < 16 -> is_hex_digit (hex_digit v) = true.
Proof.
  intros Hv. unfold hex_digit, is_hex_digit, is_digit, in_range.
  destruct (N.ltb_spec v 10).
  - apply orb_true_intro. left. apply andb_true_intro.
    split; apply N.leb_le; lia.
  - apply orb_true_intro. right. apply andb_true_intro.
    split; apply N.leb_le; lia.
Qed.

Lemma to_hex_digits bs :
  Forall is_byte bs -> Forall (fun c => is_hex_digit c = true) (to_hex bs).
Proof.
  unfold to_hex, is_byte. induction 1 as [|b bs Hb _ IH]; [constructor|].
  cbn [map concat app].
  constructor; [apply hex_digit_is_hex; n_divmod|].
  constructor; [apply hex_digit_is_hex; n_divmod | exact IH].
Qed.

Lemma fold_left_length {A B} (f : list A -> B -> list A) (bs : list B) (h : list A) :
  (forall h b, length (f h b) = length h) ->
  length (fold_left f bs h) = length h.
Proof.
  intros Hf. revert h. induction bs as [|b bs IH]; intros h; [reflexivity|].
  cbn [fold_left]. by rewrite IH, Hf.
Qed.

Lemma sha256_length_round st kw : length (Sha256.round st kw) = length st.
Proof.
  destruct st as [|a [|b [|c [|d [|e [|f [|g [|h [|i st]]]]]]]]]; reflexivity.
Qed.

Lemma sha256_length_compress h block :
  length (Sha256.compress h block) = length h.
Proof.
  unfold Sha256.compress.
  rewrite length_map, length_combine, fold_left_length by apply sha256_length_round.
  lia.
Qed.

Lemma length_sha256 msg : length (Sha256.sha256 msg) = 32%nat.
Proof.
  unfold Sha256.sha256.
  rewrite (length_concat_words _ 4) by (intros; apply length_be_bytes).
  by rewrite fold_left_length by apply sha256_length_compress.
Qed.

Lemma md5_length_step m st i : length (Md5.step m st i) = length st.
Proof. destruct st as [|a [|b [|c [|d [|e st]]]]]; reflexivity. Qed.

Lemma md5_length_compress h block : length (Md5.compress h block) = length h.
Proof.
  unfold Md5.compress.
  rewrite length_map, length_combine, fold_left_length by apply md5_length_step.
  lia.
Qed.

Lemma length_md5 msg : length (Md5.md5 msg) = 16%nat.
Proof.
  unfold Md5.md5.
  rewrite (length_concat_words _ 4) by (intros; apply length_le_bytes).
  by rewrite fold_left_length by apply md5_length_compress.
Qed.

Lemma createHash_bytes algorithm s :
  Forall is_byte (createHash algorithm s)
  /\ (2 * length (createHash algorithm s))%nat = digest_length algorithm.
Proof.
  destruct algorithm; cbn [createHash digest_length].
  - split; [apply concat_bytes, le_bytes_bytes | by rewrite length_md5].
  - split; [apply concat_bytes, be_bytes_bytes | by rewrite length_sha256].
  - split; [apply concat_bytes, be_bytes_bytes | by rewrite length_sha512].
Qed.

End DigestBytes.

Lemma hash_eq s algorithm :
  hash (VString s) algorithm = Ok (Crypto.to_hex (createHash algorithm s)).
Proof. reflexivity. Qed.

(** The digests of the model on the test vectors of RFC 1321 and
    FIPS 180-4, and on the input of the test suite. *)
Example hash_test_vectors :
  hash (VString (lit "abc")) MD5 = Ok (lit "900150983cd24fb0d6963f7d28e17f72")
  /\ hash (VString (lit "abc")) SHA256
     = Ok (lit "ba7816bf8f01cfea414140de5dae2223b00361a396177a9cb410ff61f20015ad")
  /\ hash (VString (lit "hello")) MD5 = Ok (lit "5d41402abc4b2a76b9719d911017c592")
  /\ hash (VString (lit "hello")) SHA256
     = Ok (lit "2cf24dba5fb0a30e26e83b2ac5b9e29e1b161e5c1fa7425e73043362938b9824").
Proof. repeat split; vm_compute; reflexivity. Qed.

(** X13: for each of the three algorithms [hash] returns, on every string,
    lower-case hexadecimal digits only: 32 of them for MD5, 64 for SHA-256
    and 128 for SHA-512. *)
Theorem hash_format (s : jsstring) (algorithm : HashType) :
  exists h, hash (VString s) algorithm = Ok h
            /\ length h = digest_length algorithm
            /\ Forall (fun c => is_hex_digit c = true) h.
Proof.
  eexists. split; [apply hash_eq|].
  destruct (createHash_bytes algorithm s) as [Hbytes Hlen]. split.
  - by rewrite length_to_hex.
  - by apply to_hex_digits.
Qed.

(** ** Unpaired surrogates *)

Section Utf8Form.
Import Buffer.

Lemma from_string_toWellFormed n s :
  (length s <= n)%nat -> from_string (toWellFormed s) = from_string s.
Proof.
  revert s. induction n as [n IH] using lt_wf_ind. intros s Hlen.
  destruct s as [|c s]; [reflexivity|].
  assert (from_string (toWellFormed s) = from_string s) as IHs
    by (apply (IH (length s)); [simpl in Hlen; lia | lia]).
  cbn [toWellFormed from_string].
  destruct (is_high_surrogate c) eqn:Hhigh.
  - destruct s as [|d s]; [reflexivity|].
    destruct (is_low_surrogate d) eqn:Hlow.
    + cbn [from_string]. rewrite Hhigh, Hlow. f_equal.
      apply (IH (length s)); [simpl in Hlen; lia | lia].
    + cbn [from_string]. change (is_high_surrogate 65533) with false.
      change (is_low_surrogate 65533) with false. cbv iota.
      by rewrite IHs.
  - destruct (is_low_surrogate c) eqn:Hlow.
    + cbn [from_string]. change (is_high_surrogate 65533) with false.
      change (is_low_surrogate 65533) with false. cbv iota.
      by rewrite IHs.
    + cbn [from_string]. by rewrite Hhigh, Hlow, IHs.
Qed.

Lemma well_formed_toWellFormed n s :
  (length s <= n)%nat -> Forall is_code_unit s ->
  well_formed (toWellFormed s) = true.
Proof.
  revert s. induction n as [n IH] using lt_wf_ind. intros s Hlen Hs.
  destruct s as [|c s]; [reflexivity|].
  apply Forall_cons in Hs as [Hc Hs].
  assert (well_formed (toWellFormed s) = true) as IHs
    by (apply (IH (length s)); [simpl in Hlen; lia | lia | done]).
  cbn [toWellFormed].
  destruct (is_high_surrogate c) eqn:Hhigh.
  - destruct s as [|d s]; [reflexivity|].
    destruct (is_low_surrogate d) eqn:Hlow.
    + cbn [well_formed]. rewrite Hhigh, Hlow.
      apply Forall_cons in Hs as [_ Hs].
      apply (IH (length s)); [simpl in Hlen; lia | lia | done].
    + cbn [well_formed]. change (is_high_surrogate 65533) with false.
      change (is_low_surrogate 65533) with false. by rewrite IHs.
  - destruct (is_low_surrogate c) eqn:Hlow.
    + cbn [well_formed]. change (is_high_surrogate 65533) with false.
      change (is_low_surrogate 65533) with false. by rewrite IHs.
    + cbn [well_formed]. rewrite Hhigh, Hlow, IHs.
      unfold is_code_unit in Hc. by rewrite (proj2 (N.ltb_lt c 0x10000)).
Qed.

Lemma to_base64_length_eq bs :
  length (to_base64 bs) = (4 * ((length bs + 2) / 3))%nat.
Proof.
  induction bs as [|a|a b|a b c bs IH] using list_ind3; try reflexivity.
  cbn [to_base64 length]. rewrite IH.
  replace (S (S (S (length bs))) + 2)%nat with ((length bs + 2) + 1 * 3)%nat by lia.
  rewrite Nat.div_add by lia. lia.
Qed.

End Utf8Form.

(** X14: what is hashed or encoded is the UTF-8 form of the string, in
    which an unpaired surrogate is written as U+FFFD: a string has the hash
    and the base64 encoding of the string with its unpaired surrogates
    replaced by U+FFFD, as "\uD800" and "\uFFFD" have. *)
Theorem unpaired_surrogate_collision (s : jsstring) (algorithm : HashType) :
  hash (VString s) algorithm = hash (VString (toWellFormed s)) algorithm
  /\ base64Encode (VString s) = base64Encode (VString (toWellFormed s))
  /\ toWellFormed [0xD800] = [0xFFFD].
Proof.
  rewrite !hash_eq, !base64Encode_eq. unfold createHash.
  by rewrite (from_string_toWellFormed (length s) s).
Qed.

(** X15: [base64Encode] never fails on a string; it writes four characters
    for every three bytes of the UTF-8 form, the last group padded;
    [base64Decode] accepts what it writes and gives back the string with
    its unpaired surrogates replaced by U+FFFD. *)
Theorem base64Encode_form (s : jsstring) (Hs : Forall is_code_unit s) :
  exists encoded,
    base64Encode (VString s) = Ok encoded
    /\ length encoded = (4 * ((length (Buffer.from_string s) + 2) / 3))%nat
    /\ base64_syntax encoded = true
    /\ base64Decode (VString encoded) = Ok (toWellFormed s).
Proof.
  pose proof (well_formed_toWellFormed (length s) s (Nat.le_refl _) Hs) as Hwf.
  destruct (from_string_well_formed (length (toWellFormed s)) (toWellFormed s)
              (Nat.le_refl _) Hwf) as [Hround Hbytes].
  rewrite (from_string_toWellFormed (length s) s) in Hround, Hbytes by done.
  eexists. split; [apply base64Encode_eq|].
  split; [apply to_base64_length_eq|].
  split; [by apply to_base64_syntax|].
  rewrite base64Decode_eq, to_base64_syntax by done.
  by rewrite from_base64_to_base64, Hround.
Qed.

Lemma base64Encode_form_witness :
  exists encoded,
    base64Encode (VString [97; 0xD800; 98]) = Ok encoded
    /\ length encoded = (4 * ((length (Buffer.from_string [97; 0xD800; 98]%N) + 2) / 3))%nat
    /\ base64_syntax encoded = true
    /\ base64Decode (VString encoded) = Ok (toWellFormed [97; 0xD800; 98]).
Proof.
  apply (base64Encode_form [97; 0xD800; 98]).
  repeat constructor.
Defined.

(** ** The form of a salted hash *)

Section DerivedKeyBytes.
Import Crypto.

Lemma lxor_byte a b : is_byte a -> is_byte b -> is_byte (N.lxor a b).
Proof.
  unfold is_byte. intros Ha Hb.
  destruct (N.eq_dec (N.lxor a b) 0) as [->|Hne]; [lia|].
  change 256 with (2 ^ 8). apply N.log2_lt_pow2; [lia|].
  pose proof (N.log2_lxor a b) as Hl.
  assert (N.log2 a < 8) as Hla.
  { destruct (N.eq_dec a 0) as [->|?]; [done|]. apply N.log2_lt_pow2; lia. }
  assert (N.log2 b < 8) as Hlb.
  { destruct (N.eq_dec b 0) as [->|?]; [done|]. apply N.log2_lt_pow2; lia. }
  lia.
Qed.

Lemma sha512_bytes msg : Forall is_byte (sha512 msg).
Proof. apply concat_bytes, be_bytes_bytes. Qed.

Lemma xor_bytes_bytes x y :
  Forall is_byte x -> Forall is_byte y -> Forall is_byte (xor_bytes x y).
Proof.
  intros Hx. revert y. induction Hx as [|a x Ha _ IH]; intros y Hy; [constructor|].
  destruct Hy as [|b y Hb Hy]; [constructor|].
  unfold xor_bytes. cbn [combine map]. constructor; [by apply lxor_byte|].
  by apply IH.
Qed.

Lemma pbkdf2_iter_bytes pw c u t :
  Forall is_byte t -> Forall is_byte (pbkdf2_iter pw c u t).
Proof.
  revert u t. induction c as [|c IH]; intros u t Ht; [done|].
  cbn [pbkdf2_iter]. apply IH. apply xor_bytes_bytes; [done|]. apply sha512_bytes.
Qed.

Lemma pbkdf2_bytes pw salt c dklen : Forall is_byte (pbkdf2 pw salt c dklen).
Proof.
  unfold pbkdf2. apply Forall_take. apply concat_bytes. intros i.
  unfold pbkdf2_block. apply pbkdf2_iter_bytes, sha512_bytes.
Qed.

End DerivedKeyBytes.

Lemma hashWithSalt_unfold randomBytes p saltRounds :
  hashWithSalt randomBytes (VString p) saltRounds
  = try_catch
      (let! bytes := randomBytes 16%Z in
       let! key := Crypto.pbkdf2Sync p (Crypto.to_hex bytes)
                     (default 10%Z saltRounds) 64 in
       Ok (Crypto.to_hex bytes ++ lit ":" ++ Crypto.to_hex key))
      CryptoError "Failed to hash string with salt".
Proof. reflexivity. Qed.

(** X16: when the platform source supplies 16 bytes and the round count
    (10 by default) is in the range of the key derivation, [hashWithSalt]
    returns 161 characters: 32 hexadecimal digits of salt, a colon, and 128
    hexadecimal digits of digest. *)
Theorem hashWithSalt_format (randomBytes : random_source)
  (bytes p : jsstring) (saltRounds : option Z)
  (Hsource : randomBytes 16%Z = Ok bytes)
  (Hsize : length bytes = 16%nat) (Hbytes : Forall is_byte bytes)
  (Hrounds : (1 <= default 10 saltRounds <= Crypto.max_int32)%Z) :
  exists salt digest,
    hashWithSalt randomBytes (VString p) saltRounds
    = Ok (salt ++ lit ":" ++ digest)
    /\ salt = Crypto.to_hex bytes
    /\ length salt = 32%nat /\ length digest = 128%nat
    /\ Forall (fun c => is_hex_digit c = true) salt
    /\ Forall (fun c => is_hex_digit c = true) digest.
Proof.
  rewrite hashWithSalt_unfold, Hsource. cbn [bind].
  rewrite pbkdf2Sync_ok by done. cbn [bind try_catch].
  eexists _, _. split; [reflexivity|]. split; [reflexivity|].
  rewrite !length_to_hex, length_pbkdf2, Hsize.
  split; [done|]. split; [done|].
  split; apply to_hex_digits; [done | apply pbkdf2_bytes].
Qed.

Lemma hashWithSalt_format_witness :
  exists salt digest,
    hashWithSalt (fun _ => Ok (lit "0123456789abcdef")) (VString (lit "secret")) None
    = Ok (salt ++ lit ":" ++ digest)
    /\ salt = Crypto.to_hex (lit "0123456789abcdef")
    /\ length salt = 32%nat /\ length digest = 128%nat
    /\ Forall (fun c => is_hex_digit c = true) salt
    /\ Forall (fun c => is_hex_digit c = true) digest.
Proof.
  apply (hashWithSalt_format (fun _ => Ok (lit "0123456789abcdef"))
           (lit "0123456789abcdef") (lit "secret") None).
  - reflexivity.
  - reflexivity.
  - repeat constructor.
  - simpl. unfold Crypto.max_int32. lia.
Defined.

(** X17: [hashWithSalt] fails with a Crypto error, and the message "Failed
    to hash string with salt", when the platform source of random bytes
    fails and when the round count is below 1 or above [2^31 - 1]. *)
Theorem hashWithSalt_failure (randomBytes : random_source) (p : jsstring)
  (saltRounds : option Z)
  (Hfail : (exists e, randomBytes 16%Z = Throw e)
           \/ (default 10 saltRounds < 1)%Z
           \/ (Crypto.max_int32 < default 10 saltRounds)%Z) :
  hashWithSalt randomBytes (VString p) saltRounds
  = Throw (mk_exn CryptoError "Failed to hash string with salt").
Proof.
  rewrite hashWithSalt_unfold.
  destruct (randomBytes 16%Z) as [bytes|e]; [|reflexivity].
  destruct Hfail as [[e [=]]|Hr]. cbn [bind]. unfold Crypto.pbkdf2Sync.
  destruct Hr as [Hr|Hr].
  - by rewrite (proj2 (Z.leb_gt 1 (default 10%Z saltRounds))).
  - rewrite (proj2 (Z.leb_gt (default 10%Z saltRounds) Crypto.max_int32)) by done.
    by rewrite andb_false_r.
Qed.

Lemma hashWithSalt_failure_witness :
  hashWithSalt (fun _ => Ok (lit "0123456789abcdef")) (VString (lit "secret")) (Some 0%Z)
  = Throw (mk_exn CryptoError "Failed to hash string with salt").
Proof.
  apply (hashWithSalt_failure (fun _ => Ok (lit "0123456789abcdef"))
           (lit "secret") (Some 0%Z)).
  right. left. simpl. lia.
Defined.

(** ** More on randomString *)

(** X18: when the length and the alphabet are accepted and the platform
    source of random bytes fails, [randomString] fails with a Crypto error
    and the message "Failed to generate random string". *)
Theorem randomString_source_failure (randomBytes : random_source) (n : Z)
  (options : option RandomStringOptions) (e : exn)
  (Hn : (1 <= n)%Z) (Halphabet : alphabet (default no_options options) <> [])
  (Hsource : randomBytes n = Throw e) :
  randomString randomBytes (Some n) options
  = Throw (mk_exn CryptoError "Failed to generate random string").
Proof.
  unfold randomString. change (default 10%Z (Some n)) with n.
  destruct (Z.ltb_spec n 1) as [?|_]; [lia|].
  destruct (alphabet (default no_options options)) as [|c chars]; [done|].
  cbn [length Nat.eqb]. by rewrite Hsource.
Qed.

Lemma randomString_source_failure_witness :
  randomString (fun _ => Throw (mk_exn NativeError "ERR_OUT_OF_RANGE"))
    (Some 4294967296%Z) None
  = Throw (mk_exn CryptoError "Failed to generate random string").
Proof.
  apply (randomString_source_failure _ 4294967296 None
           (mk_exn NativeError "ERR_OUT_OF_RANGE")).
  - lia.
  - discriminate.
  - reflexivity.
Defined.

Section ModuloBias.

Lemma count_step (n L i : nat) :
  (i < L)%nat ->
  ((S n + L - 1 - i) / L
   = (n + L - 1 - i) / L + (if (n mod L =? i)%nat then 1 else 0))%nat.
Proof.
  intros Hi. pose proof (Nat.div_mod_eq n L) as Hn.
  pose proof (Nat.mod_upper_bound n L ltac:(lia)) as Hr.
  set (q := (n / L)%nat) in *. set (r := (n mod L)%nat) in *.
  destruct (Nat.eqb_spec r i) as [Heq|Hne].
  - rewrite <- (Nat.div_unique (S n + L - 1 - i) L (S q) 0) by lia.
    rewrite <- (Nat.div_unique (n + L - 1 - i) L q (L - 1)) by lia. lia.
  - destruct (Nat.lt_ge_cases r i).
    + rewrite <- (Nat.div_unique (S n + L - 1 - i) L q (r + L - i)) by lia.
      rewrite <- (Nat.div_unique (n + L - 1 - i) L q (r + L - 1 - i)) by lia. lia.
    + rewrite <- (Nat.div_unique (S n + L - 1 - i) L (S q) (r - i)) by lia.
      rewrite <- (Nat.div_unique (n + L - 1 - i) L (S q) (r - 1 - i)) by lia. lia.
Qed.

(** The numbers below [n] that leave the remainder [i]. *)
Lemma count_remainder (n L i : nat) :
  (i < L)%nat ->
  length (List.filter (fun b => (b mod L =? i)%nat) (seq 0 n))
  = ((n + L - 1 - i) / L)%nat.
Proof.
  intros Hi. induction n as [|n IH].
  - simpl. symmetry. apply Nat.div_small. lia.
  - rewrite seq_S, List.filter_app, length_app, IH, count_step by done.
    simpl. by destruct (n mod L =? i)%nat.
Qed.

Lemma alphabet_NoDup (o : RandomStringOptions) : NoDup (alphabet o).
Proof.
  rewrite alphabet_order.
  destruct (default true (uppercase o)), (default true (lowercase o)),
    (default true (numbers o)), (default false (symbols o));
    apply (bool_decide_unpack _); vm_compute; reflexivity.
Qed.

Lemma alphabet_length (o : RandomStringOptions) : (length (alphabet o) <= 88)%nat.
Proof.
  rewrite alphabet_order.
  destruct (default true (uppercase o)), (default true (lowercase o)),
    (default true (numbers o)), (default false (symbols o)); simpl; lia.
Qed.

Lemma filter_map_length {A B} (f : B -> bool) (g : A -> B) (l : list A) :
  length (List.filter f (map g l)) = length (List.filter (fun x => f (g x)) l).
Proof.
  induction l as [|x l IH]; [reflexivity|]. simpl.
  destruct (f (g x)); simpl; by rewrite IH.
Qed.

(** What one byte draws. *)
Lemma randomString_one_byte (b : N) (options : option RandomStringOptions) :
  alphabet (default no_options options) <> [] ->
  randomString (fun _ => Ok [b]) (Some 1%Z) options
  = Ok (char_at (alphabet (default no_options options))
          (N.to_nat (b mod N.of_nat (length (alphabet (default no_options options)))))).
Proof.
  intros Hne. unfold randomString.
  change (default 10%Z (Some 1%Z)) with 1%Z. change (1 <? 1)%Z with false.
  cbv iota.
  destruct (alphabet (default no_options options)) as [|c chars] eqn:Ha; [done|].
  cbn [length Nat.eqb bind try_catch map concat]. by rewrite app_nil_r.
Qed.

End ModuloBias.

(** X19: a byte [b] of the source selects the character at index
    [b mod L] of the [L]-character alphabet, so the character at index [i]
    is drawn by [(255 - i) / L + 1] of the 256 byte values: not all
    characters are as likely unless [L] divides 256. *)
Theorem randomString_modulo_bias (options : option RandomStringOptions)
  (i : nat) (c : N)
  (Hc : alphabet (default no_options options) !! i = Some c) :
  length
    (List.filter
       (fun b => match randomString (fun _ => Ok [b]) (Some 1%Z) options with
                 | Ok [x] => x =? c
                 | _ => false
                 end)
       (map N.of_nat (seq 0 256)))
  = ((255 - i) / length (alphabet (default no_options options)) + 1)%nat.
Proof.
  set (chars := alphabet (default no_options options)) in *.
  assert (i < length chars)%nat as Hi by (apply (lookup_lt_Some chars i c Hc)).
  assert (chars <> []) as Hne by (intros Hnil; rewrite Hnil in Hi; simpl in Hi; lia).
  pose proof (alphabet_length (default no_options options)) as Hlen. fold chars in Hlen.
  rewrite filter_map_length.
  rewrite (List.filter_ext _ (fun b => (b mod length chars =? i)%nat)).
  - rewrite count_remainder by done.
    replace (256 + length chars - 1 - i)%nat
      with ((255 - i) + 1 * length chars)%nat by lia.
    rewrite Nat.div_add by lia. reflexivity.
  - intros b. rewrite randomString_one_byte by done. fold chars.
    assert (N.to_nat (N.of_nat b mod N.of_nat (length chars)) = (b mod length chars)%nat)
      as -> by (rewrite <- Nat2N.inj_mod; apply Nat2N.id).
    assert (b mod length chars < length chars)%nat as Hj
      by (apply Nat.mod_upper_bound; lia).
    apply lookup_lt_is_Some_2 in Hj as [x Hx].
    unfold char_at. rewrite Hx.
    destruct (N.eqb_spec x c) as [->|Hxc].
    + symmetry. apply Nat.eqb_eq.
      eapply NoDup_lookup; [apply alphabet_NoDup | exact Hx | exact Hc].
    + symmetry. apply Nat.eqb_neq. intros Heq. rewrite Heq in Hx. congruence.
Qed.

Lemma randomString_modulo_bias_witness :
  length
    (List.filter
       (fun b => match randomString (fun _ => Ok [b]) (Some 1%Z) None with
                 | Ok [x] => x =? 72
                 | _ => false
                 end)
       (map N.of_nat (seq 0 256)))
  = ((255 - 7) / length (alphabet (default no_options None)) + 1)%nat.
Proof. apply (randomString_modulo_bias None 7 72). reflexivity. Defined.

(** ** Errors *)

(** X20: every operation that takes a string rejects [null], [undefined]
    and any other value that is not a string with a Validation error that
    names the operation, before it looks at anything else: [convertCase]
    before the case type, [slugify] before the separator, [similarity] and
    [verifyHash] at the first argument that is not a string. *)
Theorem invalid_input_rejected (cm : CaseMapping) (v other : value)
  (Hv : forall s, v <> VString s) :
  capitalize v = invalid_input "capitalize" v
  /\ (forall type, convertCase v type = invalid_input "convertCase" v)
  /\ trimExtraSpaces v = invalid_input "trimExtraSpaces" v
  /\ (forall allowSpaces,
        removeSpecialChars v allowSpaces = invalid_input "removeSpecialChars" v)
  /\ wordCount v = invalid_input "wordCount" v
  /\ (forall caseSensitive,
        isPalindrome v caseSensitive = invalid_input "isPalindrome" v)
  /\ similarity v other = invalid_input "similarity" v
  /\ (forall s, similarity (VString s) v = invalid_input "similarity" v)
  /\ (forall algorithm, hash v algorithm = invalid_input "hash" v)
  /\ (forall randomBytes saltRounds,
        hashWithSalt randomBytes v saltRounds = invalid_input "hashWithSalt" v)
  /\ verifyHash v other = invalid_input "verifyHash" v
  /\ (forall s, verifyHash (VString s) v = invalid_input "verifyHash" v)
  /\ base64Encode v = invalid_input "base64Encode" v
  /\ base64Decode v = invalid_input "base64Decode" v
  /\ (forall options,
        Slugify.slugify v options = Some (invalid_input "slugify" v)).
Proof.
  destruct v as [| |s|]; try (by destruct (Hv s)); repeat split; reflexivity.
Qed.

Lemma invalid_input_rejected_witness :
  capitalize (cm := latin_case) VNull = invalid_input "capitalize" VNull.
Proof.
  refine (proj1 (invalid_input_rejected latin_case VNull VUndefined _)).
  discriminate.
Defined.

Section ErrorClasses.

Lemma library_error_ok {A} (a : A) : library_error (Ok a).
Proof. intros e [=]. Qed.

Lemma library_error_throw {A} (c : error_class) (msg : string) :
  instance_of c StringUtilError = true ->
  library_error (A := A) (Throw (mk_exn c msg)).
Proof. by intros Hc e [= <-]. Qed.

Lemma library_error_try_catch {A} (body : result A) (c : error_class) msg :
  instance_of c StringUtilError = true ->
  library_error (try_catch body c msg).
Proof.
  intros Hc. destruct body; [apply library_error_ok | by apply library_error_throw].
Qed.

Lemma library_error_validated {A} (v : value) (fn : string)
  (k : jsstring -> result A) :
  (forall s, library_error (k s)) ->
  library_error (let! str := validateString v fn in k str).
Proof.
  intros Hk. destruct v; cbn [validateString bind]; try apply Hk;
    by apply library_error_throw.
Qed.

End ErrorClasses.

Lemma library_error_randomString randomBytes n options :
  library_error (randomString randomBytes n options).
Proof.
  unfold randomString.
  destruct (default 10%Z n <? 1)%Z; [by apply library_error_throw|].
  destruct (length (alphabet (default no_options options)) =? 0)%nat;
    [by apply library_error_throw|].
  by apply library_error_try_catch.
Qed.

(** X21: whatever the platform's source of random bytes does, an error
    thrown by an operation other than [slugify] is an instance of
    [StringUtilError], errors of the platform being caught and replaced,
    with one exception: [randomString] called with [null] for its options
    and a length of at least 1 throws the [TypeError] of the destructuring,
    which is outside its [try]. *)
Theorem errors_are_library_errors (cm : CaseMapping) (v w : value) :
  library_error (capitalize v)
  /\ (forall type, library_error (convertCase v type))
  /\ library_error (trimExtraSpaces v)
  /\ (forall allowSpaces, library_error (removeSpecialChars v allowSpaces))
  /\ library_error (wordCount v)
  /\ (forall caseSensitive, library_error (isPalindrome v caseSensitive))
  /\ library_error (similarity v w)
  /\ (forall randomBytes n options,
        library_error (randomString randomBytes n options))
  /\ (forall algorithm, library_error (hash v algorithm))
  /\ (forall randomBytes saltRounds,
        library_error (hashWithSalt randomBytes v saltRounds))
  /\ library_error (verifyHash v w)
  /\ library_error (base64Encode v)
  /\ library_error (base64Decode v)
  /\ (forall randomBytes n options,
        options <> OptionsNull ->
        library_error (randomString_call randomBytes n options))
  /\ (forall randomBytes n,
        (default 10 n < 1)%Z ->
        randomString_call randomBytes n OptionsNull
        = Throw (mk_exn ValidationError "Length must be positive"))
  /\ (forall randomBytes n,
        (1 <= default 10 n)%Z ->
        exists e, randomString_call randomBytes n OptionsNull = Throw e
                  /\ exn_class e = NativeError
                  /\ instance_of (exn_class e) StringUtilError = false
                  /\ ~ library_error (randomString_call randomBytes n OptionsNull)).
Proof.
  repeat match goal with |- _ /\ _ => split end; intros;
    try apply library_error_randomString;
    try (apply library_error_validated; intros s;
         try apply library_error_ok;
         try (by apply library_error_try_catch)).
  - destruct s; apply library_error_ok.
  - destruct type as [[]|]; first [apply library_error_ok | by apply library_error_throw].
  - apply library_error_validated. intros s'. apply library_error_ok.
  - apply library_error_validated. intros s'. by apply library_error_try_catch.
  - destruct options as [| |o]; [|done|]; apply library_error_randomString.
  - unfold randomString_call.
    destruct (Z.ltb_spec (default 10%Z n) 1); [reflexivity | lia].
  - unfold randomString_call.
    destruct (Z.ltb_spec (default 10%Z n) 1); [lia|].
    eexists. split; [reflexivity|]. split; [reflexivity|]. split; [reflexivity|].
    intros Hlib. specialize (Hlib _ eq_refl). discriminate.
Qed.

Lemma errors_are_library_errors_witness :
  exists e,
    randomString_call (fun _ => Ok [1; 2; 3; 4; 5]) (Some 5%Z) OptionsNull = Throw e
    /\ exn_class e = NativeError
    /\ instance_of (exn_class e) StringUtilError = false
    /\ ~ library_error
         (randomString_call (fun _ => Ok [1; 2; 3; 4; 5]) (Some 5%Z) OptionsNull).
Proof.
  destruct (errors_are_library_errors latin_case VNull VNull)
    as (_ & _ & _ & _ & _ & _ & _ & _ & _ & _ & _ & _ & _ & _ & _ & Hnull).
  apply (Hnull (fun _ => Ok [1; 2; 3; 4; 5]) (Some 5%Z)).
  simpl. lia.
Defined.

(** ** The regular expressions of convertCase *)

Section CaptureFacts.
Import RegExp.

Lemma take_head (x : N) (s : jsstring) :
  take (length (x :: s) - length s) (x :: s) = [x].
Proof.
  cbn [length]. replace (S (length s) - length s)%nat with 1%nat by lia.
  reflexivity.
Qed.

Lemma take_head2 (a x : N) (s : jsstring) :
  take (length (a :: x :: s) - length s) (a :: x :: s) = [a; x].
Proof.
  cbn [length]. replace (S (S (length s)) - length s)%nat with 2%nat by lia.
  reflexivity.
Qed.

(** [/(p)/] for a class [p] *)
Lemma exec_at_group_set p whole s :
  exec_at (RGroup (RSet p)) whole s
  = match s with
    | x :: s' =>
        if p x
        then Some ({| matched_text := [x];
                      groups_text := [Some [x]];
                      text_before := take (length whole - length s) whole;
                      text_after := s' |}, s')
        else None
    | [] => None
    end.
Proof.
  unfold exec_at. cbn [cmatch groups replicate].
  destruct s as [|x s']; [reflexivity|].
  destruct (p x); [|reflexivity].
  rewrite !take_head. reflexivity.
Qed.

(** [/sep(p)/] *)
Lemma exec_at_set_group_set sep p whole s :
  exec_at (RSeq (RSet sep) (RGroup (RSet p))) whole s
  = match s with
    | a :: x :: s' =>
        if sep a && p x
        then Some ({| matched_text := [a; x];
                      groups_text := [Some [x]];
                      text_before := take (length whole - length s) whole;
                      text_after := s' |}, s')
        else None
    | _ => None
    end.
Proof.
  unfold exec_at. cbn [cmatch groups replicate Nat.add].
  destruct s as [|a [|x s']]; [reflexivity | by destruct (sep a) |].
  destruct (sep a); [|reflexivity]. destruct (p x); [|reflexivity].
  cbn [andb]. rewrite take_head, take_head2. reflexivity.
Qed.

(** [/^(p)/] and [/^c/] match at the start only. *)
Lemma exec_at_bol_inside r whole s :
  (length s < length whole)%nat -> exec_at (RSeq RBol r) whole s = None.
Proof.
  intros Hlen. unfold exec_at. cbn [cmatch].
  by rewrite (proj2 (Nat.eqb_neq (length s) (length whole))) by lia.
Qed.

Lemma replace_first_from_bol_inside r f whole s :
  (length s < length whole)%nat ->
  replace_first_from (RSeq RBol r) f whole s = s.
Proof.
  induction s as [|c s IH]; intros Hlen; cbn [replace_first_from];
    rewrite exec_at_bol_inside by done; [reflexivity|].
  f_equal. apply IH. simpl in Hlen. lia.
Qed.

Lemma replace_first_bol r f s :
  replace_first_with (RSeq RBol r) f s
  = match exec_at (RSeq RBol r) s s with
    | Some (m, e) => f m ++ e
    | None => s
    end.
Proof.
  unfold replace_first_with. destruct s as [|c s]; cbn [replace_first_from].
  - by destruct (exec_at (RSeq RBol r) [] []) as [[m e]|].
  - destruct (exec_at (RSeq RBol r) (c :: s) (c :: s)) as [[m e]|]; [done|].
    f_equal. apply replace_first_from_bol_inside. simpl. lia.
Qed.

Lemma exec_at_first_char s :
  exec_at re_first_char s s
  = match s with
    | x :: s' =>
        if is_dot x
        then Some ({| matched_text := [x]; groups_text := [Some [x]];
                      text_before := []; text_after := s' |}, s')
        else None
    | [] => None
    end.
Proof.
  unfold exec_at, re_first_char. cbn [cmatch groups replicate Nat.add].
  rewrite Nat.eqb_refl. destruct s as [|x s']; [reflexivity|].
  destruct (is_dot x); [|reflexivity].
  rewrite !take_head, Nat.sub_diag. reflexivity.
Qed.

Lemma exec_at_leading c s :
  exec_at (re_leading c) s s
  = match s with
    | x :: s' =>
        if x =? c
        then Some ({| matched_text := [x]; groups_text := [];
                      text_before := []; text_after := s' |}, s')
        else None
    | [] => None
    end.
Proof.
  unfold exec_at, re_leading. cbn [cmatch groups replicate Nat.add].
  rewrite Nat.eqb_refl. destruct s as [|x s']; [reflexivity|].
  destruct (x =? c); [|reflexivity].
  rewrite !take_head, Nat.sub_diag. reflexivity.
Qed.

(** [s.replace(/^c/, '')] *)
Lemma replace_first_leading c s :
  replace_first_with (re_leading c) (substitute []) s = drop_leading c s.
Proof.
  unfold re_leading. rewrite replace_first_bol. fold (re_leading c).
  rewrite exec_at_leading. destruct s as [|x s]; [reflexivity|].
  cbn [drop_leading]. by destruct (x =? c).
Qed.

(** [s.replace(/^(.)/, f)] *)
Lemma replace_first_char (f : jsstring -> jsstring) s :
  replace_first_with re_first_char (fun m => f (matched_text m)) s
  = match s with
    | x :: s' => if is_dot x then f [x] ++ s' else s
    | [] => []
    end.
Proof.
  unfold re_first_char. rewrite replace_first_bol. fold re_first_char.
  rewrite exec_at_first_char. destruct s as [|x s]; [reflexivity|].
  by destruct (is_dot x).
Qed.

(** [s.replace(/([A-Z])/g, 'd$1')] *)
Lemma replace_with_from_upper d whole fuel s :
  d = 95 \/ d = 45 ->
  (length s < fuel)%nat ->
  replace_with_from re_upper_letter (substitute [d; 36; 49]) whole fuel s
  = flat_map (fun c => if is_upper c then [d; c] else [c]) s.
Proof.
  intros Hd. revert s. induction fuel as [|fuel IH]; intros s Hlen; [lia|].
  cbn [replace_with_from]. unfold re_upper_letter.
  rewrite exec_at_group_set. fold re_upper_letter.
  destruct s as [|x s]; [reflexivity|]. simpl in Hlen.
  cbn [flat_map]. destruct (is_upper x) eqn:Hx.
  - replace (length (x :: s) - length s)%nat with 1%nat by (simpl; lia).
    rewrite IH by lia.
    assert (substitute [d; 36; 49]
              {| matched_text := [x]; groups_text := [Some [x]];
                 text_before := take (length whole - length (x :: s)) whole;
                 text_after := s |} = [d; x]) as ->; [|reflexivity].
    by destruct Hd as [-> | ->].
  - cbn [app]. f_equal. apply IH. lia.
Qed.

Lemma replace_all_upper d s :
  d = 95 \/ d = 45 ->
  replace_all_with re_upper_letter (substitute [d; 36; 49]) s
  = flat_map (fun c => if is_upper c then [d; c] else [c]) s.
Proof. intros Hd. apply replace_with_from_upper; [done | lia]. Qed.

(** A global replace sees a pattern through its matches only. *)
Lemma replace_from_ext r1 r2 t whole fuel s :
  (forall n0 s, rmatch n0 r1 Some s = rmatch n0 r2 Some s) ->
  replace_from r1 t whole fuel s = replace_from r2 t whole fuel s.
Proof.
  intros Hr. revert s. induction fuel as [|fuel IH]; intros s; [reflexivity|].
  cbn [replace_from]. rewrite Hr.
  destruct (rmatch (length whole) r2 Some s) as [e|].
  - destruct (length s - length e)%nat; [destruct e|]; by rewrite ?IH.
  - destruct s; by rewrite ?IH.
Qed.

(** [s.replace(/c+/g, rep)] *)
Lemma replace_all_run c rep s :
  replace_all (re_run c) (plain rep) s = collapse (fun x => x =? c) rep s.
Proof.
  rewrite <- replace_all_plus_set. unfold replace_all, re_run.
  apply replace_from_ext. reflexivity.
Qed.

End CaptureFacts.

(** ** convertCase *)

Section Collapse.
Variable p : N -> bool.
Variable r : N.

Lemma collapse_cons_in x s :
  p x = true ->
  collapse p [r] (x :: s)
  = match s with
    | y :: _ => if p y then collapse p [r] s else r :: collapse p [r] s
    | [] => [r]
    end.
Proof. intros H. simpl. rewrite H. reflexivity. Qed.

Lemma collapse_cons_out x s :
  p x = false -> collapse p [r] (x :: s) = x :: collapse p [r] s.
Proof. intros H. simpl. rewrite H. reflexivity. Qed.

Lemma collapse_Forall (P : N -> Prop) s :
  P r -> Forall P s -> Forall P (collapse p [r] s).
Proof.
  intros Hr. induction 1 as [|x s Hx Hs IH]; [constructor|].
  destruct (p x) eqn:Hpx.
  - rewrite collapse_cons_in by done. destruct s as [|y s]; [by repeat constructor|].
    destruct (p y); [done | by constructor].
  - rewrite collapse_cons_out by done. by constructor.
Qed.

Lemma collapse_removes s :
  p r = false -> Forall (fun c => p c = false) (collapse p [r] s).
Proof.
  intros Hr. induction s as [|x s IH]; [constructor|].
  destruct (p x) eqn:Hpx.
  - rewrite collapse_cons_in by done. destruct s as [|y s]; [by repeat constructor|].
    destruct (p y); [done | by constructor].
  - rewrite collapse_cons_out by done. by constructor.
Qed.

Lemma adjacent_cons a b l :
  adjacent p (a :: b :: l) = (p a && p b) || adjacent p (b :: l).
Proof. reflexivity. Qed.

Lemma adjacent_cons_out a l : p a = false -> adjacent p (a :: l) = adjacent p l.
Proof.
  intros Ha. destruct l as [|b l]; [reflexivity|].
  by rewrite adjacent_cons, Ha.
Qed.

Lemma collapse_no_adjacent s : adjacent p (collapse p [r] s) = false.
Proof.
  induction s as [|x s IH]; [reflexivity|].
  destruct (p x) eqn:Hx.
  - rewrite collapse_cons_in by done. destruct s as [|y s]; [reflexivity|].
    destruct (p y) eqn:Hy; [done|].
    rewrite collapse_cons_out in * by done.
    by rewrite adjacent_cons, Hy, andb_false_r.
  - rewrite collapse_cons_out by done. by rewrite adjacent_cons_out.
Qed.

Lemma collapse_none s : Forall (fun c => p c = false) s -> collapse p [r] s = s.
Proof.
  induction 1 as [|x s Hx Hs IH]; [reflexivity|].
  rewrite collapse_cons_out by done. by rewrite IH.
Qed.

(** A string without neighbouring units of the class, in which the class
    is [r] alone, is left as it is. *)
Lemma collapse_fixed s :
  adjacent p s = false -> Forall (fun c => p c = true -> c = r) s ->
  collapse p [r] s = s.
Proof.
  induction s as [|x s IH]; [reflexivity|]. intros Hadj Hs.
  apply Forall_cons in Hs as [Hx Hs].
  assert (adjacent p s = false) as Hl.
  { destruct s as [|b l]; [reflexivity|].
    rewrite adjacent_cons in Hadj. by apply orb_false_iff in Hadj as [_ ?]. }
  destruct (p x) eqn:Hpx.
  - rewrite collapse_cons_in by done. rewrite (Hx eq_refl) in *.
    destruct s as [|y s]; [reflexivity|].
    rewrite adjacent_cons, Hpx in Hadj. simpl in Hadj.
    apply orb_false_iff in Hadj as [Hy _]. rewrite Hy. f_equal. by apply IH.
  - rewrite collapse_cons_out by done. f_equal. by apply IH.
Qed.

Lemma filter_collapse (q : N -> bool) s :
  q r = false -> (forall c, p c = true -> q c = false) ->
  List.filter q (collapse p [r] s) = List.filter q s.
Proof.
  intros Hr Hpq. induction s as [|x s IH]; [reflexivity|].
  destruct (p x) eqn:Hpx.
  - rewrite collapse_cons_in by done. cbn [List.filter].
    rewrite (Hpq x Hpx). destruct s as [|y s]; [simpl; by rewrite Hr|].
    destruct (p y); [done|]. cbn [List.filter] in *. by rewrite Hr, IH.
  - rewrite collapse_cons_out by done. cbn [List.filter]. by rewrite IH.
Qed.

End Collapse.

Section Delimited.

Lemma drop_leading_Forall (P : N -> Prop) d s :
  Forall P s -> Forall P (drop_leading d s).
Proof.
  destruct 1 as [|x s Hx Hs]; [constructor|]. cbn [drop_leading].
  destruct (x =? d); [done | by constructor].
Qed.

Lemma drop_leading_filter (q : N -> bool) d s :
  q d = false -> List.filter q (drop_leading d s) = List.filter q s.
Proof.
  intros Hd. destruct s as [|x s]; [reflexivity|]. cbn [drop_leading].
  destruct (N.eqb_spec x d) as [->|]; [|reflexivity].
  cbn [List.filter]. by rewrite Hd.
Qed.

Lemma drop_leading_adjacent p d s :
  adjacent p s = false -> adjacent p (drop_leading d s) = false.
Proof.
  destruct s as [|x s]; [done|]. cbn [drop_leading].
  destruct (x =? d); [|done]. destruct s as [|y s]; [done|].
  rewrite adjacent_cons. intros H. by apply orb_false_iff in H as [_ ?].
Qed.

Lemma ascii_lower_not_upper c : is_upper (ascii_lower c) = false.
Proof.
  unfold ascii_lower. destruct (is_upper c) eqn:Hc; [|done].
  unfold is_upper, in_range in *. apply andb_prop in Hc as [H1 H2].
  apply N.leb_le in H1, H2. apply andb_false_iff. right. apply N.leb_gt. lia.
Qed.

Lemma upper_facts c :
  is_upper c = true ->
  is_space c = false /\ c <> 45 /\ c <> 95 /\ is_ascii c = true
  /\ is_space (c + 32) = false /\ c + 32 <> 45 /\ c + 32 <> 95
  /\ is_ascii (c + 32) = true.
Proof.
  unfold is_upper, in_range. intros Hc. apply andb_prop in Hc as [H1 H2].
  apply N.leb_le in H1, H2.
  assert (forall x, 65 <= x <= 122 -> is_space x = false) as Hsp.
  { intros x Hx. unfold is_space, in_range.
    repeat (apply orb_false_intro);
      try (apply andb_false_iff; (left; apply N.leb_gt; lia) || (right; apply N.leb_gt; lia));
      try (apply N.eqb_neq; lia). }
  repeat split; try lia; try (apply Hsp; lia); apply N.ltb_lt; lia.
Qed.

Lemma ascii_lower_space c : is_space (ascii_lower c) = is_space c.
Proof.
  unfold ascii_lower. destruct (is_upper c) eqn:Hc; [|done].
  destruct (upper_facts c Hc) as (-> & _ & _ & _ & -> & _). done.
Qed.

Lemma ascii_lower_eq c d : d = 45 \/ d = 95 -> (ascii_lower c =? d) = (c =? d).
Proof.
  intros Hd. unfold ascii_lower. destruct (is_upper c) eqn:Hc; [|done].
  destruct (upper_facts c Hc) as (_ & ? & ? & _ & _ & ? & ? & _).
  destruct Hd as [-> | ->];
    rewrite (proj2 (N.eqb_neq _ _)), (proj2 (N.eqb_neq _ _)); done.
Qed.

Lemma ascii_lower_separator c :
  is_case_separator (ascii_lower c) = is_case_separator c.
Proof.
  unfold is_case_separator.
  by rewrite ascii_lower_space, !ascii_lower_eq by auto.
Qed.

Lemma ascii_lower_ascii c : is_ascii c = true -> is_ascii (ascii_lower c) = true.
Proof.
  intros Ha. unfold ascii_lower. destruct (is_upper c) eqn:Hc; [|done].
  by destruct (upper_facts c Hc) as (_ & _ & _ & _ & _ & _ & _ & ?).
Qed.

Lemma filter_map_lower (q : N -> bool) s :
  (forall c, q (ascii_lower c) = q c) ->
  List.filter q (map ascii_lower s) = map ascii_lower (List.filter q s).
Proof.
  intros Hq. induction s as [|x s IH]; [reflexivity|]. cbn [map List.filter].
  rewrite Hq. destruct (q x); cbn [map]; by rewrite IH.
Qed.

(** The string after [d] was put before its upper-case letters. *)
Lemma humps_ascii d s :
  is_ascii d = true -> forallb is_ascii s = true ->
  forallb is_ascii (flat_map (fun c => if is_upper c then [d; c] else [c]) s)
  = true.
Proof.
  intros Hd. induction s as [|x s IH]; [done|]. cbn [forallb flat_map].
  intros H. apply andb_prop in H as [Hx Hs].
  destruct (is_upper x); cbn [app forallb]; by rewrite ?Hd, Hx, IH.
Qed.

Lemma humps_filter (q : N -> bool) d s :
  q d = false ->
  List.filter q (flat_map (fun c => if is_upper c then [d; c] else [c]) s)
  = List.filter q s.
Proof.
  intros Hd. induction s as [|x s IH]; [reflexivity|]. cbn [flat_map].
  destruct (is_upper x); cbn [app List.filter]; by rewrite ?Hd, IH.
Qed.

Lemma collapse_ascii p d s :
  is_ascii d = true -> forallb is_ascii s = true ->
  forallb is_ascii (collapse p [d] s) = true.
Proof.
  intros Hd Hs. apply forallb_forall. intros c Hc.
  assert (Forall (fun c => is_ascii c = true) (collapse p [d] s)) as HF.
  { apply collapse_Forall; [done|]. apply Forall_forall. intros x Hx.
    rewrite forallb_forall in Hs. apply Hs. by apply list_elem_of_In. }
  rewrite Forall_forall in HF. apply HF. by apply list_elem_of_In.
Qed.

End Delimited.

Section SnakeAndKebab.
Context {cm : CaseMapping}.
Hypothesis Hlow : lower_ascii_law cm.

(** The snake and kebab forms, step by step. *)
Lemma convertCase_delimited_eq (s : jsstring) (type : CaseType) :
  type = SNAKE \/ type = KEBAB ->
  forallb is_ascii s = true ->
  convertCase (VString s) (Some type)
  = Ok (let d := delimiter type in
        let o := other_delimiter type in
        collapse (fun x => x =? d) [d]
          (drop_leading d
             (map ascii_lower
                (collapse (fun c => (c =? o) || is_space c) [d]
                   (flat_map (fun c => if is_upper c then [d; c] else [c]) s))))).
Proof.
  intros Htype Hascii. cbv zeta.
  assert (forall d o,
    d = 95 /\ o = 45 \/ d = 45 /\ o = 95 ->
    RegExp.replace_all (re_run d) (RegExp.plain [d])
      (RegExp.replace_first_with (re_leading d) (RegExp.substitute [])
         (toLowerCase
            (RegExp.replace_all
               (RegExp.RPlus (RegExp.RSet (fun c => (c =? o) || is_space c)))
               (RegExp.plain [d])
               (RegExp.replace_all_with re_upper_letter
                  (RegExp.substitute [d; 36; 49]) s))))
    = collapse (fun x => x =? d) [d]
        (drop_leading d
           (map ascii_lower
              (collapse (fun c => (c =? o) || is_space c) [d]
                 (flat_map (fun c => if is_upper c then [d; c] else [c]) s)))))
    as Hsteps.
  { intros d o Hd.
    assert (d = 95 \/ d = 45) as Hd' by tauto.
    assert (is_ascii d = true) as Hd'' by (by destruct Hd' as [-> | ->]).
    rewrite replace_all_upper, replace_all_plus_set by done.
    rewrite Hlow by (apply collapse_ascii; [done|]; by apply humps_ascii).
    by rewrite replace_first_leading, replace_all_run. }
  destruct Htype as [-> | ->]; cbn [convertCase validateString bind].
  - f_equal. apply (Hsteps 95 45). tauto.
  - f_equal. apply (Hsteps 45 95). tauto.
Qed.

End SnakeAndKebab.

(** X22: for an ASCII string, the snake form (and likewise the kebab form,
    with the hyphen and the underscore exchanged) holds no upper-case
    letter, no white space, no hyphen and no two underscores in a row; its
    other characters are those of the input, lower-cased, in their
    order. *)
Theorem convertCase_delimited (cm : CaseMapping) (Hlow : lower_ascii_law cm)
  (s : jsstring) (type : CaseType)
  (Htype : type = SNAKE \/ type = KEBAB)
  (Hascii : forallb is_ascii s = true) :
  exists t,
    convertCase (VString s) (Some type) = Ok t
    /\ Forall (fun c => is_upper c = false /\ is_space c = false
                        /\ c <> other_delimiter type) t
    /\ adjacent (fun c => c =? delimiter type) t = false
    /\ List.filter (fun c => negb (is_case_separator c)) t
       = map ascii_lower (List.filter (fun c => negb (is_case_separator c)) s).
Proof.
  eexists. split; [by apply convertCase_delimited_eq|]. cbv zeta.
  set (d := delimiter type). set (o := other_delimiter type).
  assert (d = 95 /\ o = 45 \/ d = 45 /\ o = 95) as Hdo
    by (destruct Htype as [-> | ->]; tauto).
  assert (is_upper d = false /\ is_space d = false /\ d <> o
          /\ is_case_separator d = true /\ is_case_separator o = true
          /\ (d = 45 \/ d = 95) /\ (o = 45 \/ o = 95))
    as (Hdu & Hds & Hdne & Hdsep & Hosep & Hd & Ho)
    by (destruct Hdo as [[-> ->] | [-> ->]]; repeat split; auto; discriminate).
  split; [|split].
  - apply collapse_Forall; [done|]. apply drop_leading_Forall.
    apply Forall_fmap. eapply Forall_impl; [apply (collapse_removes _ d)|].
    + by rewrite Hds, (proj2 (N.eqb_neq d o)).
    + intros c Hc. cbn. apply orb_false_iff in Hc as [Hco Hcs].
      split; [apply ascii_lower_not_upper|].
      rewrite ascii_lower_space. split; [done|].
      intros Heq. apply N.eqb_eq in Heq. rewrite ascii_lower_eq in Heq by done.
      congruence.
  - apply collapse_no_adjacent.
  - rewrite filter_collapse; cycle 1.
    { by rewrite Hdsep. }
    { intros c Hc. apply N.eqb_eq in Hc as ->. by rewrite Hdsep. }
    rewrite drop_leading_filter by (by rewrite Hdsep).
    rewrite filter_map_lower by (intros c; by rewrite ascii_lower_separator).
    f_equal. rewrite filter_collapse; cycle 1.
    { by rewrite Hdsep. }
    { intros c Hc. unfold is_case_separator.
      apply orb_prop in Hc as [Hc|Hc].
      - apply N.eqb_eq in Hc as ->. by destruct Ho as [-> | ->].
      - rewrite Hc. by rewrite orb_true_r. }
    apply humps_filter. by rewrite Hdsep.
Qed.

Lemma convertCase_delimited_witness :
  exists t,
    convertCase (cm := latin_case) (VString (lit "XMLHttp - request_id")) (Some KEBAB) = Ok t
    /\ Forall (fun c => is_upper c = false /\ is_space c = false
                        /\ c <> other_delimiter KEBAB) t
    /\ adjacent (fun c => c =? delimiter KEBAB) t = false
    /\ List.filter (fun c => negb (is_case_separator c)) t
       = map ascii_lower
           (List.filter (fun c => negb (is_case_separator c))
              (lit "XMLHttp - request_id")).
Proof.
  apply (convertCase_delimited latin_case latin_lower_ascii
           (lit "XMLHttp - request_id") KEBAB).
  - by right.
  - reflexivity.
Defined.

Section Humps.

Lemma humps_no_separator (q : N -> bool) d s :
  q d = false -> Forall (fun c => q c = false) s ->
  Forall (fun c => q c = false)
    (flat_map (fun c => if is_upper c then [d; c] else [c]) s).
Proof.
  intros Hd. induction 1 as [|x s Hx Hs IH]; [constructor|]. cbn [flat_map].
  destruct (is_upper x); cbn [app]; repeat constructor; done.
Qed.

Lemma map_lower_humps d s :
  is_upper d = false ->
  map ascii_lower (flat_map (fun c => if is_upper c then [d; c] else [c]) s)
  = split_humps d s.
Proof.
  intros Hd. unfold split_humps. induction s as [|x s IH]; [reflexivity|].
  cbn [flat_map]. rewrite map_app, IH. f_equal.
  destruct (is_upper x) eqn:Hx; cbn [map]; unfold ascii_lower at 1.
  - by rewrite Hd.
  - by rewrite Hx.
Qed.

Lemma split_humps_adjacent d s :
  is_upper d = false -> d = 45 \/ d = 95 ->
  Forall (fun c => (c =? d) = false) s ->
  adjacent (fun c => c =? d) (split_humps d s) = false.
Proof.
  intros Hdu Hd. unfold split_humps.
  induction 1 as [|x s Hx Hs IH]; [reflexivity|]. cbn [flat_map].
  destruct (is_upper x) eqn:Hux; cbn [app].
  - rewrite adjacent_cons. rewrite ascii_lower_eq, Hx, andb_false_r by done.
    rewrite adjacent_cons_out; [done|]. by rewrite ascii_lower_eq, Hx.
  - by rewrite adjacent_cons_out.
Qed.

End Humps.

(** X23: for an ASCII string without hyphens, underscores and white space,
    such as a camel-case name, the snake form is the string with an
    underscore put before every upper-case letter and the letter
    lower-cased, less a leading underscore; the kebab form likewise with
    hyphens. *)
Theorem convertCase_humps (cm : CaseMapping) (Hlow : lower_ascii_law cm)
  (s : jsstring) (type : CaseType)
  (Htype : type = SNAKE \/ type = KEBAB)
  (Hascii : forallb is_ascii s = true)
  (Hplain : forallb (fun c => negb (is_case_separator c)) s = true) :
  convertCase (VString s) (Some type)
  = Ok (drop_leading (delimiter type) (split_humps (delimiter type) s)).
Proof.
  rewrite convertCase_delimited_eq by done. cbv zeta. f_equal.
  set (d := delimiter type). set (o := other_delimiter type).
  assert (d = 95 /\ o = 45 \/ d = 45 /\ o = 95) as Hdo
    by (destruct Htype as [-> | ->]; tauto).
  assert (is_upper d = false /\ is_space d = false /\ d <> o
          /\ (d = 45 \/ d = 95) /\ (o = 45 \/ o = 95))
    as (Hdu & Hds & Hdne & Hd & Ho)
    by (destruct Hdo as [[-> ->] | [-> ->]]; repeat split; auto; discriminate).
  assert (Forall (fun c => is_case_separator c = false) s) as Hsep.
  { apply Forall_forall. intros c Hc. rewrite forallb_forall in Hplain.
    apply negb_true_iff, Hplain. by apply list_elem_of_In. }
  rewrite (collapse_none (fun c => (c =? o) || is_space c)).
  - rewrite map_lower_humps by done.
    apply collapse_fixed.
    + apply drop_leading_adjacent, split_humps_adjacent; [done | done |].
      eapply Forall_impl; [exact Hsep|]. intros c Hc. cbn.
      unfold is_case_separator in Hc.
      apply orb_false_iff in Hc as [Hc _]. apply orb_false_iff in Hc as [H1 H2].
      by destruct Hd as [-> | ->].
    + apply Forall_forall. intros c _ Hc. by apply N.eqb_eq in Hc.
  - apply humps_no_separator; [by rewrite Hds, (proj2 (N.eqb_neq d o))|].
    eapply Forall_impl; [exact Hsep|]. intros c Hc. cbn.
    unfold is_case_separator in Hc.
    apply orb_false_iff in Hc as [Hc ->]. apply orb_false_iff in Hc as [H1 H2].
    rewrite orb_false_r. by destruct Ho as [-> | ->].
Qed.

Lemma convertCase_humps_witness :
  convertCase (cm := latin_case) (VString (lit "parseHTTPHeader2")) (Some SNAKE)
  = Ok (drop_leading (delimiter SNAKE)
          (split_humps (delimiter SNAKE) (lit "parseHTTPHeader2"))).
Proof.
  apply (convertCase_humps latin_case latin_lower_ascii (lit "parseHTTPHeader2") SNAKE).
  - by left.
  - reflexivity.
  - reflexivity.
Defined.

(** ** Camel and Pascal case *)

Section Words.
Context {cm : CaseMapping}.
Import RegExp.

Lemma separator_not_dot x : is_case_separator x = false -> is_dot x = true.
Proof.
  unfold is_case_separator, is_dot. intros H.
  apply orb_false_iff in H as [_ H]. apply negb_true_iff.
  destruct (is_line_terminator x) eqn:Hlt; [|reflexivity].
  unfold is_line_terminator in Hlt.
  repeat (apply orb_prop in Hlt as [Hlt|Hlt]);
    apply N.eqb_eq in Hlt; subst x; discriminate.
Qed.

Lemma plain_word_inv w :
  is_plain_word w = true ->
  exists x w', w = x :: w' /\ Forall (fun c => is_case_separator c = false) w.
Proof.
  unfold is_plain_word. intros H. apply andb_prop in H as [Hne Hall].
  destruct w as [|x w']; [done|]. exists x, w'. split; [done|].
  apply Forall_forall. intros c Hc. rewrite forallb_forall in Hall.
  apply negb_true_iff, Hall. by apply list_elem_of_In.
Qed.

Lemma exec_at_separator whole s :
  exec_at re_separator_then_char whole s
  = match s with
    | a :: x :: s' =>
        if is_case_separator a && is_dot x
        then Some ({| matched_text := [a; x];
                      groups_text := [Some [x]];
                      text_before := take (length whole - length s) whole;
                      text_after := s' |}, s')
        else None
    | _ => None
    end.
Proof. unfold re_separator_then_char. by rewrite exec_at_set_group_set. Qed.

Lemma exec_at_separator_none whole a s :
  is_case_separator a = false ->
  exec_at re_separator_then_char whole (a :: s) = None.
Proof. intros Ha. rewrite exec_at_separator, Ha. by destruct s. Qed.

(** The first replace of the camel and Pascal forms on separated
    words: every word but the first gets its first unit upper-cased, and
    the separators go. *)
Lemma replace_separators whole rest :
  forallb (fun p => is_case_separator (fst p) && is_plain_word (snd p)) rest = true ->
  forall w fuel,
    Forall (fun c => is_case_separator c = false) w ->
    (length (separated w rest) < fuel)%nat ->
    replace_with_from re_separator_then_char
      (fun m => toUpperCase (capture m 1)) whole fuel (separated w rest)
    = w ++ flat_map (fun p => upper_first (snd p)) rest.
Proof.
  unfold separated.
  induction rest as [|[c word] rest IHrest]; intros Hrest.
  - induction w as [|y w IHw]; intros fuel Hw Hlen.
    + destruct fuel; [simpl in Hlen; lia | reflexivity].
    + destruct fuel as [|fuel]; [simpl in Hlen; lia|].
      apply Forall_cons in Hw as [Hy Hw].
      cbn [replace_with_from flat_map app].
      rewrite exec_at_separator_none by done.
      f_equal. apply (IHw fuel Hw). simpl in Hlen. simpl. lia.
  - cbn [forallb fst snd] in Hrest. apply andb_prop in Hrest as [Hhead Hrest].
    apply andb_prop in Hhead as [Hc Hword].
    destruct (plain_word_inv word Hword) as (x & word' & -> & Hwordsep).
    apply Forall_cons in Hwordsep as [Hx Hword'].
    induction w as [|y w IHw]; intros fuel Hw Hlen.
    + destruct fuel as [|fuel]; [simpl in Hlen; lia|].
      cbn [replace_with_from flat_map app fst snd].
      rewrite exec_at_separator, Hc, (separator_not_dot x Hx). cbn [andb].
      replace (length (c :: x :: word' ++ flat_map (fun p => fst p :: snd p) rest)
               - length (word' ++ flat_map (fun p => fst p :: snd p) rest))%nat
        with 2%nat by (simpl; lia).
      cbn [capture groups_text lookup list_lookup upper_first].
      rewrite <- app_assoc. f_equal.
      apply (IHrest Hrest word' fuel Hword'). simpl in Hlen.
      rewrite length_app in *. simpl in *. lia.
    + destruct fuel as [|fuel]; [simpl in Hlen; lia|].
      apply Forall_cons in Hw as [Hy Hw].
      cbn [replace_with_from app].
      rewrite exec_at_separator_none by done.
      f_equal. apply (IHw fuel Hw). simpl in Hlen. simpl. lia.
Qed.

End Words.

(** X24: on words without hyphens, underscores and white space, written
    one after the other with one such separator between them, the Pascal
    form is the words with their first units upper-cased and the
    separators left out; the camel form is the same with the first unit of
    the string lower-cased instead.  On a single word the Pascal form is
    what [capitalize] gives. *)
Theorem convertCase_words (cm : CaseMapping) (first : jsstring)
  (rest : list (N * jsstring))
  (Hfirst : is_plain_word first = true)
  (Hrest : forallb (fun p => is_case_separator (fst p) && is_plain_word (snd p))
             rest = true) :
  convertCase (VString (separated first rest)) (Some PASCAL)
  = Ok (upper_first first ++ flat_map (fun p => upper_first (snd p)) rest)
  /\ convertCase (VString (separated first rest)) (Some CAMEL)
     = Ok (lower_first first ++ flat_map (fun p => upper_first (snd p)) rest)
  /\ convertCase (VString first) (Some PASCAL) = capitalize (VString first).
Proof.
  destruct (plain_word_inv first Hfirst) as (x & w & -> & Hsep).
  pose proof Hsep as Hsep'. apply Forall_cons in Hsep' as [Hx Hw].
  assert (forall rest,
    forallb (fun p => is_case_separator (fst p) && is_plain_word (snd p)) rest = true ->
    RegExp.replace_all_with re_separator_then_char
      (fun m => toUpperCase (RegExp.capture m 1)) (separated (x :: w) rest)
    = (x :: w) ++ flat_map (fun p => upper_first (snd p)) rest) as Hfirst_step.
  { intros rest' Hrest'. unfold RegExp.replace_all_with.
    apply replace_separators; [done | done | lia]. }
  cbn [convertCase validateString bind capitalize].
  rewrite !Hfirst_step by done.
  pose proof (Hfirst_step [] eq_refl) as Hsingle.
  unfold separated in Hsingle. cbn [flat_map] in Hsingle.
  rewrite !app_nil_r in Hsingle. rewrite Hsingle.
  rewrite !(replace_first_char toUpperCase), (replace_first_char toLowerCase).
  cbn [app]. rewrite (separator_not_dot x Hx).
  cbn [upper_first lower_first]. by rewrite <- !app_assoc.
Qed.

Lemma convertCase_words_witness :
  convertCase (cm := latin_case)
    (VString (separated (lit "user") [(95, lit "first"); (32, lit "name")]))
    (Some PASCAL)
  = Ok (upper_first (cm := latin_case) (lit "user")
        ++ flat_map (fun p => upper_first (cm := latin_case) (snd p))
             [(95, lit "first"); (32, lit "name")]).
Proof.
  refine (proj1 (convertCase_words latin_case (lit "user")
                   [(95, lit "first"); (32, lit "name")] _ _)); reflexivity.
Defined.

(** ** slugify with the separator "-" *)

Section Edges.
Import RegExp.
Variable d : N.
Hypothesis Hplain : is_syntax_char d = false.

(** [/^d|d$/g], as [new RegExp] reads it. *)
Let edges : regex :=
  RAlt (RSeq RBol (RSeq (RChar d) REmpty))
       (RSeq (RChar d) (RSeq REol REmpty)).

Lemma plain_char_tests :
  (d =? 124) = false /\ (d =? 41) = false /\ (d =? 94) = false
  /\ (d =? 36) = false /\ is_quantifier d = false /\ (d =? 46) = false
  /\ (d =? 92) = false /\ (d =? 40) = false.
Proof.
  unfold is_syntax_char in Hplain. cbn [existsb] in Hplain.
  repeat (apply orb_false_iff in Hplain as [? Hplain]).
  unfold is_quantifier. repeat split; try assumption.
  repeat (apply orb_false_intro); assumption.
Qed.

Lemma parse_terms_plain fuel rest :
  parse_terms (S fuel) (d :: rest) = and_then (quantified (RChar d) rest) fuel.
Proof.
  destruct plain_char_tests as (H1 & H2 & H3 & H4 & H5 & H6 & H7 & H8).
  cbn [parse_terms].
  rewrite H1, H2, H3, H4, H5, H6, H7, H8, Hplain. reflexivity.
Qed.

Lemma parse_terms_nil fuel : parse_terms (S fuel) [] = Parsed REmpty [].
Proof. reflexivity. Qed.

Lemma parse_terms_bar fuel rest :
  parse_terms (S fuel) (124 :: rest) = Parsed REmpty (124 :: rest).
Proof. reflexivity. Qed.

Lemma parse_terms_bol fuel rest :
  parse_terms (S fuel) (94 :: rest) = and_then (Parsed RBol rest) fuel.
Proof. reflexivity. Qed.

Lemma parse_terms_eol fuel rest :
  parse_terms (S fuel) (36 :: rest) = and_then (Parsed REol rest) fuel.
Proof. reflexivity. Qed.

Lemma parse_disjunction_step fuel s :
  parse_disjunction (S fuel) s
  = match parse_terms fuel s with
    | Parsed r1 (124 :: rest) =>
        match parse_disjunction fuel rest with
        | Parsed r2 rest' => Parsed (RAlt r1 r2) rest'
        | SyntaxErr => SyntaxErr
        | Unsupported => Unsupported
        end
    | other => other
    end.
Proof. reflexivity. Qed.

Lemma compile_run :
  compile ([d] ++ lit "+") = Compiled (RSeq (RPlus (RChar d)) REmpty).
Proof.
  unfold compile. change ([d] ++ lit "+") with [d; 43].
  cbn [length Nat.mul Nat.add].
  rewrite parse_disjunction_step, parse_terms_plain.
  change (quantified (RChar d) [43]) with (Parsed (RPlus (RChar d)) []).
  unfold and_then. rewrite parse_terms_nil. reflexivity.
Qed.

Lemma compile_edges :
  compile (lit "^" ++ [d] ++ lit "|" ++ [d] ++ lit "$") = Compiled edges.
Proof.
  destruct plain_char_tests as (H1 & H2 & H3 & H4 & H5 & H6 & H7 & H8).
  unfold compile.
  change (lit "^" ++ [d] ++ lit "|" ++ [d] ++ lit "$") with [94; d; 124; d; 36].
  cbn [length Nat.mul Nat.add].
  rewrite parse_disjunction_step, parse_terms_bol. unfold and_then at 1.
  rewrite parse_terms_plain.
  change (quantified (RChar d) [124; d; 36]) with (Parsed (RChar d) [124; d; 36]).
  unfold and_then at 1. rewrite parse_terms_bar.
  rewrite parse_disjunction_step, parse_terms_plain.
  change (quantified (RChar d) [36]) with (Parsed (RChar d) [36]).
  unfold and_then at 1. rewrite parse_terms_eol. unfold and_then.
  rewrite parse_terms_nil. reflexivity.
Qed.

Lemma compile_template_plain n : compile_template n [d] = Some (plain [d]).
Proof.
  destruct plain_char_tests as (_ & _ & _ & H4 & _).
  cbn [compile_template]. destruct d as [|q]; [reflexivity|].
  repeat (destruct q as [q|q|]; try reflexivity); discriminate.
Qed.

Lemma replace_from_nil r t (whole : jsstring) fuel :
  rmatch (length whole) r Some [] = None ->
  replace_from r t whole fuel [] = [].
Proof. intros H. destruct fuel; [reflexivity|]. cbn [replace_from]. by rewrite H. Qed.

Lemma rmatch_edges_inside (whole s : jsstring) :
  (length s < length whole)%nat ->
  rmatch (length whole) edges Some s
  = match s with
    | [c] => if c =? d then Some [] else None
    | _ => None
    end.
Proof.
  intros Hlen. unfold edges. cbn [rmatch].
  rewrite (proj2 (Nat.eqb_neq (length s) (length whole))) by lia.
  destruct s as [|c [|y s]]; [reflexivity | by destruct (c =? d) |].
  by destruct (c =? d).
Qed.

Lemma replace_from_edges_inside (whole : jsstring) fuel (s : jsstring) :
  (length s < fuel)%nat -> (length s < length whole)%nat ->
  replace_from edges (plain []) whole fuel s = strip_trailing d s.
Proof.
  revert s. induction fuel as [|fuel IH]; intros s Hfuel Hlen; [lia|].
  cbn [replace_from]. rewrite rmatch_edges_inside by done.
  destruct s as [|c [|y s]]; [reflexivity | |].
  - assert (replace_from edges (plain []) whole fuel [] = []) as Hnil.
    { apply replace_from_nil. rewrite rmatch_edges_inside; [done|].
      simpl in *. lia. }
    cbn [strip_trailing]. destruct (c =? d); [|by rewrite Hnil].
    cbn [length Nat.sub]. by rewrite expand_plain.
  - cbn [strip_trailing]. f_equal. apply IH; simpl in *; lia.
Qed.

Lemma replace_all_edges s :
  replace_all edges (plain []) s = strip_trailing d (drop_leading d s).
Proof.
  unfold replace_all. cbn [replace_from]. destruct s as [|c s]; [reflexivity|].
  unfold edges at 1. cbn [rmatch]. rewrite Nat.eqb_refl. cbn [drop_leading].
  destruct (c =? d) eqn:Hc.
  - replace (length (c :: s) - length s)%nat with 1%nat by (simpl; lia).
    rewrite expand_plain. apply replace_from_edges_inside; simpl; lia.
  - fold edges. rewrite replace_from_edges_inside by (simpl; lia).
    cbn [strip_trailing]. rewrite Hc. by destruct s.
Qed.

Lemma replace_all_separators s :
  replace_all (RSeq (RPlus (RChar d)) REmpty) (plain [d]) s
  = collapse (fun c => c =? d) [d] s.
Proof.
  rewrite <- replace_all_plus_set. unfold replace_all.
  apply replace_from_ext. reflexivity.
Qed.

Lemma slugify_steps {cm : CaseMapping} (s : jsstring)
  (options : option Slugify.SlugifyOptions) :
  default (lit "-") (Slugify.separator (default Slugify.no_options options))
  = [d] ->
  Slugify.slugify (VString s) options
  = Some (Ok (slug_of d
                (let o := default Slugify.no_options options in
                 let result :=
                   if default true (Slugify.lowercase o)
                   then toLowerCase s else s in
                 if default false (Slugify.removeStopWords o)
                 then join (lit " ")
                        (filter (fun word => toLowerCase word ∉ Slugify.stopWords)
                           (split_on 32 result))
                 else result))).
Proof.
  intros Hsep. unfold Slugify.slugify. cbn [validateString]. rewrite Hsep.
  cbv zeta. rewrite compile_template_plain. cbn [mbind option_bind].
  rewrite compile_run. cbv iota.
  rewrite compile_template_plain. cbn [mbind option_bind].
  rewrite compile_edges. cbv iota.
  rewrite replace_all_edges, replace_all_separators.
  unfold re_spaces. rewrite replace_all_plus_set.
  unfold Slugify.re_special. rewrite replace_all_set_empty.
  unfold slug_of. do 6 f_equal.
  apply List.filter_ext. intros c. by rewrite negb_involutive.
Qed.

End Edges.

Section SlugForm.

Lemma strip_trailing_Forall (P : N -> Prop) d s :
  Forall P s -> Forall P (strip_trailing d s).
Proof.
  induction 1 as [|x s Hx Hs IH]; [constructor|]. cbn [strip_trailing].
  destruct s as [|y s]; [destruct (x =? d); by repeat constructor|].
  by constructor.
Qed.

Lemma strip_trailing_adjacent p d s :
  adjacent p s = false -> adjacent p (strip_trailing d s) = false.
Proof.
  induction s as [|x s IH]; [done|]. intros Hadj. cbn [strip_trailing].
  destruct s as [|y s]; [by destruct (x =? d)|].
  rewrite adjacent_cons in Hadj. apply orb_false_iff in Hadj as [Hxy Hs].
  specialize (IH Hs). cbn [strip_trailing] in *.
  destruct s as [|z s].
  - destruct (y =? d); [reflexivity|]. by rewrite adjacent_cons, Hxy.
  - by rewrite adjacent_cons, Hxy.
Qed.

Lemma strip_trailing_head d s c :
  head (strip_trailing d s) = Some c -> head s = Some c.
Proof.
  destruct s as [|x [|y s]]; cbn [strip_trailing]; [done | | done].
  by destruct (x =? d).
Qed.

Lemma strip_trailing_last d s :
  adjacent (fun c => c =? d) s = false -> last (strip_trailing d s) <> Some d.
Proof.
  induction s as [|x s IH]; [done|]. intros Hadj. cbn [strip_trailing].
  destruct s as [|y s].
  - destruct (N.eqb_spec x d); [done|]. cbn. congruence.
  - rewrite adjacent_cons in Hadj. apply orb_false_iff in Hadj as [Hxy Hs].
    specialize (IH Hs). cbn [strip_trailing] in *.
    destruct s as [|z s].
    + destruct (y =? d) eqn:Hy.
      * rewrite andb_true_r in Hxy. cbn. intros [= Hx].
        apply N.eqb_neq in Hxy. congruence.
      * exact IH.
    + exact IH.
Qed.

Lemma drop_leading_head d s :
  adjacent (fun c => c =? d) s = false -> head (drop_leading d s) <> Some d.
Proof.
  destruct s as [|x s]; [done|]. cbn [drop_leading]. intros Hadj.
  destruct (N.eqb_spec x d) as [->|Hx]; [|cbn; congruence].
  destruct s as [|y s]; [done|]. rewrite adjacent_cons, N.eqb_refl in Hadj.
  cbn in *. destruct (N.eqb_spec y d); [done | congruence].
Qed.

Lemma strip_trailing_id d s : last s <> Some d -> strip_trailing d s = s.
Proof.
  induction s as [|x s IH]; [done|]. intros Hlast. cbn [strip_trailing].
  destruct s as [|y s].
  - destruct (N.eqb_spec x d) as [->|]; [done | reflexivity].
  - f_equal. apply IH. by rewrite last_cons_cons in Hlast.
Qed.

Lemma drop_leading_id d s : head s <> Some d -> drop_leading d s = s.
Proof.
  destruct s as [|x s]; [done|]. cbn. intros Hx.
  destruct (N.eqb_spec x d); congruence.
Qed.

Lemma printable_not_space x : 33 <= x <= 159 -> is_space x = false.
Proof.
  intros Hx. unfold is_space, in_range.
  repeat (apply orb_false_intro);
    try (apply andb_false_iff; (left; apply N.leb_gt; lia) || (right; apply N.leb_gt; lia));
    try (apply N.eqb_neq; lia).
Qed.

Lemma word_not_space c : is_word c = true -> is_space c = false.
Proof.
  intros H. apply printable_not_space.
  unfold is_word, is_alnum, is_lower, is_upper, is_digit, in_range in H.
  repeat (apply orb_prop in H as [H|H]);
    try (apply andb_prop in H as [H1 H2]; apply N.leb_le in H1, H2; lia).
  apply N.eqb_eq in H. lia.
Qed.

Lemma slug_char_not_space c : is_slug_char c = true -> is_space c = false.
Proof.
  unfold is_slug_char. intros H. apply orb_prop in H as [H|H].
  - by apply word_not_space.
  - apply N.eqb_eq in H as ->. reflexivity.
Qed.

End SlugForm.

Section SlugOf.

Lemma filter_Forall_bool (f : N -> bool) (l : jsstring) :
  Forall (fun c => f c = true) (List.filter f l).
Proof.
  apply Forall_forall. intros c Hc. apply list_elem_of_In in Hc.
  by apply List.filter_In in Hc as [_ ?].
Qed.

Lemma filter_preserves (P : N -> Prop) (f : N -> bool) (l : jsstring) :
  Forall P l -> Forall P (List.filter f l).
Proof.
  induction 1 as [|x l Hx Hl IH]; [constructor|]. cbn [List.filter].
  destruct (f x); [by constructor | done].
Qed.

Lemma filter_all (f : N -> bool) (l : jsstring) :
  Forall (fun c => f c = true) l -> List.filter f l = l.
Proof.
  induction 1 as [|x l Hx Hl IH]; [reflexivity|]. cbn [List.filter].
  by rewrite Hx, IH.
Qed.

Lemma slug_of_Forall (P : N -> Prop) d r :
  P d -> Forall P r -> Forall P (slug_of d r).
Proof.
  intros Hd Hr. unfold slug_of.
  apply strip_trailing_Forall, drop_leading_Forall.
  apply collapse_Forall; [done|]. apply collapse_Forall; [done|].
  by apply filter_preserves.
Qed.

Lemma slug_of_form d r :
  is_space d = false ->
  Forall (fun c => is_word c = true \/ c = 45 \/ c = d) (slug_of d r)
  /\ adjacent (fun c => c =? d) (slug_of d r) = false
  /\ head (slug_of d r) <> Some d
  /\ last (slug_of d r) <> Some d.
Proof.
  intros Hspace. unfold slug_of.
  set (kept := List.filter (fun c => is_word c || is_space c || (c =? 45)) r).
  set (spaced := collapse is_space [d] kept).
  set (single := collapse (fun c => c =? d) [d] spaced).
  assert (adjacent (fun c => c =? d) single = false) as Hadj
    by apply collapse_no_adjacent.
  assert (adjacent (fun c => c =? d) (drop_leading d single) = false) as Hadj'
    by (by apply drop_leading_adjacent).
  split; [|split; [|split]].
  - apply strip_trailing_Forall, drop_leading_Forall.
    apply collapse_Forall; [by auto|].
    assert (Forall (fun c => (is_word c || is_space c || (c =? 45)) = true
                             \/ c = d) spaced) as Hkept.
    { apply collapse_Forall; [by right|].
      eapply Forall_impl; [apply filter_Forall_bool|]. by left. }
    assert (Forall (fun c => is_space c = false) spaced) as Hnospace
      by (by apply collapse_removes).
    rewrite Forall_forall in Hkept, Hnospace. apply Forall_forall. intros c Hc.
    specialize (Hnospace c Hc). destruct (Hkept c Hc) as [Hk|Hk]; [|by auto].
    rewrite Hnospace, orb_false_r in Hk. apply orb_prop in Hk as [Hk|Hk]; [by auto|].
    apply N.eqb_eq in Hk. by auto.
  - by apply strip_trailing_adjacent.
  - intros Hhead. apply strip_trailing_head in Hhead.
    by apply (drop_leading_head d single).
  - by apply strip_trailing_last.
Qed.

Lemma slug_of_fixed t :
  Forall (fun c => is_slug_char c = true) t ->
  adjacent (fun c => c =? 45) t = false ->
  head t <> Some 45 -> last t <> Some 45 ->
  slug_of 45 t = t.
Proof.
  intros Hchars Hadj Hhead Hlast. unfold slug_of.
  rewrite filter_all.
  - rewrite (collapse_none is_space).
    + rewrite collapse_fixed.
      * by rewrite drop_leading_id, strip_trailing_id.
      * done.
      * apply Forall_forall. intros c _ Hc. by apply N.eqb_eq in Hc.
    + eapply Forall_impl; [exact Hchars|]. intros c. apply slug_char_not_space.
  - eapply Forall_impl; [exact Hchars|]. intros c. unfold is_slug_char.
    intros H. apply orb_prop in H as [-> | ->]; [done|]. by rewrite orb_true_r.
Qed.

End SlugOf.

(** X25: with a separator of one character that has no meaning in a
    pattern and is not white space, the default ["-"] among them, and
    whatever the other options, [slugify] returns word characters, hyphens
    and separators only, with no two separators in a row and no separator
    at either end. *)
Theorem slugify_slug (cm : CaseMapping) (s : jsstring)
  (options : option Slugify.SlugifyOptions) (d : N)
  (Hsep : default (lit "-")
            (Slugify.separator (default Slugify.no_options options))
          = [d])
  (Hplain : RegExp.is_syntax_char d = false)
  (Hspace : is_space d = false) :
  exists slug,
    Slugify.slugify (VString s) options = Some (Ok slug)
    /\ Forall (fun c => is_word c = true \/ c = 45 \/ c = d) slug
    /\ adjacent (fun c => c =? d) slug = false
    /\ head slug <> Some d
    /\ last slug <> Some d.
Proof.
  eexists. split; [by apply slugify_steps|]. by apply slug_of_form.
Qed.

Lemma slugify_slug_witness :
  exists slug,
    Slugify.slugify (cm := latin_case) (VString (lit " __The  (quick) fox!_ "))
      (Some {| Slugify.lowercase := Some false;
               Slugify.separator := Some (lit "_");
               Slugify.removeStopWords := Some true |})
    = Some (Ok slug)
    /\ Forall (fun c => is_word c = true \/ c = 45 \/ c = 95) slug
    /\ adjacent (fun c => c =? 95) slug = false
    /\ head slug <> Some 95
    /\ last slug <> Some 95.
Proof.
  apply (slugify_slug latin_case (lit " __The  (quick) fox!_ ")
           (Some {| Slugify.lowercase := Some false;
                    Slugify.separator := Some (lit "_");
                    Slugify.removeStopWords := Some true |}) 95);
    reflexivity.
Defined.

(** X26: with the default separator and without the removal of stop words,
    [slugify] leaves the slug of an ASCII string as it is: slugifying
    twice is slugifying once. *)
Theorem slugify_idempotent (cm : CaseMapping) (Hlow : lower_ascii_law cm)
  (s : jsstring) (options : option Slugify.SlugifyOptions)
  (Hsep : default (lit "-")
            (Slugify.separator (default Slugify.no_options options))
          = lit "-")
  (Hstop : default false
             (Slugify.removeStopWords (default Slugify.no_options options))
           = false)
  (Hascii : forallb is_ascii s = true) :
  exists slug,
    Slugify.slugify (VString s) options = Some (Ok slug)
    /\ Slugify.slugify (VString slug) options = Some (Ok slug).
Proof.
  assert (forall r, Forall (fun c => is_slug_char c = true) (slug_of 45 r)) as Hchars.
  { intros r. destruct (slug_of_form 45 r eq_refl) as (Hc & _).
    eapply Forall_impl; [exact Hc|]. intros c. unfold is_slug_char.
    intros [-> |[-> | ->]]; done. }
  eexists. split; [by apply (slugify_steps 45)|].
  rewrite (slugify_steps 45) by done. cbv zeta. rewrite Hstop.
  do 2 f_equal.
  destruct (default true (Slugify.lowercase (default Slugify.no_options options))).
  - rewrite (Hlow s) by done.
    set (slug := slug_of 45 (map ascii_lower s)).
    destruct (slug_of_form 45 (map ascii_lower s) eq_refl) as (_ & Ha & Hh & Hl).
    pose proof (Hchars (map ascii_lower s)) as Hc.
    fold slug in Hc, Ha, Hh, Hl.
    assert (Forall (fun c => is_upper c = false) slug) as Hnoupper.
    { apply slug_of_Forall; [done|]. apply Forall_fmap, Forall_forall.
      intros c _. apply ascii_lower_not_upper. }
    assert (toLowerCase slug = slug) as ->; [|by apply slug_of_fixed].
    rewrite Hlow.
    + clear -Hnoupper. induction Hnoupper as [|x l Hx Hl IH]; [done|].
      cbn [map]. rewrite IH. unfold ascii_lower. by rewrite Hx.
    + apply forallb_forall. intros c Hin. apply list_elem_of_In in Hin.
      rewrite Forall_forall in Hc. specialize (Hc c Hin).
      unfold is_slug_char in Hc. apply orb_prop in Hc as [Hc|Hc].
      * by apply word_is_ascii.
      * apply N.eqb_eq in Hc as ->. reflexivity.
  - destruct (slug_of_form 45 s eq_refl) as (_ & Ha & Hh & Hl).
    by apply slug_of_fixed.
Qed.

Lemma slugify_idempotent_witness :
  exists slug,
    Slugify.slugify (cm := latin_case) (VString (lit "Hello & World!")) None
    = Some (Ok slug)
    /\ Slugify.slugify (cm := latin_case) (VString slug) None = Some (Ok slug).
Proof.
  apply (slugify_idempotent latin_case latin_lower_ascii (lit "Hello & World!") None);
    reflexivity.
Defined.

(** ** More on trimExtraSpaces *)

Section TrimText.

Lemma skip_filter (p q : N -> bool) s :
  (forall c, p c = true -> q c = false) ->
  List.filter q (skip p s) = List.filter q s.
Proof.
  intros Hpq. induction s as [|x s IH]; [reflexivity|]. cbn [skip].
  destruct (p x) eqn:Hx; [|reflexivity].
  cbn [List.filter]. by rewrite (Hpq x Hx).
Qed.

Lemma trim_filter (q : N -> bool) s :
  (forall c, is_space c = true -> q c = false) ->
  List.filter q (trim s) = List.filter q s.
Proof.
  intros Hq. unfold trim.
  rewrite list_filter_reverse, skip_filter by done.
  by rewrite list_filter_reverse, reverse_involutive, skip_filter.
Qed.

Lemma collapse_length p r s : (length (collapse p [r] s) <= length s)%nat.
Proof.
  induction s as [|x s IH]; [done|].
  destruct (p x) eqn:Hx.
  - rewrite collapse_cons_in by done. destruct s as [|y s]; [done|].
    destruct (p y); simpl in *; lia.
  - rewrite collapse_cons_out by done. simpl. lia.
Qed.

Lemma trim_length s : (length (trim s) <= length s)%nat.
Proof.
  unfold trim. rewrite length_reverse.
  etrans; [apply skip_length|]. rewrite length_reverse. apply skip_length.
Qed.

End TrimText.

(** X27: [trimExtraSpaces] changes white space only: the other units of
    the result are those of the input, in their order; the white space
    left is U+0020; and the result is not longer than the input. *)
Theorem trimExtraSpaces_text (s : jsstring) :
  exists t,
    trimExtraSpaces (VString s) = Ok t
    /\ List.filter (fun c => negb (is_space c)) t
       = List.filter (fun c => negb (is_space c)) s
    /\ Forall (fun c => is_space c = true -> c = 32) t
    /\ (length t <= length s)%nat.
Proof.
  eexists. split; [apply trimExtraSpaces_eq|]. split; [|split].
  - rewrite trim_filter by (by intros c ->).
    apply filter_collapse; [done | by intros c ->].
  - apply trim_plain_spaces, collapse_plain_spaces.
  - etrans; [apply trim_length | apply collapse_length].
Qed.

(** ** More on verifyHash *)

(** X28: [verifyHash] reads the first two fields of the encoded string
    only: a hash made by [hashWithSalt] with the default round count still
    verifies after a colon and any text are put behind it. *)
Theorem verifyHash_ignores_suffix (randomBytes : random_source)
  (bytes p junk : jsstring) (Hsource : randomBytes 16%Z = Ok bytes) :
  exists encoded,
    hashWithSalt randomBytes (VString p) None = Ok encoded
    /\ verifyHash (VString p) (VString encoded) = Ok true
    /\ verifyHash (VString p) (VString (encoded ++ lit ":" ++ junk)) = Ok true.
Proof.
  rewrite hashWithSalt_unfold, Hsource. cbn [bind default].
  rewrite pbkdf2Sync_ok by (unfold Crypto.max_int32; cbn; lia).
  cbn [bind try_catch]. eexists. split; [reflexivity|].
  rewrite !verifyHash_eq. change (lit ":") with [58].
  rewrite <- !app_assoc. cbn [app].
  rewrite !split_on_app by apply to_hex_no_colon.
  rewrite split_on_no_sep by apply to_hex_no_colon.
  change (Z.to_nat 10) with 10%nat.
  split; f_equal; by apply bool_decide_eq_true_2.
Qed.

Lemma verifyHash_ignores_suffix_witness :
  exists encoded,
    hashWithSalt (fun _ => Ok (lit "0123456789abcdef")) (VString (lit "secret")) None
    = Ok encoded
    /\ verifyHash (VString (lit "secret")) (VString encoded) = Ok true
    /\ verifyHash (VString (lit "secret"))
         (VString (encoded ++ lit ":" ++ lit "role=admin")) = Ok true.
Proof.
  apply (verifyHash_ignores_suffix (fun _ => Ok (lit "0123456789abcdef"))
           (lit "0123456789abcdef") (lit "secret") (lit "role=admin")).
  reflexivity.
Defined.
